(** * Lane queue and session write lock of openclaw

    A shallow embedding of [src/process/command-queue.ts] (the in-process
    multi-lane task queue) and [src/agents/session-write-lock.ts] (the
    cross-process advisory file lock), followed by the properties of the
    specification that concern them.

    The JavaScript host is single threaded: every exported call, timer
    callback and promise continuation runs to completion before the next one
    starts. The queue is therefore a transition system whose transitions
    are those run-to-completion blocks, and the lock functions are state
    transformers over a world made of the file system, the process table,
    the clock and the in-process lock table. *)

From Stdlib Require Import ZArith String Ascii List Lia Bool.
From stdpp Require Import base gmap strings list pretty.

(** ** JavaScript values used by the two files *)

Module Js.

(** Numbers. The finite numbers the two files compute with are counts,
    process ids and millisecond values; the model keeps the integral ones
    and the three non finite values, on which the comparisons and
    [Math.max]/[Math.min] behave specially. *)
Inductive JsNumber :=
  | Num (z : Z)
  | NaN
  | Infinity
  | NegInfinity.

Definition isFinite (n : JsNumber) : bool :=
  match n with Num _ => true | _ => false end.

(** [a < b]; every comparison with [NaN] is false. *)
Definition num_lt (a b : JsNumber) : bool :=
  match a, b with
  | Num x, Num y => (x <? y)%Z
  | Num _, Infinity => true
  | NegInfinity, Num _ => true
  | NegInfinity, Infinity => true
  | _, _ => false
  end.

(** [a <= b]. *)
Definition num_le (a b : JsNumber) : bool :=
  match a, b with
  | Num x, Num y => (x <=? y)%Z
  | Num _, Infinity => true
  | NegInfinity, Num _ => true
  | NegInfinity, Infinity => true
  | Infinity, Infinity => true
  | NegInfinity, NegInfinity => true
  | _, _ => false
  end.

Definition num_gt (a b : JsNumber) : bool := num_lt b a.
Definition num_ge (a b : JsNumber) : bool := num_le b a.

(** [a - b]. *)
Definition num_sub (a b : JsNumber) : JsNumber :=
  match a, b with
  | NaN, _ | _, NaN => NaN
  | Num x, Num y => Num (x - y)
  | Infinity, Infinity => NaN
  | NegInfinity, NegInfinity => NaN
  | Infinity, _ => Infinity
  | NegInfinity, _ => NegInfinity
  | Num _, Infinity => NegInfinity
  | Num _, NegInfinity => Infinity
  end.

(** [Math.max(a, b)]: [NaN] if either argument is. *)
Definition Math_max (a b : JsNumber) : JsNumber :=
  match a, b with
  | NaN, _ | _, NaN => NaN
  | _, _ => if num_le a b then b else a
  end.

(** [Math.min(a, b)]. *)
Definition Math_min (a b : JsNumber) : JsNumber :=
  match a, b with
  | NaN, _ | _, NaN => NaN
  | _, _ => if num_le a b then a else b
  end.

(** [Math.floor]: the identity on integral and on non finite numbers. *)
Definition Math_floor (n : JsNumber) : JsNumber :=
  match n with
  | Num z => Num z
  | NaN => NaN
  | Infinity => Infinity
  | NegInfinity => NegInfinity
  end.

(** Truthiness of a number: [0] and [NaN] are falsy. *)
Definition truthy_num (n : JsNumber) : bool :=
  match n with
  | Num z => negb (z =? 0)%Z
  | NaN => false
  | _ => true
  end.

(** [String(n)], as a template literal does it: decimal digits for an
    integer. *)
Definition Number_toString (n : JsNumber) : string :=
  match n with
  | Num z => pretty z
  | NaN => "NaN"
  | Infinity => "Infinity"
  | NegInfinity => "-Infinity"
  end.

(** White space removed by [trim] and skipped by [parseInt] (the ASCII
    part of it). *)
Definition is_whitespace (c : ascii) : bool :=
  match nat_of_ascii c with
  | 9%nat | 10%nat | 11%nat | 12%nat | 13%nat | 32%nat => true
  | _ => false
  end.

Fixpoint trimStart (s : string) : string :=
  match s with
  | EmptyString => EmptyString
  | String c rest => if is_whitespace c then trimStart rest else s
  end.

Definition trimEnd (s : string) : string :=
  String.rev (trimStart (String.rev s)).

(** [s.trim()]. *)
Definition trim (s : string) : string := trimEnd (trimStart s).

(** Truthiness of a string: only the empty string is falsy. *)
Definition truthy_str (s : string) : bool :=
  match s with EmptyString => false | _ => true end.

(** [s.startsWith(p)]. *)
Definition startsWith (s p : string) : bool := String.prefix p s.

(** [s.endsWith(p)]. *)
Definition endsWith (s p : string) : bool :=
  String.prefix (String.rev p) (String.rev s).

(** [s.includes(sub)]: [sub] occurs in [s]. *)
Fixpoint includes (s sub : string) : bool :=
  String.prefix sub s
  || match s with
     | EmptyString => false
     | String _ rest => includes rest sub
     end.

Definition digit_of (c : ascii) : option Z :=
  let n := Z.of_nat (nat_of_ascii c) in
  if ((48 <=? n) && (n <=? 57))%Z then Some (n - 48)%Z else None.

(** The longest prefix of decimal digits, as a number. *)
Fixpoint parse_digits (s : string) (acc : option Z) : option Z :=
  match s with
  | EmptyString => acc
  | String c rest =>
      match digit_of c with
      | Some d => parse_digits rest (Some (10 * default 0%Z acc + d)%Z)
      | None => acc
      end
  end.

(** [Number.parseInt(s, 10)]. *)
Definition Number_parseInt (s : string) : JsNumber :=
  match trimStart s with
  | String "-"%char rest =>
      match parse_digits rest None with
      | Some n => Num (- n)
      | None => NaN
      end
  | String "+"%char rest =>
      match parse_digits rest None with
      | Some n => Num n
      | None => NaN
      end
  | t =>
      match parse_digits t None with
      | Some n => Num n
      | None => NaN
      end
  end.

End Js.

(** ** The lane queue: [src/process/command-queue.ts]

    The module state ([lanes]), the closures the pump creates and the
    effects on the surroundings are threaded explicitly. Tasks, wait
    observers and the logger are collaborators of the queue: a call to one
    of them is recorded as an effect and returns normally, and whatever they
    do to the queue they do through the exported calls, which are steps of
    their own. Time is read from the event that runs ([now]). *)

Module CommandQueue.
Import Js.
Local Open Scope Z_scope.

(** Modelled from the spec: [CommandLane.Main] of [./lanes.js], which is
    not among the sources. The spec calls it the default lane constant; the
    header comment of the queue gives its name. *)
Definition CommandLane_Main : string := "main".

Definition DEFAULT_LANE_TASK_TIMEOUT_MS : Z := 300000.
Definition MIN_LANE_TASK_TIMEOUT_MS : Z := 5000.

(** An enqueue call creates one promise and one queue entry; the entry's
    [task], [resolve] and [reject] all belong to that call, so a single
    identifier stands for the three of them. *)
Abbreviation TaskId := nat.

Record QueueEntry := mkQueueEntry {
  task : TaskId;
  enqueuedAt : Z;
  warnAfterMs : JsNumber;
  onWait : bool  (* whether a wait observer was supplied *)
}.

Record LaneState := mkLaneState {
  lane : string;
  queue : list QueueEntry;
  active : Z;
  maxConcurrent : JsNumber;
  draining : bool
}.

Definition set_queue (q : list QueueEntry) (st : LaneState) : LaneState :=
  mkLaneState (lane st) q (active st) (maxConcurrent st) (draining st).
Definition set_active (a : Z) (st : LaneState) : LaneState :=
  mkLaneState (lane st) (queue st) a (maxConcurrent st) (draining st).
Definition set_maxConcurrent (m : JsNumber) (st : LaneState) : LaneState :=
  mkLaneState (lane st) (queue st) (active st) m (draining st).
Definition set_draining (d : bool) (st : LaneState) : LaneState :=
  mkLaneState (lane st) (queue st) (active st) (maxConcurrent st) d.

(** What a task's own promise settles with. *)
Inductive Outcome :=
  | Fulfilled (value : string)
  | Failed (err : string).

(** The argument of [entry.reject]: the task's own error, or the [Error]
    object built on the timeout path. *)
Inductive Reason :=
  | TaskError (err : string)
  | ErrorObject (message : string).

Inductive Settlement :=
  | Resolve (value : string)
  | Reject (reason : Reason).

(** What the queue does to its surroundings, in the order it does it. *)
Inductive Effect :=
  | QueuePush (ln : string) (id : TaskId)
  | QueueClear (ln : string) (ids : list TaskId)
  | LogLaneEnqueue (ln : string) (size : Z)
  | LogLaneDequeue (ln : string) (waitedMs queued : Z)
  | OnWaitCall (id : TaskId) (waitedMs queuedAhead : Z)
  | DiagWarn (message : string)
  | DiagDebug (message : string)
  | DiagError (message : string)
  | SetTimeout (id : TaskId) (ms : JsNumber)
  | ClearTimeout (id : TaskId)
  | TaskCall (ln : string) (id : TaskId)
  | Settle (id : TaskId) (s : Settlement).

Inductive TimerState := TimerPending | TimerFired | TimerCleared.

(** The closure of the asynchronous block that the pump starts for one
    entry: its captured variables and the two things it waits for. *)
Record Launched := mkLaunched {
  l_lane : string;
  l_entry : QueueEntry;
  startTime : Z;
  LANE_TASK_TIMEOUT_MS : JsNumber;
  settled : bool;
  timeoutId : TimerState;
  awaiting : bool  (* [await entry.task()] has not resumed yet *)
}.

Definition set_settled (r : Launched) : Launched :=
  mkLaunched (l_lane r) (l_entry r) (startTime r) (LANE_TASK_TIMEOUT_MS r)
             true (timeoutId r) (awaiting r).
Definition set_timeoutId (t : TimerState) (r : Launched) : Launched :=
  mkLaunched (l_lane r) (l_entry r) (startTime r) (LANE_TASK_TIMEOUT_MS r)
             (settled r) t (awaiting r).
Definition set_resumed (r : Launched) : Launched :=
  mkLaunched (l_lane r) (l_entry r) (startTime r) (LANE_TASK_TIMEOUT_MS r)
             (settled r) (timeoutId r) false.

Record State := mkState {
  lanes : gmap string LaneState;
  launched : gmap TaskId Launched;
  nextTask : TaskId;
  effects : list Effect;
  OPENCLAW_LANE_TASK_TIMEOUT_MS : option string
}.

Definition init (env : option string) : State :=
  mkState ∅ ∅ 0%nat [] env.

Definition set_lane (st : LaneState) (s : State) : State :=
  mkState (<[lane st := st]> (lanes s)) (launched s) (nextTask s) (effects s)
          (OPENCLAW_LANE_TASK_TIMEOUT_MS s).
Definition set_launched (id : TaskId) (r : Launched) (s : State) : State :=
  mkState (lanes s) (<[id := r]> (launched s)) (nextTask s) (effects s)
          (OPENCLAW_LANE_TASK_TIMEOUT_MS s).
Definition emit (effs : list Effect) (s : State) : State :=
  mkState (lanes s) (launched s) (nextTask s) (effects s ++ effs)
          (OPENCLAW_LANE_TASK_TIMEOUT_MS s).

Definition createdLane (ln : string) : LaneState :=
  mkLaneState ln [] 0 (Num 1) false.

(** [getLaneState]: the registered state, or a fresh one. Every caller
    below stores the state it obtained back under the same name, which
    registers a fresh one. *)
Definition getLaneState (s : State) (ln : string) : LaneState :=
  match lanes s !! ln with
  | Some existing => existing
  | None => createdLane ln
  end.

(** [lane.trim() || CommandLane.Main]. *)
Definition cleanLane (ln : string) : string :=
  if truthy_str (trim ln) then trim ln else CommandLane_Main.

(** The timeout budget computed at each launch from the environment. *)
Definition laneTaskTimeout (timeoutEnv : option string) : JsNumber :=
  let parsedTimeout :=
    match timeoutEnv with
    | Some v => if truthy_str v then Number_parseInt v
                else Num DEFAULT_LANE_TASK_TIMEOUT_MS
    | None => Num DEFAULT_LANE_TASK_TIMEOUT_MS
    end in
  if isFinite parsedTimeout && num_gt parsedTimeout (Num 0)
  then Math_max parsedTimeout (Num MIN_LANE_TASK_TIMEOUT_MS)
  else Num DEFAULT_LANE_TASK_TIMEOUT_MS.

Definition len (q : list QueueEntry) : Z := Z.of_nat (length q).

Definition waitExceededMessage (ln : string) (waitedMs queueAhead : Z) : string :=
  "lane wait exceeded: lane=" ++ ln ++ " waitedMs=" ++ pretty waitedMs
  ++ " queueAhead=" ++ pretty queueAhead.

Definition taskTimeoutWarning (ln : string) (durationMs : Z)
    (timeoutMs : JsNumber) (act queued : Z) : string :=
  "lane task timeout: lane=" ++ ln ++ " durationMs=" ++ pretty durationMs
  ++ " timeoutMs=" ++ Number_toString timeoutMs
  ++ " active=" ++ pretty act ++ " queued=" ++ pretty queued.

Definition taskTimeoutError (timeoutMs : JsNumber) : string :=
  "Lane task timed out after " ++ Number_toString timeoutMs ++ "ms".

Definition taskDoneMessage (ln : string) (durationMs act queued : Z) : string :=
  "lane task done: lane=" ++ ln ++ " durationMs=" ++ pretty durationMs
  ++ " active=" ++ pretty act ++ " queued=" ++ pretty queued.

(** The character that encloses the error text in the log line. *)
Definition doubleQuote : ascii := ascii_of_nat 34.

Definition taskErrorMessage (ln : string) (durationMs : Z) (err : string) : string :=
  "lane task error: lane=" ++ ln ++ " durationMs=" ++ pretty durationMs
  ++ " error=" ++ String doubleQuote (err ++ String doubleQuote EmptyString).

(** The closure created for [entry] when the pump starts it. *)
Definition launch (now : Z) (env : option string) (ln : string)
    (entry : QueueEntry) : Launched :=
  mkLaunched ln entry now (laneTaskTimeout env) false TimerPending true.

(** The [while] loop of [pump]. [pending] is [state.queue]; one entry is
    shifted per iteration, so the loop is a recursion on it. The result is
    the lane state when the loop exits, the closures started and the
    effects, both in order. *)
Fixpoint pumpLoop (now : Z) (env : option string) (state : LaneState)
    (pending : list QueueEntry) : LaneState * list Launched * list Effect :=
  match pending with
  | [] => (set_queue [] state, [], [])
  | entry :: rest =>
      if num_lt (Num (active state)) (maxConcurrent state) then
        let waitedMs := (now - enqueuedAt entry)%Z in
        let warned :=
          if num_ge (Num waitedMs) (warnAfterMs entry) then
            (if onWait entry then [OnWaitCall (task entry) waitedMs (len rest)]
             else [])
            ++ [DiagWarn (waitExceededMessage (lane state) waitedMs (len rest))]
          else [] in
        let state1 := set_active (active state + 1) (set_queue rest state) in
        let r := launch now env (lane state) entry in
        let '(state2, started, effs) := pumpLoop now env state1 rest in
        (state2, r :: started,
         warned
         ++ [LogLaneDequeue (lane state) waitedMs (len rest);
             SetTimeout (task entry) (LANE_TASK_TIMEOUT_MS r);
             TaskCall (lane state) (task entry)]
         ++ effs)
      else (set_queue pending state, [], [])
  end.

(** [pump()]: the loop, then [state.draining = false]. *)
Definition pump (now : Z) (env : option string) (state : LaneState)
    : LaneState * list Launched * list Effect :=
  let '(state1, started, effs) := pumpLoop now env state (queue state) in
  (set_draining false state1, started, effs).

Definition register (started : list Launched) (m : gmap TaskId Launched)
    : gmap TaskId Launched :=
  foldl (fun acc r => <[task (l_entry r) := r]> acc) m started.

(** Runs [pump] on a lane state and stores what it did. *)
Definition pumpLane (now : Z) (state : LaneState) (s : State) : State :=
  let '(state1, started, effs) := pump now (OPENCLAW_LANE_TASK_TIMEOUT_MS s) state in
  mkState (<[lane state1 := state1]> (lanes s))
          (register started (launched s))
          (nextTask s)
          (effects s ++ effs)
          (OPENCLAW_LANE_TASK_TIMEOUT_MS s).

(** [drainLane(lane)]. *)
Definition drainLane (now : Z) (ln : string) (s : State) : State :=
  let state := getLaneState s ln in
  if draining state then set_lane state s
  else pumpLane now (set_draining true state) s.

(** [setCommandLaneConcurrency(lane, maxConcurrent)]. *)
Definition setCommandLaneConcurrency (ln : string) (n : JsNumber) (now : Z)
    (s : State) : State :=
  let cleaned := cleanLane ln in
  let state := getLaneState s cleaned in
  let state1 := set_maxConcurrent (Math_max (Num 1) (Math_floor n)) state in
  drainLane now cleaned (set_lane state1 s).

(** [enqueueCommandInLane(lane, task, opts)]: the new state and the
    identifier of the promise returned to the caller. *)
Definition enqueueCommandInLane (ln : string) (opts_warnAfterMs : option JsNumber)
    (opts_onWait : bool) (now : Z) (s : State) : State * TaskId :=
  let cleaned := cleanLane ln in
  let warnAfter := default (Num 2000) opts_warnAfterMs in
  let state := getLaneState s cleaned in
  let id := nextTask s in
  let entry := mkQueueEntry id now warnAfter opts_onWait in
  let state1 := set_queue (queue state ++ [entry]) state in
  let s1 :=
    mkState (<[lane state1 := state1]> (lanes s)) (launched s) (S id)
            (effects s
             ++ [QueuePush cleaned id;
                 LogLaneEnqueue cleaned (len (queue state1) + active state1)])
            (OPENCLAW_LANE_TASK_TIMEOUT_MS s) in
  (drainLane now cleaned s1, id).

(** [enqueueCommand(task, opts)]. *)
Definition enqueueCommand (opts_warnAfterMs : option JsNumber)
    (opts_onWait : bool) (now : Z) (s : State) : State * TaskId :=
  enqueueCommandInLane CommandLane_Main opts_warnAfterMs opts_onWait now s.

(** [getQueueSize(lane)]. *)
Definition getQueueSize (ln : string) (s : State) : Z :=
  match lanes s !! cleanLane ln with
  | None => 0
  | Some state => len (queue state) + active state
  end.

(** [getTotalQueueSize()]. *)
Definition getTotalQueueSize (s : State) : Z :=
  map_fold (fun _ st total => total + (len (queue st) + active st))%Z 0%Z (lanes s).

(** [clearCommandLane(lane)]: the new state and the number removed. *)
Definition clearCommandLane (ln : string) (s : State) : State * Z :=
  let cleaned := cleanLane ln in
  match lanes s !! cleaned with
  | None => (s, 0)
  | Some state =>
      let removed := len (queue state) in
      (emit [QueueClear cleaned (map task (queue state))]
            (set_lane (set_queue [] state) s),
       removed)
  end.

(** The callback given to [setTimeout] for the closure [id]. A timer runs
    its callback at most once, and never after [clearTimeout]. *)
Definition onTimeout (id : TaskId) (now : Z) (s : State) : State :=
  match launched s !! id with
  | None => s
  | Some r =>
      match timeoutId r with
      | TimerPending =>
          let r1 := set_timeoutId TimerFired r in
          if settled r then set_launched id r1 s
          else
            let state := getLaneState s (l_lane r) in
            let state1 := set_active (active state - 1) state in
            let s1 :=
              emit [DiagWarn (taskTimeoutWarning (l_lane r) (now - startTime r)
                                (LANE_TASK_TIMEOUT_MS r) (active state1)
                                (len (queue state1)))]
                   (set_lane state1 (set_launched id (set_settled r1) s)) in
            emit [Settle id (Reject (ErrorObject
                                       (taskTimeoutError (LANE_TASK_TIMEOUT_MS r))))]
                 (pumpLane now state1 s1)
      | _ => s
      end
  end.

Definition isProbeLane (ln : string) : bool :=
  startsWith ln "auth-probe:" || startsWith ln "session:probe-".

(** The continuation of [await entry.task()] for the closure [id]: the
    [try] body when the task fulfilled, the [catch] body when it failed. A
    promise settles once, so the continuation runs at most once. *)
Definition onTaskSettled (id : TaskId) (o : Outcome) (now : Z) (s : State) : State :=
  match launched s !! id with
  | None => s
  | Some r =>
      if awaiting r then
        let r1 := set_resumed r in
        if settled r then set_launched id r1 s
        else
          let r2 := set_timeoutId TimerCleared (set_settled r1) in
          let state := getLaneState s (l_lane r) in
          let state1 := set_active (active state - 1) state in
          let logged :=
            match o with
            | Fulfilled _ =>
                [DiagDebug (taskDoneMessage (l_lane r) (now - startTime r)
                              (active state1) (len (queue state1)))]
            | Failed err =>
                if isProbeLane (l_lane r) then []
                else [DiagError (taskErrorMessage (l_lane r) (now - startTime r) err)]
            end in
          let s1 :=
            emit (ClearTimeout id :: logged)
                 (set_lane state1 (set_launched id r2 s)) in
          let settlement :=
            match o with
            | Fulfilled value => Resolve value
            | Failed err => Reject (TaskError err)
            end in
          emit [Settle id settlement] (pumpLane now state1 s1)
      else s
  end.

(** The run-to-completion blocks of the event loop that touch the queue. *)
Inductive Event :=
  | Enqueue (ln : string) (opts_warnAfterMs : option JsNumber)
            (opts_onWait : bool) (now : Z)
  | SetConcurrency (ln : string) (n : JsNumber) (now : Z)
  | Clear (ln : string)
  | TimerFires (id : TaskId) (now : Z)
  | TaskSettles (id : TaskId) (o : Outcome) (now : Z).

Definition step (s : State) (ev : Event) : State :=
  match ev with
  | Enqueue ln w o now => fst (enqueueCommandInLane ln w o now s)
  | SetConcurrency ln n now => setCommandLaneConcurrency ln n now s
  | Clear ln => fst (clearCommandLane ln s)
  | TimerFires id now => onTimeout id now s
  | TaskSettles id o now => onTaskSettled id o now s
  end.

Definition run (s : State) (evs : list Event) : State := fold_left step evs s.

(** *** Observations on the effect history *)

(** The settlements delivered to the promise [id], in order. *)
Definition settlements (id : TaskId) (effs : list Effect) : list Settlement :=
  omap (fun e => match e with
                 | Settle id' st => if decide (id' = id) then Some st else None
                 | _ => None
                 end) effs.

(** The tasks pushed on lane [ln], in order. *)
Definition enqueuedOn (ln : string) (effs : list Effect) : list TaskId :=
  omap (fun e => match e with
                 | QueuePush ln' id => if decide (ln' = ln) then Some id else None
                 | _ => None
                 end) effs.

(** The tasks of lane [ln] whose [entry.task()] was called, in order. *)
Definition startedOn (ln : string) (effs : list Effect) : list TaskId :=
  omap (fun e => match e with
                 | TaskCall ln' id => if decide (ln' = ln) then Some id else None
                 | _ => None
                 end) effs.

(** The tasks removed from lane [ln] by [clearCommandLane]. *)
Definition clearedOn (ln : string) (effs : list Effect) : list TaskId :=
  concat (omap (fun e => match e with
                         | QueueClear ln' ids =>
                             if decide (ln' = ln) then Some ids else None
                         | _ => None
                         end) effs).

(** [state.active <= state.maxConcurrent], as JavaScript evaluates it. *)
Definition withinCap (st : LaneState) : bool :=
  num_le (Num (active st)) (maxConcurrent st).

End CommandQueue.

(** ** The session write lock: [src/agents/session-write-lock.ts]

    The functions are state transformers over a [World]: the files, the
    open handles, the table [HELD_LOCKS], the clock and the log of the calls
    made to the file system. A call runs from its start to its end with no
    other code in between; the clock moves when the loop sleeps. What the
    host provides and the lock does not change (the process table,
    [fs.realpath], [Date.parse], [toISOString]) is a parameter. *)

Module SessionWriteLock.
Import Js.
Local Open Scope Z_scope.

(** A path, once [path.resolve] has made it absolute and normal: its
    segments below the root. *)
Abbreviation Path := (list string).

Definition path_dirname (p : Path) : Path := List.removelast p.
Definition path_basename (p : Path) : string := List.last p EmptyString.

(** [path.join(dir, name)] for a single segment [name]. *)
Definition path_join (dir : Path) (name : string) : Path :=
  if truthy_str name then dir ++ [name] else dir.

(** The text of a path, as a template literal prints it. *)
Fixpoint path_text_segments (p : Path) : string :=
  match p with
  | [] => EmptyString
  | seg :: rest => String "/"%char (seg ++ path_text_segments rest)
  end.

Definition path_text (p : Path) : string :=
  match p with
  | [] => "/"
  | _ => path_text_segments p
  end.

(** [`${p}.lock`]. *)
Definition withLockSuffix (p : Path) : Path :=
  match p with
  | [] => [".lock"%string]
  | _ => List.removelast p ++ [(List.last p EmptyString ++ ".lock")%string]
  end.

(** [name.replace(/\.lock$/, "")]. *)
Definition stripLockName (name : string) : string :=
  if endsWith name ".lock"
  then substring 0 (String.length name - 5) name
  else name.

(** [lockPath.replace(/\.lock$/, "")]. *)
Definition stripLockSuffix (p : Path) : Path :=
  match p with
  | [] => []
  | _ => List.removelast p ++ [stripLockName (List.last p EmptyString)]
  end.

(** A field of the object [JSON.parse] returns, as far as [typeof]
    distinguishes it. *)
Inductive JsVal :=
  | VUndefined
  | VNumber (n : JsNumber)
  | VString (s : string)
  | VOther.

(** The body of a file, as [JSON.parse] reads it: text that does not
    parse, or a value with its [pid] and [createdAt] properties. *)
Inductive FileBody :=
  | NotJson
  | JsonObject (pid_field createdAt_field : JsVal).

Inductive FsNode :=
  | RegFile (body : FileBody)
  | Directory.

Record LockFilePayload := mkPayload {
  pid : JsNumber;
  createdAt : string
}.

Record HeldLock := mkHeldLock {
  count : Z;
  handle : nat;
  lockPath : Path
}.

(** What [process.kill(pid, 0)] does. *)
Inductive KillResult := KillOk | KillEPERM | KillESRCH.

(** The calls made to the file system, in order. *)
Inductive FsOp :=
  | OpMkdir (p : Path)
  | OpRealpath (p : Path)
  | OpOpenWx (p : Path)
  | OpWriteFile (h : nat)
  | OpClose (h : nat)
  | OpReadFile (p : Path)
  | OpRm (p : Path)
  | OpRmSync (p : Path)
  | OpReaddir (p : Path).

Inductive Error :=
  | FsError (code : string) (p : Path)
  | LockedError (message : string).

Record World := mkWorld {
  files : gmap Path FsNode;
  openHandles : gset nat;
  nextHandle : nat;
  HELD_LOCKS : gmap Path HeldLock;
  cleanupRegistered : bool;
  clock : Z;
  fsLog : list FsOp
}.

Definition set_files (f : gmap Path FsNode) (w : World) : World :=
  mkWorld f (openHandles w) (nextHandle w) (HELD_LOCKS w)
          (cleanupRegistered w) (clock w) (fsLog w).
Definition set_held (h : gmap Path HeldLock) (w : World) : World :=
  mkWorld (files w) (openHandles w) (nextHandle w) h
          (cleanupRegistered w) (clock w) (fsLog w).
Definition logOp (op : FsOp) (w : World) : World :=
  mkWorld (files w) (openHandles w) (nextHandle w) (HELD_LOCKS w)
          (cleanupRegistered w) (clock w) (fsLog w ++ [op]).

(** The release closure returned by an acquisition. Both closures of the
    source capture [normalizedSessionFile] only; [rel_origin] records which
    acquisition returned the closure and is read by nothing. *)
Record Release := mkRelease {
  rel_sessionFile : Path;
  rel_origin : nat
}.

Inductive Attempt :=
  | Acquired
  | Thrown (e : Error)
  | RetryNow
  | RetryAfter (delay : Z).

Inductive Result :=
  | Ok (release : Release)
  | Rejected (e : Error)
  | OutOfFuel.

Section Host.

(** The parts of the host the lock relies on and does not change. *)
Variable process_pid : Z.
Variable process_kill0 : Z -> KillResult.
Variable fs_realpath : Path -> option Path.
Variable Date_parse : string -> JsNumber.
Variable Date_toISOString : Z -> string.

(** [isAlive(pid)]. *)
Definition isAlive (p : JsNumber) : bool :=
  if negb (isFinite p) || num_le p (Num 0) then false
  else
    match p with
    | Num z =>
        match process_kill0 z with
        | KillOk => true
        | KillEPERM => true
        | KillESRCH => false
        end
    | _ => false
    end.

Definition isDirectory (w : World) (p : Path) : bool :=
  match p with
  | [] => true
  | _ => match files w !! p with
         | Some Directory => true
         | _ => false
         end
  end.

(** The proper prefixes of [p] and [p] itself, shortest first. *)
Fixpoint ancestors (p : Path) : list Path :=
  match p with
  | [] => []
  | seg :: rest => [seg] :: map (cons seg) (ancestors rest)
  end.

Definition isRegFile (w : World) (p : Path) : bool :=
  match files w !! p with
  | Some (RegFile _) => true
  | _ => false
  end.

(** [fs.mkdir(dir, { recursive: true })]: [None] when it throws. *)
Definition fs_mkdir (dir : Path) (w : World) : option World :=
  let w1 := logOp (OpMkdir dir) w in
  if existsb (isRegFile w) (ancestors dir) then None
  else Some (set_files (foldr (fun p m => <[p := Directory]> m) (files w)
                              (ancestors dir)) w1).

(** [fs.rm(p, { force: true })]: a missing file is not an error, a
    directory is. [None] when it throws. *)
Definition fs_rm (p : Path) (w : World) : option World :=
  match files w !! p with
  | Some Directory => None
  | _ => Some (set_files (delete p (files w)) w)
  end.

(** [readLockPayload(lockPath)]. *)
Definition parsePayload (node : option FsNode) : option LockFilePayload :=
  match node with
  | Some (RegFile (JsonObject (VNumber p) (VString c))) => Some (mkPayload p c)
  | _ => None
  end.

Definition readLockPayload (p : Path) (w : World)
    : World * option LockFilePayload :=
  (logOp (OpReadFile p) w, parsePayload (files w !! p)).

(** [registerCleanupHandlers()]. *)
Definition registerCleanupHandlers (w : World) : World :=
  mkWorld (files w) (openHandles w) (nextHandle w) (HELD_LOCKS w)
          true (clock w) (fsLog w).

Definition closeHandle (h : nat) (w : World) : World :=
  mkWorld (files w) (openHandles w ∖ {[h]}) (nextHandle w) (HELD_LOCKS w)
          (cleanupRegistered w) (clock w) (fsLog w ++ [OpClose h]).

(** [releaseAllLocksSync()]. *)
Definition releaseAllLocksSync (w : World) : World :=
  map_fold (fun sessionFile held acc =>
              let acc1 := closeHandle (handle held) acc in
              let acc2 := logOp (OpRmSync (lockPath held)) acc1 in
              let acc3 := default acc2 (fs_rm (lockPath held) acc2) in
              set_held (delete sessionFile (HELD_LOCKS acc3)) acc3)
           w (HELD_LOCKS w).

(** The [release] closures. *)
Definition release (rel : Release) (w : World) : World * option Error :=
  let normalizedSessionFile := rel_sessionFile rel in
  match HELD_LOCKS w !! normalizedSessionFile with
  | None => (w, None)
  | Some current =>
      let current1 := mkHeldLock (count current - 1) (handle current)
                                 (lockPath current) in
      if 0 <? count current1 then
        (set_held (<[normalizedSessionFile := current1]> (HELD_LOCKS w)) w, None)
      else
        let w1 := set_held (delete normalizedSessionFile (HELD_LOCKS w)) w in
        let w2 := closeHandle (handle current1) w1 in
        let w3 := logOp (OpRm (lockPath current1)) w2 in
        match fs_rm (lockPath current1) w3 with
        | Some w4 => (w4, None)
        | None => (w3, Some (FsError "ERR_FS_EISDIR" (lockPath current1)))
        end
  end.

(** The start of [acquireSessionWriteLock]: the canonical path of the
    session file. *)
Definition canonicalPath (sessionFile : Path) (w : World)
    : option (World * Path) :=
  let sessionDir := path_dirname sessionFile in
  match fs_mkdir sessionDir w with
  | None => None
  | Some w1 =>
      let w2 := logOp (OpRealpath sessionDir) w1 in
      let normalizedDir := default sessionDir (fs_realpath sessionDir) in
      Some (w2, path_join normalizedDir (path_basename sessionFile))
  end.

Definition lockedMessage (timeoutMs : JsNumber)
    (payload : option LockFilePayload) (lockPath : Path) : string :=
  let owner :=
    match payload with
    | Some p => if truthy_num (pid p)
                then ("pid=" ++ Number_toString (pid p))%string
                else "unknown"%string
    | None => "unknown"%string
    end in
  ("session file locked (timeout " ++ Number_toString timeoutMs ++ "ms): "
   ++ owner ++ " " ++ path_text lockPath)%string.

(** One iteration of the acquisition loop, [attempt] already
    incremented. *)
Definition attemptOnce (normalizedSessionFile lockPath : Path)
    (staleMs : JsNumber) (attempt : Z) (w : World) : World * Attempt :=
  let w1 := logOp (OpOpenWx lockPath) w in
  match files w !! lockPath with
  | None =>
      if isDirectory w (path_dirname lockPath) then
        let h := nextHandle w in
        let body := JsonObject (VNumber (Num process_pid))
                               (VString (Date_toISOString (clock w))) in
        let w2 :=
          mkWorld (<[lockPath := RegFile body]> (files w))
                  (openHandles w ∪ {[h]}) (S h)
                  (<[normalizedSessionFile := mkHeldLock 1 h lockPath]>
                     (HELD_LOCKS w))
                  (cleanupRegistered w) (clock w)
                  (fsLog w1 ++ [OpWriteFile h]) in
        (w2, Acquired)
      else (w1, Thrown (FsError "ENOENT" lockPath))
  | Some _ =>
      let '(w2, payload) := readLockPayload lockPath w1 in
      let createdAtMs :=
        match payload with
        | Some p => if truthy_str (createdAt p) then Date_parse (createdAt p)
                    else NaN
        | None => NaN
        end in
      let stale :=
        negb (isFinite createdAtMs)
        || num_gt (num_sub (Num (clock w2)) createdAtMs) staleMs in
      let alive :=
        match payload with
        | Some p => if truthy_num (pid p) then isAlive (pid p) else false
        | None => false
        end in
      if stale || negb alive then
        let w3 := logOp (OpRm lockPath) w2 in
        match fs_rm lockPath w3 with
        | Some w4 => (w4, RetryNow)
        | None => (w3, Thrown (FsError "ERR_FS_EISDIR" lockPath))
        end
      else (w2, RetryAfter (Z.min 1000 (50 * attempt)))
  end.

(** [await new Promise((r) => setTimeout(r, delay))]. *)
Definition sleep (delay : Z) (w : World) : World :=
  mkWorld (files w) (openHandles w) (nextHandle w) (HELD_LOCKS w)
          (cleanupRegistered w) (clock w + delay) (fsLog w).

(** The [while] loop and the code after it. [attempt] counts the
    iterations done so far; [fuel] bounds the iterations still allowed. *)
Fixpoint acquireLoop (fuel : nat) (origin : nat)
    (normalizedSessionFile lockPath : Path) (timeoutMs staleMs : JsNumber)
    (startedAt attempt : Z) (w : World) : World * Result :=
  if num_lt (Num (clock w - startedAt)) timeoutMs then
    match fuel with
    | O => (w, OutOfFuel)
    | S fuel' =>
        let attempt1 := attempt + 1 in
        match attemptOnce normalizedSessionFile lockPath staleMs attempt1 w with
        | (w1, Acquired) => (w1, Ok (mkRelease normalizedSessionFile origin))
        | (w1, Thrown e) => (w1, Rejected e)
        | (w1, RetryNow) =>
            acquireLoop fuel' origin normalizedSessionFile lockPath
                        timeoutMs staleMs startedAt attempt1 w1
        | (w1, RetryAfter delay) =>
            acquireLoop fuel' origin normalizedSessionFile lockPath
                        timeoutMs staleMs startedAt attempt1 (sleep delay w1)
        end
    end
  else
    let '(w1, payload) := readLockPayload lockPath w in
    (w1, Rejected (LockedError (lockedMessage timeoutMs payload lockPath))).

(** [acquireSessionWriteLock({ sessionFile, timeoutMs, staleMs })];
    [origin] numbers the call. *)
Definition acquireSessionWriteLock (fuel : nat) (origin : nat)
    (sessionFile : Path) (opt_timeoutMs opt_staleMs : option JsNumber)
    (w : World) : World * Result :=
  let w0 := registerCleanupHandlers w in
  let timeoutMs := default (Num 10000) opt_timeoutMs in
  let staleMs := default (Num (30 * 60 * 1000)) opt_staleMs in
  match canonicalPath sessionFile w0 with
  | None => (logOp (OpMkdir (path_dirname sessionFile)) w0,
             Rejected (FsError "EEXIST" (path_dirname sessionFile)))
  | Some (w1, normalizedSessionFile) =>
      match HELD_LOCKS w1 !! normalizedSessionFile with
      | Some held =>
          let held1 := mkHeldLock (count held + 1) (handle held) (lockPath held) in
          (set_held (<[normalizedSessionFile := held1]> (HELD_LOCKS w1)) w1,
           Ok (mkRelease normalizedSessionFile origin))
      | None =>
          acquireLoop fuel origin normalizedSessionFile
                      (withLockSuffix normalizedSessionFile)
                      timeoutMs staleMs (clock w1) 0 w1
      end
  end.

(** [fs.readdir(directory)]: the names of the entries, [None] when it
    throws. *)
Definition childName (directory p : Path) : option string :=
  match p with
  | [] => None
  | _ => if decide (List.removelast p = directory)
         then Some (List.last p EmptyString) else None
  end.

Definition fs_readdir (directory : Path) (w : World) : option (list string) :=
  if isDirectory w directory
  then Some (omap (fun kv => childName directory kv.1) (map_to_list (files w)))
  else None.

(** The body of the [for] loop of [cleanupOrphanedLocks]. *)
Definition cleanupOne (directory : Path) (acc : World * Z) (lockFile : string)
    : World * Z :=
  let '(w, removed) := acc in
  let lockPath := path_join directory lockFile in
  let sessionFile := stripLockSuffix lockPath in
  match HELD_LOCKS w !! sessionFile with
  | Some _ => (w, removed)
  | None =>
      let '(w1, payload) := readLockPayload lockPath w in
      let orphaned :=
        match payload with
        | None => true
        | Some p => negb (isAlive (pid p))
        end in
      if orphaned then
        let w2 := logOp (OpRm lockPath) w1 in
        match fs_rm lockPath w2 with
        | Some w3 => (w3, removed + 1)
        | None => (w2, removed)
        end
      else (w1, removed)
  end.

(** [cleanupOrphanedLocks(directory)]. *)
Definition cleanupOrphanedLocks (directory : Path) (w : World) : World * Z :=
  let w1 := logOp (OpReaddir directory) w in
  match fs_readdir directory w with
  | None => (w1, 0)
  | Some entries =>
      let lockFiles := filter (fun name => endsWith name ".lock" = true) entries in
      fold_left (cleanupOne directory) lockFiles (w1, 0)
  end.

End Host.

End SessionWriteLock.

Import Js.

(** ** Predicates of the specification *)

Module QueueSpec.
Import CommandQueue.
Local Open Scope Z_scope.

(** The settlement that the completion path delivers for an outcome. *)
Definition settlementOf (o : Outcome) : Settlement :=
  match o with
  | Fulfilled value => Resolve value
  | Failed err => Reject (TaskError err)
  end.

(** The rejection delivered by the timeout path of a closure. *)
Definition timeoutRejection (r : Launched) : Settlement :=
  Reject (ErrorObject (taskTimeoutError (LANE_TASK_TIMEOUT_MS r))).

(** The three situations of a started task, against the settlements [l]
    its caller has received: still racing, lost to the timer, or completed
    first. *)
Definition racing (r : Launched) (l : list Settlement) : Prop :=
  settled r = false /\ timeoutId r = TimerPending /\ awaiting r = true /\ l = [].

Definition timedOut (r : Launched) (l : list Settlement) : Prop :=
  settled r = true /\ timeoutId r = TimerFired /\ l = [timeoutRejection r].

Definition completed (r : Launched) (l : list Settlement) : Prop :=
  settled r = true /\ timeoutId r = TimerCleared /\ awaiting r = false
  /\ exists o, l = [settlementOf o].

Definition settleSpec (o : option Launched) (l : list Settlement) : Prop :=
  match o with
  | None => l = []
  | Some r => racing r l \/ timedOut r l \/ completed r l
  end.

(** The identifiers waiting in lane [ln]. *)
Definition queuedOn (ln : string) (s : State) : list TaskId :=
  map task (queue (getLaneState s ln)).

(** The structural invariant of the queue: lanes are registered under
    their own name and never left draining; a waiting entry is fresh, not
    started, and waits in one place only; the history of a lane lists its
    starts, then its waiting entries, in the order of their pushes. *)
Record Inv (s : State) : Prop := mkInv {
  inv_lane : forall ln st, lanes s !! ln = Some st ->
      lane st = ln /\ draining st = false;
  inv_queue : forall ln st e, lanes s !! ln = Some st -> In e (queue st) ->
      (task e < nextTask s)%nat /\ launched s !! task e = None;
  inv_nodup : forall ln st, lanes s !! ln = Some st ->
      NoDup (map task (queue st));
  inv_disj : forall ln1 ln2 st1 st2 e1 e2,
      lanes s !! ln1 = Some st1 -> lanes s !! ln2 = Some st2 ->
      In e1 (queue st1) -> In e2 (queue st2) -> task e1 = task e2 -> ln1 = ln2;
  inv_launched : forall id r, launched s !! id = Some r ->
      (id < nextTask s)%nat /\ task (l_entry r) = id
      /\ is_Some (lanes s !! l_lane r);
  inv_pushed : forall ln id, In id (enqueuedOn ln (effects s)) ->
      (id < nextTask s)%nat;
  inv_pushed_nodup : forall ln, NoDup (enqueuedOn ln (effects s));
  inv_order : forall ln,
      sublist (startedOn ln (effects s) ++ queuedOn ln s)
              (enqueuedOn ln (effects s));
  inv_exact : forall ln, clearedOn ln (effects s) = [] ->
      enqueuedOn ln (effects s) = startedOn ln (effects s) ++ queuedOn ln s;
  inv_cleared : forall ln id, In id (clearedOn ln (effects s)) ->
      (id < nextTask s)%nat /\ launched s !! id = None
      /\ forall ln' st, lanes s !! ln' = Some st -> ~ In id (map task (queue st));
  inv_partition : forall ln,
      Permutation (enqueuedOn ln (effects s))
                  (startedOn ln (effects s) ++ queuedOn ln s
                   ++ clearedOn ln (effects s))
}.

(** The race invariant: every identifier is in one of the situations of
    [settleSpec]. *)
Definition SettleInv (s : State) : Prop :=
  forall id, settleSpec (launched s !! id) (settlements id (effects s)).

(** A trace respects the running tasks when no [setCommandLaneConcurrency]
    call in it sets a cap below the number of tasks then running on the
    lane. *)
Definition respectsRunning (s : State) (ev : Event) : bool :=
  match ev with
  | SetConcurrency ln n _ =>
      num_le (Num (active (getLaneState s (cleanLane ln))))
             (Math_max (Num 1) (Math_floor n))
  | _ => true
  end.

Fixpoint traceRespectsRunning (s : State) (evs : list Event) : bool :=
  match evs with
  | [] => true
  | ev :: rest => respectsRunning s ev && traceRespectsRunning (step s ev) rest
  end.

(** Every registered lane is within its cap. *)
Definition CapInv (s : State) : Prop :=
  forall ln st, lanes s !! ln = Some st -> withinCap st = true.

(** [sub] occurs in [s]. *)
Definition occurs (sub s : string) : Prop :=
  exists pre post : string, s = (pre ++ sub ++ post)%string.


(** Effects that reach no caller and move no entry: logging and timers. *)
Definition silent (e : Effect) : bool :=
  match e with
  | QueuePush _ _ | QueueClear _ _ | TaskCall _ _ | Settle _ _ => false
  | _ => true
  end.

(** What one run of the pump loop does: it starts a prefix of the queue,
    in order, each start under the guard [active < maxConcurrent]. *)
Inductive PumpResult (now : Z) (env : option string) (state : LaneState)
    (pending : list QueueEntry)
    (out : LaneState * list Launched * list Effect) : Prop :=
  mkPumpResult (started rest : list QueueEntry)
    (pr_split : pending = started ++ rest)
    (pr_state : fst (fst out) =
                mkLaneState (lane state) rest (active state + len started)
                            (maxConcurrent state) (draining state))
    (pr_launched : snd (fst out) = map (launch now env (lane state)) started)
    (pr_settle : forall id, settlements id (snd out) = [])
    (pr_pushed : forall ln, enqueuedOn ln (snd out) = [])
    (pr_cleared : forall ln, clearedOn ln (snd out) = [])
    (pr_calls : forall ln, startedOn ln (snd out) =
                  if decide (lane state = ln) then map task started else [])
    (pr_cap : withinCap state = true ->
              num_le (Num (active state + len started)) (maxConcurrent state) = true)
    (pr_head : forall e q, pending = e :: q ->
               num_lt (Num (active state)) (maxConcurrent state) = true ->
               exists more, started = e :: more)
    (pr_full : rest = []
               \/ num_lt (Num (active state + len started)) (maxConcurrent state)
                  = false).

(** The pump, seen from the whole state. *)
Inductive Pumped (now : Z) (st : LaneState) (s s' : State) : Prop :=
  mkPumped (started rest : list QueueEntry) (effs : list Effect)
    (pl_split : queue st = started ++ rest)
    (pl_lanes : lanes s' =
                <[lane st := mkLaneState (lane st) rest (active st + len started)
                                         (maxConcurrent st) false]> (lanes s))
    (pl_launched : launched s' =
                   register (map (launch now (OPENCLAW_LANE_TASK_TIMEOUT_MS s)
                                         (lane st)) started)
                            (launched s))
    (pl_next : nextTask s' = nextTask s)
    (pl_env : OPENCLAW_LANE_TASK_TIMEOUT_MS s' = OPENCLAW_LANE_TASK_TIMEOUT_MS s)
    (pl_effects : effects s' = effects s ++ effs)
    (pl_settle : forall id, settlements id effs = [])
    (pl_pushed : forall ln, enqueuedOn ln effs = [])
    (pl_cleared : forall ln, clearedOn ln effs = [])
    (pl_calls : forall ln, startedOn ln effs =
                  if decide (lane st = ln) then map task started else [])
    (pl_cap : withinCap st = true ->
              num_le (Num (active st + len started)) (maxConcurrent st) = true)
    (pl_head : forall e q, queue st = e :: q ->
               num_lt (Num (active st)) (maxConcurrent st) = true ->
               exists more, started = e :: more)
    (pl_full : rest = []
               \/ num_lt (Num (active st + len started)) (maxConcurrent st) = false).

(** [s'] has the entries, closures and history of [s]; it may differ in
    counters, caps, flags, silent effects, and in registering an empty
    lane. *)
Record sameShape (s s' : State) : Prop := mkSameShape {
  ss_next : nextTask s' = nextTask s;
  ss_pushed : forall ln, enqueuedOn ln (effects s') = enqueuedOn ln (effects s);
  ss_started : forall ln, startedOn ln (effects s') = startedOn ln (effects s);
  ss_cleared : forall ln, clearedOn ln (effects s') = clearedOn ln (effects s);
  ss_lanes : forall ln st', lanes s' !! ln = Some st' ->
      lane st' = ln /\ draining st' = false
      /\ queue st' = queue (getLaneState s ln);
  ss_lanes_mono : forall ln, is_Some (lanes s !! ln) -> is_Some (lanes s' !! ln);
  ss_launched : forall id,
      match launched s' !! id, launched s !! id with
      | Some r', Some r => l_entry r' = l_entry r /\ l_lane r' = l_lane r
      | None, None => True
      | _, _ => False
      end
}.

(** The state after [state.queue.push(...)] and [logLaneEnqueue(...)]. *)
Definition pushed (ln : string) (warnAfter : JsNumber) (observer : bool)
    (now : Z) (s : State) : State :=
  let state := getLaneState s ln in
  let entry := mkQueueEntry (nextTask s) now warnAfter observer in
  let state1 := set_queue (queue state ++ [entry]) state in
  mkState (<[lane state1 := state1]> (lanes s)) (launched s) (S (nextTask s))
          (effects s
           ++ [QueuePush ln (nextTask s);
               LogLaneEnqueue ln (len (queue state1) + active state1)])
          (OPENCLAW_LANE_TASK_TIMEOUT_MS s).

(** The state in which a closure that takes the slot back runs the pump:
    the closure is marked, the lane has one task less, the log line is
    written. *)
Definition releasedSlot (id : TaskId) (r' : Launched) (logged : list Effect)
    (s : State) : State :=
  let state := getLaneState s (l_lane r') in
  emit logged (set_lane (set_active (active state - 1) state)
                        (set_launched id r' s)).

(** What the completion path logs before it runs the pump. *)
Definition completionLog (r : Launched) (o : Outcome) (now : Z)
    (state1 : LaneState) : list Effect :=
  ClearTimeout (task (l_entry r))
  :: match o with
     | Fulfilled _ =>
         [DiagDebug (taskDoneMessage (l_lane r) (now - startTime r)
                       (active state1) (len (queue state1)))]
     | Failed err =>
         if isProbeLane (l_lane r) then []
         else [DiagError (taskErrorMessage (l_lane r) (now - startTime r) err)]
     end.

(** The tasks pushed on a lane and never cleared, in push order. *)
Definition survivorsOn (ln : string) (effs : list Effect) : list TaskId :=
  List.filter (fun id => negb (existsb (Nat.eqb id) (clearedOn ln effs)))
              (enqueuedOn ln effs).

End QueueSpec.

(** ** Predicates of the specification of the lock *)

Module LockSpec.
Import SessionWriteLock.
Local Open Scope Z_scope.

Section Host.

Variable process_kill0 : Z -> KillResult.
Variable Date_parse : string -> JsNumber.

(** The condition under which the spec says an existing lock file is
    reclaimed: its payload does not parse, or its process is not alive, or
    [now - createdAt > staleMs]. *)
Definition statedReclaim (w : World) (lockPath : Path) (staleMs : JsNumber)
    : bool :=
  match parsePayload (files w !! lockPath) with
  | None => true
  | Some p =>
      negb (isAlive process_kill0 (pid p))
      || num_gt (num_sub (Num (clock w)) (Date_parse (createdAt p))) staleMs
  end.

(** The condition under which the code reclaims it: the stated one, or a
    [createdAt] that is empty or not a date. *)
Definition reclaimed (w : World) (lockPath : Path) (staleMs : JsNumber) : bool :=
  match parsePayload (files w !! lockPath) with
  | None => true
  | Some p =>
      negb (truthy_str (createdAt p))
      || negb (isFinite (Date_parse (createdAt p)))
      || negb (isAlive process_kill0 (pid p))
      || num_gt (num_sub (Num (clock w)) (Date_parse (createdAt p))) staleMs
  end.

(** A lock file of [directory] that [cleanupOrphanedLocks] is to delete: a
    regular file named [*.lock] there, whose session file is not in the
    table of held locks, and whose payload does not parse or names a
    process that is not alive. *)
Definition isOrphanLock (w : World) (directory p : Path) : bool :=
  match p with
  | [] => false
  | _ =>
      bool_decide (List.removelast p = directory)
      && endsWith (List.last p EmptyString) ".lock"
      && bool_decide (HELD_LOCKS w !! stripLockSuffix p = None)
      && match files w !! p with
         | Some (RegFile _) =>
             match parsePayload (files w !! p) with
             | None => true
             | Some payload => negb (isAlive process_kill0 (pid payload))
             end
         | _ => false
         end
  end.

(** The entry [n] of [directory] is such a lock file. *)
Definition orphanName (directory : Path) (w : World) (n : string) : bool :=
  isOrphanLock w directory (directory ++ [n]).

End Host.

(** Running a list of release closures one after the other. *)
Definition releaseEach (rels : list Release) (w : World) : World :=
  fold_left (fun acc rel => fst (release rel acc)) rels w.

End LockSpec.

(** Concrete hosts, worlds and paths used by the examples. *)
Module Scenario.
Import SessionWriteLock.
Local Open Scope string_scope.
Local Open Scope Z_scope.

(** Processes 100 (this one) and 4242 run, process 1 belongs to another
    user, every other process is gone. *)
Definition kill0 (z : Z) : KillResult :=
  if (z =? 100) || (z =? 4242) then KillOk
  else if z =? 1 then KillEPERM else KillESRCH.

Definition realpath (p : Path) : option Path := Some p.

Definition dateParse (s : string) : JsNumber :=
  if String.eqb s "2026-01-01T00:00:00.000Z" then Num 1767225600000 else NaN.

Definition toISOString (z : Z) : string :=
  if z =? 1767225600000 then "2026-01-01T00:00:00.000Z" else "1970-01-01T00:00:00.000Z".

Definition sessionsDir : Path := ["data"; "sessions"].
Definition sessionA : Path := ["data"; "sessions"; "a.jsonl"].
Definition lockA : Path := ["data"; "sessions"; "a.jsonl.lock"].
Definition lockB : Path := ["data"; "sessions"; "b.jsonl.lock"].

Definition emptyDisk : gmap Path FsNode :=
  <[ ["data"] := Directory ]> (<[ sessionsDir := Directory ]> ∅).

Definition worldOf (disk : gmap Path FsNode) : World :=
  mkWorld disk ∅ 0%nat ∅ false 1767225600000 [].

Definition payload (p : Z) (created : string) : FsNode :=
  RegFile (JsonObject (VNumber (Num p)) (VString created)).

Definition acquire (origin : nat) (sessionFile : Path)
    (opt_timeoutMs : option JsNumber) (w : World) : World * Result :=
  acquireSessionWriteLock 100 kill0 realpath dateParse toISOString
                          1000%nat origin sessionFile opt_timeoutMs None w.

(** The world after this process acquired the lock of [sessionA] once. *)
Definition heldOnce : World := fst (acquire 0%nat sessionA None (worldOf emptyDisk)).

(** A lock file of a live process whose [createdAt] is the empty string. *)
Definition undatedLock : World :=
  worldOf (<[ lockA := payload 4242 EmptyString ]> emptyDisk).

(** A fresh lock file of a live process. *)
Definition contended : World :=
  worldOf (<[ lockA := payload 4242 "2026-01-01T00:00:00.000Z" ]> emptyDisk).

(** One lock file of a dead process and one of a live process. *)
Definition deadAndLive : World :=
  worldOf (<[ lockB := payload 77 "2026-01-01T00:00:00.000Z" ]>
           (<[ lockA := payload 4242 "2026-01-01T00:00:00.000Z" ]> emptyDisk)).

End Scenario.

(** ** The ledger of the queue

    What the counters, the closures and the history of a reachable state
    say about one another. *)

Module QueueLedger.
Import CommandQueue QueueSpec.
Local Open Scope Z_scope.

(** No entry waits while its lane has a free slot: the guard of the pump
    loop is false on every lane. *)
Definition Saturated (s : State) : Prop :=
  forall ln st, lanes s !! ln = Some st ->
    queue st = [] \/ num_lt (Num (active st)) (maxConcurrent st) = false.

(** The closure of [id] holds a slot: the pump started it, and neither
    its completion nor its timer has taken the slot back. *)
Definition holdsSlot (s : State) (id : TaskId) : bool :=
  match launched s !! id with
  | Some r => negb (settled r)
  | None => false
  end.

(** The tasks of lane [ln] that hold a slot, in the order of their
    starts. *)
Definition runningOn (ln : string) (s : State) : list TaskId :=
  List.filter (holdsSlot s) (startedOn ln (effects s)).

(** The caller of [id] has been resolved or rejected. *)
Definition answered (effs : list Effect) (id : TaskId) : bool :=
  match settlements id effs with
  | [] => false
  | _ => true
  end.

(** The tasks enqueued on lane [ln] that were not dropped by
    [clearCommandLane] and whose caller has not been answered. *)
Definition owedOn (ln : string) (effs : list Effect) : list TaskId :=
  List.filter (fun id => negb (answered effs id)) (survivorsOn ln effs).

(** Every push of the history, with its lane. *)
Definition pushedAll (effs : list Effect) : list (string * TaskId) :=
  omap (fun e => match e with
                 | QueuePush ln id => Some (ln, id)
                 | _ => None
                 end) effs.

(** The push [p] was not dropped by [clearCommandLane] and its caller has
    not been answered. *)
Definition owed (effs : list Effect) (p : string * TaskId) : bool :=
  negb (existsb (Nat.eqb (snd p)) (clearedOn (fst p) effs))
  && negb (answered effs (snd p)).

(** The pushes of all lanes that are still owed an answer. *)
Definition owedAll (effs : list Effect) : list (string * TaskId) :=
  List.filter (owed effs) (pushedAll effs).

(** The push [p] went to lane [ln]. *)
Definition onLane (ln : string) (p : string * TaskId) : bool :=
  bool_decide (fst p = ln).

(** A cap that is not below 1. *)
Definition capFloor (cap : JsNumber) : bool :=
  match cap with
  | Num z => 1 <=? z
  | NaN | Infinity => true
  | NegInfinity => false
  end.

(** How many of [waiting] entries fit under the cap of a lane state: all
    of them under an infinite cap, none under a cap that compares false,
    and otherwise as many as there are slots between the counter and the
    cap. *)
Definition fits (st : LaneState) (waiting : nat) : nat :=
  match maxConcurrent st with
  | Num c => Z.to_nat (Z.min (Z.of_nat waiting) (Z.max 0 (c - active st)))
  | Infinity => waiting
  | NaN | NegInfinity => 0%nat
  end.

(** The events that are no [setCommandLaneConcurrency] on lane [ln]. *)
Definition keepsCap (ln : string) (ev : Event) : bool :=
  match ev with
  | SetConcurrency l _ _ => negb (bool_decide (cleanLane l = ln))
  | _ => true
  end.

(** A string that does not start with white space. *)
Definition headOk (s : string) : bool :=
  match s with
  | EmptyString => true
  | String c _ => negb (is_whitespace c)
  end.

(** The bookkeeping of the queue: the closures are the tasks the history
    shows as started, on the lane it shows; the counter of a lane is the
    number of its closures that hold a slot; caps are not below 1; a closure
    has the timeout budget of the environment; a lane that was pushed on is
    registered. *)
Record Ledger (s : State) : Prop := mkLedger {
  lg_started : forall ln id, In id (startedOn ln (effects s)) <->
      exists r, launched s !! id = Some r /\ l_lane r = ln;
  lg_active : forall ln,
      active (getLaneState s ln) = Z.of_nat (length (runningOn ln s));
  lg_cap : forall ln st, lanes s !! ln = Some st ->
      capFloor (maxConcurrent st) = true;
  lg_budget : forall id r, launched s !! id = Some r ->
      LANE_TASK_TIMEOUT_MS r = laneTaskTimeout (OPENCLAW_LANE_TASK_TIMEOUT_MS s);
  lg_registered : forall ln, enqueuedOn ln (effects s) <> [] ->
      is_Some (lanes s !! ln)
}.

End QueueLedger.

(** ** The lock module in use

    A process calls the exported functions and the exit handler in any
    order, while other processes and the passing of time change the disk
    and the clock in between. *)

Module LockProtocol.
Import SessionWriteLock.
Local Open Scope Z_scope.

Inductive LockCall :=
  | CallAcquire (fuel origin : nat) (sessionFile : Path)
                (opt_timeoutMs opt_staleMs : option JsNumber)
  | CallRelease (rel : Release)
  | CallCleanup (directory : Path)
  | CallReleaseAll
  | Outside (disk : gmap Path FsNode) (now : Z).

Section Host.

Variable process_pid : Z.
Variable process_kill0 : Z -> KillResult.
Variable fs_realpath : Path -> option Path.
Variable Date_parse : string -> JsNumber.
Variable Date_toISOString : Z -> string.

(** The world after one call. *)
Definition call (w : World) (c : LockCall) : World :=
  match c with
  | CallAcquire fuel origin sessionFile opt_timeoutMs opt_staleMs =>
      fst (acquireSessionWriteLock process_pid process_kill0 fs_realpath
             Date_parse Date_toISOString fuel origin sessionFile
             opt_timeoutMs opt_staleMs w)
  | CallRelease rel => fst (release rel w)
  | CallCleanup directory =>
      fst (cleanupOrphanedLocks process_kill0 directory w)
  | CallReleaseAll => releaseAllLocksSync w
  | Outside disk now =>
      mkWorld disk (openHandles w) (nextHandle w) (HELD_LOCKS w)
              (cleanupRegistered w) now (fsLog w)
  end.

Definition calls (w : World) (cs : list LockCall) : World :=
  fold_left call cs w.

End Host.

(** The table of held locks and the open handles agree: an entry has a
    positive count, names the lock file of its key and owns an open handle
    that no other entry has; no other handle is open. *)
Record HeldInv (w : World) : Prop := mkHeldInv {
  hi_count : forall key held, HELD_LOCKS w !! key = Some held -> 1 <= count held;
  hi_path : forall key held, HELD_LOCKS w !! key = Some held ->
      lockPath held = withLockSuffix key;
  hi_open : forall h, h ∈ openHandles w <->
      exists key held, HELD_LOCKS w !! key = Some held /\ handle held = h;
  hi_own : forall k1 k2 h1 h2,
      HELD_LOCKS w !! k1 = Some h1 -> HELD_LOCKS w !! k2 = Some h2 ->
      handle h1 = handle h2 -> k1 = k2;
  hi_next : forall h, h ∈ openHandles w -> (h < nextHandle w)%nat
}.

(** Two worlds with the same table and the same handles. *)
Definition sameTable (w w' : World) : Prop :=
  HELD_LOCKS w' = HELD_LOCKS w /\ openHandles w' = openHandles w
  /\ nextHandle w' = nextHandle w.

(** [w'] is [w] with one more lock: [key], held once through a new
    handle. *)
Definition tableWith (key lockPath : Path) (w w' : World) : Prop :=
  HELD_LOCKS w' = <[key := mkHeldLock 1 (nextHandle w) lockPath]> (HELD_LOCKS w)
  /\ openHandles w' = openHandles w ∪ {[nextHandle w]}
  /\ nextHandle w' = S (nextHandle w).

End LockProtocol.

(** ** Proofs *)

Import CommandQueue QueueSpec SessionWriteLock LockSpec Scenario.
Local Open Scope Z_scope.

(** ** The model on small inputs *)

Example cleanLane_values :
  cleanLane "   " = "main"%string /\ cleanLane " cron " = "cron"%string
  /\ cleanLane EmptyString = CommandLane_Main.
Proof. repeat split. Qed.

Example laneTaskTimeout_values :
  laneTaskTimeout None = Num 300000
  /\ laneTaskTimeout (Some "7000"%string) = Num 7000
  /\ laneTaskTimeout (Some "12"%string) = Num 5000
  /\ laneTaskTimeout (Some "-3"%string) = Num 300000
  /\ laneTaskTimeout (Some "soon"%string) = Num 300000
  /\ laneTaskTimeout (Some EmptyString) = Num 300000.
Proof. repeat split. Qed.

Example setConcurrency_values :
  maxConcurrent (getLaneState (setCommandLaneConcurrency "x" (Num 0) 0 (init None)) "x")
  = Num 1
  /\ maxConcurrent (getLaneState (setCommandLaneConcurrency "x" (Num 4) 0 (init None)) "x")
     = Num 4
  /\ maxConcurrent (getLaneState (setCommandLaneConcurrency "x" NaN 0 (init None)) "x")
     = NaN.
Proof. split; [| split]; vm_compute; reflexivity. Qed.

(** Lane "x" with the default cap: A, B and C are enqueued in that order;
    the size reads 3 and goes down to 0 as they complete, and the callers
    are answered in the order A, B, C. *)
Example serial_lane_scenario :
  let s3 := run (init None) [Enqueue "x" None false 0; Enqueue "x" None false 0;
                             Enqueue "x" None false 0] in
  let sA := step s3 (TaskSettles 0%nat (Fulfilled "A") 50) in
  let sB := step sA (TaskSettles 1%nat (Fulfilled "B") 60) in
  let sC := step sB (TaskSettles 2%nat (Fulfilled "C") 60) in
  getQueueSize "x" s3 = 3 /\ startedOn "x" (effects s3) = [0%nat]
  /\ getQueueSize "x" sA = 2 /\ getQueueSize "x" sB = 1
  /\ getQueueSize "x" sC = 0 /\ getTotalQueueSize sC = 0
  /\ omap (fun e => match e with Settle id st => Some (id, st) | _ => None end)
          (effects sC)
     = [(0%nat, Resolve "A"); (1%nat, Resolve "B"); (2%nat, Resolve "C")].
Proof. repeat (split; [vm_compute; reflexivity |]). vm_compute. reflexivity. Qed.

Example lock_path_values :
  withLockSuffix sessionA = lockA /\ stripLockSuffix lockA = sessionA
  /\ path_dirname sessionA = sessionsDir
  /\ path_text lockA = "/data/sessions/a.jsonl.lock"%string.
Proof. repeat split. Qed.

Example isAlive_values :
  isAlive kill0 (Num 4242) = true /\ isAlive kill0 (Num 1) = true
  /\ isAlive kill0 (Num 77) = false /\ isAlive kill0 (Num 0) = false
  /\ isAlive kill0 (Num (-5)) = false /\ isAlive kill0 NaN = false.
Proof. repeat split. Qed.

(** Acquiring on an empty disk writes the lock file; releasing deletes
    it. *)
Example acquire_then_release :
  snd (acquire 0%nat sessionA None (worldOf emptyDisk))
  = Ok (mkRelease sessionA 0%nat)
  /\ files heldOnce !! lockA
     = Some (RegFile (JsonObject (VNumber (Num 100))
                                 (VString "2026-01-01T00:00:00.000Z")))
  /\ files (fst (release (mkRelease sessionA 0%nat) heldOnce)) !! lockA = None
  /\ HELD_LOCKS (fst (release (mkRelease sessionA 0%nat) heldOnce)) !! sessionA = None.
Proof. repeat (split; [vm_compute; reflexivity |]). vm_compute. reflexivity. Qed.

(** A lock file of a dead process is reclaimed whatever its age, and one
    older than [staleMs] is reclaimed although its process is alive. *)
Example reclaim_values :
  snd (acquire 0%nat sessionA None
         (worldOf (<[ lockA := payload 77 "2026-01-01T00:00:00.000Z" ]> emptyDisk)))
  = Ok (mkRelease sessionA 0%nat)
  /\ snd (attemptOnce 100 kill0 dateParse toISOString sessionA lockA
                      (Num 1800000) 1
                      (sleep 1800001 contended)) = RetryNow
  /\ snd (attemptOnce 100 kill0 dateParse toISOString sessionA lockA
                      (Num 1800000) 1
                      (sleep 1800000 contended)) = RetryAfter 50.
Proof. repeat (split; [vm_compute; reflexivity |]). vm_compute. reflexivity. Qed.

(** ** Strings *)

Lemma append_cons (c : ascii) (a b : string) :
  (String c a ++ b)%string = String c (a ++ b).
Proof. reflexivity. Qed.

Lemma append_assoc (a b c : string) :
  ((a ++ b) ++ c)%string = (a ++ (b ++ c))%string.
Proof.
  induction a as [|ch a IH]; [reflexivity |].
  rewrite !append_cons. now rewrite IH.
Qed.

Lemma append_nil_r (a : string) : (a ++ EmptyString)%string = a.
Proof.
  induction a as [|ch a IH]; [reflexivity |].
  rewrite append_cons. now rewrite IH.
Qed.

Lemma prefix_occurs (sub s : string) :
  String.prefix sub s = true <-> exists post, s = (sub ++ post)%string.
Proof.
  revert s. induction sub as [|c sub IH]; intros s.
  - split; [intros _; now exists s | destruct s; reflexivity].
  - destruct s as [|d s].
    + split; [discriminate | intros [post H]; discriminate].
    + change (String.prefix (String c sub) (String d s))
        with (if ascii_dec c d then String.prefix sub s else false).
      destruct (ascii_dec c d) as [->|Hne].
      * rewrite IH. split.
        -- intros [post ->]. now exists post.
        -- intros [post H]. rewrite append_cons in H. injection H as ->.
           now exists post.
      * split; [discriminate |].
        intros [post H]. rewrite append_cons in H. injection H as H1 _.
        congruence.
Qed.

Lemma includes_occurs (s sub : string) :
  includes s sub = true <-> occurs sub s.
Proof.
  induction s as [|c s IH].
  - cbn [includes]. rewrite orb_false_r, prefix_occurs. split.
    + intros [post H]. exists EmptyString, post. exact H.
    + intros [pre [post H]]. destruct pre as [|d pre].
      * now exists post.
      * rewrite append_cons in H. discriminate.
  - cbn [includes]. rewrite orb_true_iff, prefix_occurs, IH. split.
    + intros [[post H] | [pre [post H]]].
      * exists EmptyString, post. exact H.
      * exists (String c pre), post. rewrite append_cons. now rewrite H.
    + intros [pre [post H]]. destruct pre as [|d pre].
      * left. now exists post.
      * right. rewrite append_cons in H. injection H as _ H.
        now exists pre, post.
Qed.

Lemma occurs_here (sub post : string) : occurs sub (sub ++ post).
Proof. exists EmptyString, post. reflexivity. Qed.

Lemma occurs_append_r (sub pre s : string) : occurs sub s -> occurs sub (pre ++ s).
Proof.
  intros [a [b ->]]. exists (pre ++ a)%string, b.
  symmetry. apply append_assoc.
Qed.

Lemma occurs_cons (sub : string) (c : ascii) (s : string) :
  occurs sub s -> occurs sub (String c s).
Proof. intros [a [b ->]]. now exists (String c a), b. Qed.

Lemma occurs_end (sub pre : string) : occurs sub (pre ++ sub).
Proof. exists pre, EmptyString. now rewrite append_nil_r. Qed.

Create HintDb occurs.
#[local] Hint Resolve occurs_here occurs_append_r occurs_cons occurs_end : occurs.

(** ** The lane queue *)

Section Observers.

Lemma settlements_app id (a b : list Effect) :
  settlements id (a ++ b) = settlements id a ++ settlements id b.
Proof. apply omap_app. Qed.

Lemma enqueuedOn_app ln (a b : list Effect) :
  enqueuedOn ln (a ++ b) = enqueuedOn ln a ++ enqueuedOn ln b.
Proof. apply omap_app. Qed.

Lemma startedOn_app ln (a b : list Effect) :
  startedOn ln (a ++ b) = startedOn ln a ++ startedOn ln b.
Proof. apply omap_app. Qed.

Lemma clearedOn_app ln (a b : list Effect) :
  clearedOn ln (a ++ b) = clearedOn ln a ++ clearedOn ln b.
Proof. unfold clearedOn. now rewrite omap_app, concat_app. Qed.

End Observers.


Lemma silent_settlements id (effs : list Effect) :
  forallb silent effs = true -> settlements id effs = [].
Proof.
  induction effs as [|e effs IH]; [reflexivity |].
  cbn [forallb]. rewrite andb_true_iff. intros [He H].
  change (e :: effs) with ([e] ++ effs). rewrite settlements_app, (IH H).
  destruct e; try discriminate; reflexivity.
Qed.

Lemma silent_enqueuedOn ln (effs : list Effect) :
  forallb silent effs = true -> enqueuedOn ln effs = [].
Proof.
  induction effs as [|e effs IH]; [reflexivity |].
  cbn [forallb]. rewrite andb_true_iff. intros [He H].
  change (e :: effs) with ([e] ++ effs). rewrite enqueuedOn_app, (IH H).
  destruct e; try discriminate; reflexivity.
Qed.

Lemma silent_startedOn ln (effs : list Effect) :
  forallb silent effs = true -> startedOn ln effs = [].
Proof.
  induction effs as [|e effs IH]; [reflexivity |].
  cbn [forallb]. rewrite andb_true_iff. intros [He H].
  change (e :: effs) with ([e] ++ effs). rewrite startedOn_app, (IH H).
  destruct e; try discriminate; reflexivity.
Qed.

Lemma silent_clearedOn ln (effs : list Effect) :
  forallb silent effs = true -> clearedOn ln effs = [].
Proof.
  induction effs as [|e effs IH]; [reflexivity |].
  cbn [forallb]. rewrite andb_true_iff. intros [He H].
  change (e :: effs) with ([e] ++ effs). rewrite clearedOn_app, (IH H).
  destruct e; try discriminate; reflexivity.
Qed.


Lemma num_lt_succ_le (a : Z) (cap : JsNumber) :
  num_lt (Num a) cap = true -> num_le (Num (a + 1)) cap = true.
Proof.
  destruct cap; simpl; try discriminate; try reflexivity.
  intros H. apply Z.ltb_lt in H. apply Z.leb_le. lia.
Qed.

Lemma pumpLoop_spec now env pending :
  forall state, PumpResult now env state pending (pumpLoop now env state pending).
Proof.
  induction pending as [|entry rest IH]; intros state.
  - cbn [pumpLoop]. apply (mkPumpResult _ _ _ _ _ [] []); simpl; auto.
    + unfold set_queue, len. simpl. f_equal. lia.
    + intros ln. now destruct (decide _).
    + unfold len. simpl. rewrite Z.add_0_r. auto.
    + intros e q H. discriminate.
  - cbn [pumpLoop].
    destruct (num_lt (Num (active state)) (maxConcurrent state)) eqn:Hlt.
    + set (state1 := set_active (active state + 1) (set_queue rest state)).
      specialize (IH state1).
      destruct (pumpLoop now env state1 rest) as [[state2 started] effs] eqn:Hloop.
      destruct IH as [st rs Hsplit Hstate Hlaunched Hsettle Hpushed Hcleared
                        Hcalls Hcap Hhead Hfull].
      cbn [fst snd] in *.
      change (lane state1) with (lane state) in *.
      change (active state1) with (active state + 1) in *.
      change (maxConcurrent state1) with (maxConcurrent state) in *.
      change (draining state1) with (draining state) in *.
      assert (Hlen : active state + len (entry :: st) = active state + 1 + len st).
      { unfold len. simpl length. lia. }
      apply (mkPumpResult _ _ _ _ _ (entry :: st) rs); cbn [fst snd].
      * now rewrite Hsplit.
      * rewrite Hstate, Hlen. reflexivity.
      * now rewrite Hlaunched.
      * intros id. rewrite !settlements_app, Hsettle, app_nil_r.
        replace (settlements id _) with (@nil Settlement); [reflexivity |].
        symmetry. destruct (num_ge _ _); [destruct (onWait entry) |];
          apply silent_settlements; reflexivity.
      * intros ln. rewrite !enqueuedOn_app, Hpushed, app_nil_r.
        replace (enqueuedOn ln _) with (@nil TaskId); [reflexivity |].
        symmetry. destruct (num_ge _ _); [destruct (onWait entry) |];
          apply silent_enqueuedOn; reflexivity.
      * intros ln. rewrite !clearedOn_app, Hcleared, app_nil_r.
        replace (clearedOn ln _) with (@nil TaskId); [reflexivity |].
        symmetry. destruct (num_ge _ _); [destruct (onWait entry) |];
          apply silent_clearedOn; reflexivity.
      * intros ln. rewrite !startedOn_app, Hcalls.
        replace (startedOn ln (if num_ge _ _ then _ else _)) with (@nil TaskId).
        2:{ symmetry. destruct (num_ge _ _); [destruct (onWait entry) |];
              apply silent_startedOn; reflexivity. }
        unfold startedOn at 1. cbn [omap list_omap].
        destruct (decide (lane state = ln)); reflexivity.
      * intros _. rewrite Hlen. apply Hcap. unfold withinCap. simpl.
        now apply num_lt_succ_le.
      * intros e q H _. injection H as -> ->. now exists st.
      * rewrite Hlen. exact Hfull.
    + assert (Hz : active state + len [] = active state).
      { unfold len. simpl length. lia. }
      apply (mkPumpResult _ _ _ _ _ [] (entry :: rest)); cbn [fst snd];
        rewrite ?Hz; auto.
      * intros ln. now destruct (decide _).
      * intros e q _ H. congruence.
Qed.

Lemma num_le_pred (a : Z) (cap : JsNumber) :
  num_le (Num a) cap = true -> num_le (Num (a - 1)) cap = true.
Proof.
  destruct cap; simpl; try discriminate; try reflexivity.
  intros H. apply Z.leb_le in H. apply Z.leb_le. lia.
Qed.


Lemma pumpLane_spec now st s : Pumped now st s (pumpLane now st s).
Proof.
  unfold pumpLane, pump.
  pose proof (pumpLoop_spec now (OPENCLAW_LANE_TASK_TIMEOUT_MS s) (queue st) st) as H.
  destruct (pumpLoop now (OPENCLAW_LANE_TASK_TIMEOUT_MS s) st (queue st))
    as [[st1 started] effs].
  destruct H as [es rest Hsplit Hstate Hlaunched Hsettle Hpushed Hcleared
                   Hcalls Hcap Hhead Hfull].
  cbn [fst snd] in *. subst st1 started.
  apply (mkPumped _ _ _ _ es rest effs); cbn; auto.
Qed.

Lemma pumpLane_draining now d st s :
  pumpLane now (set_draining d st) s = pumpLane now st s.
Proof.
  unfold pumpLane, pump.
  assert (H : forall pending state,
             pumpLoop now (OPENCLAW_LANE_TASK_TIMEOUT_MS s) (set_draining d state) pending
             = let '(st1, l, e) :=
                 pumpLoop now (OPENCLAW_LANE_TASK_TIMEOUT_MS s) state pending in
               (set_draining d st1, l, e)).
  { induction pending as [|entry rest IH]; intros state; [reflexivity |].
    cbn [pumpLoop]. cbn [set_draining active maxConcurrent lane].
    destruct (num_lt _ _); [| reflexivity].
    change (set_active (active state + 1) (set_queue rest (set_draining d state)))
      with (set_draining d (set_active (active state + 1) (set_queue rest state))).
    rewrite IH.
    destruct (pumpLoop _ _ (set_active _ _) rest) as [[st1 l] e]. reflexivity. }
  cbn [queue set_draining]. rewrite H.
  destruct (pumpLoop _ _ st (queue st)) as [[st1 l] e]. reflexivity.
Qed.

(** *** The table of started closures *)

Lemma register_lookup_other (started : list Launched) :
  forall (m : gmap TaskId Launched) id,
    (forall r, In r started -> task (l_entry r) <> id) ->
    register started m !! id = m !! id.
Proof.
  induction started as [|r started IH]; intros m id H; [reflexivity |].
  unfold register in *. cbn [foldl]. rewrite IH.
  - apply lookup_insert_ne. apply H. now left.
  - intros r' Hr'. apply H. now right.
Qed.

Lemma register_lookup_inv (started : list Launched) :
  forall (m : gmap TaskId Launched) id r,
    register started m !! id = Some r ->
    (In r started /\ task (l_entry r) = id) \/ m !! id = Some r.
Proof.
  induction started as [|r0 started IH]; intros m id r H; [now right |].
  unfold register in *. cbn [foldl] in H. apply IH in H as [[Hin Heq] | H].
  - left. split; [now right | exact Heq].
  - rewrite lookup_insert in H. case_decide.
    + injection H as <-. left. split; [now left | assumption].
    + now right.
Qed.

(** *** Lane lookups *)

Lemma getLaneState_Some s ln st :
  lanes s !! ln = Some st -> getLaneState s ln = st.
Proof. unfold getLaneState. now intros ->. Qed.

Lemma getLaneState_in s ln e :
  In e (queue (getLaneState s ln)) ->
  exists st, lanes s !! ln = Some st /\ In e (queue st).
Proof.
  unfold getLaneState. destruct (lanes s !! ln) as [st|]; [eauto |].
  intros [].
Qed.

Lemma getLaneState_lane s ln :
  Inv s -> lane (getLaneState s ln) = ln.
Proof.
  intros HI. unfold getLaneState.
  destruct (lanes s !! ln) as [st|] eqn:H; [| reflexivity].
  now apply (inv_lane s HI) in H.
Qed.

Lemma getLaneState_draining s ln :
  Inv s -> draining (getLaneState s ln) = false.
Proof.
  intros HI. unfold getLaneState.
  destruct (lanes s !! ln) as [st|] eqn:H; [| reflexivity].
  now apply (inv_lane s HI) in H.
Qed.

(** *** Steps that keep the shape of the state *)


Lemma sameShape_queuedOn s s' ln :
  sameShape s s' -> queuedOn ln s' = queuedOn ln s.
Proof.
  intros H. unfold queuedOn, getLaneState at 1.
  destruct (lanes s' !! ln) as [st'|] eqn:E.
  - apply (ss_lanes _ _ H) in E as (_ & _ & ->). reflexivity.
  - unfold getLaneState. destruct (lanes s !! ln) as [st|] eqn:E0; [| reflexivity].
    destruct (ss_lanes_mono _ _ H ln) as [x Hx]; [eauto | congruence].
Qed.

Lemma Inv_sameShape s s' : Inv s -> sameShape s s' -> Inv s'.
Proof.
  intros HI H.
  assert (Hlaunched_none : forall id, launched s !! id = None ->
                                      launched s' !! id = None).
  { intros id Hid. pose proof (ss_launched _ _ H id) as Hl. rewrite Hid in Hl.
    destruct (launched s' !! id); [destruct Hl | reflexivity]. }
  assert (Hin : forall ln st' e, lanes s' !! ln = Some st' -> In e (queue st') ->
                exists st, lanes s !! ln = Some st /\ In e (queue st)).
  { intros ln st' e Hl He. apply (ss_lanes _ _ H) in Hl as (_ & _ & Hq).
    rewrite Hq in He. now apply getLaneState_in. }
  constructor.
  - intros ln st' Hl. apply (ss_lanes _ _ H) in Hl. tauto.
  - intros ln st' e Hl He. destruct (Hin _ _ _ Hl He) as (st & Hst & Hest).
    destruct (inv_queue s HI ln st e Hst Hest) as [Hlt Hnone].
    rewrite (ss_next _ _ H). split; [exact Hlt | now apply Hlaunched_none].
  - intros ln st' Hl. apply (ss_lanes _ _ H) in Hl as (_ & _ & ->).
    unfold getLaneState. destruct (lanes s !! ln) as [st|] eqn:E.
    + now apply (inv_nodup s HI ln).
    + constructor.
  - intros ln1 ln2 st1 st2 e1 e2 H1 H2 He1 He2 Heq.
    destruct (Hin _ _ _ H1 He1) as (a & Ha & Hea).
    destruct (Hin _ _ _ H2 He2) as (b & Hb & Heb).
    exact (inv_disj s HI ln1 ln2 a b e1 e2 Ha Hb Hea Heb Heq).
  - intros id r' Hr'. pose proof (ss_launched _ _ H id) as Hl. rewrite Hr' in Hl.
    destruct (launched s !! id) as [r|] eqn:Hr; [| destruct Hl].
    destruct Hl as [He Hln].
    destruct (inv_launched s HI id r Hr) as (Hlt & Ht & Hsome).
    rewrite (ss_next _ _ H), He, Hln. repeat split; auto.
    now apply (ss_lanes_mono _ _ H).
  - intros ln id. rewrite (ss_pushed _ _ H), (ss_next _ _ H).
    apply (inv_pushed s HI).
  - intros ln. rewrite (ss_pushed _ _ H). apply (inv_pushed_nodup s HI).
  - intros ln. rewrite (ss_pushed _ _ H), (ss_started _ _ H),
      (sameShape_queuedOn _ _ _ H). apply (inv_order s HI).
  - intros ln. rewrite (ss_pushed _ _ H), (ss_started _ _ H),
      (ss_cleared _ _ H), (sameShape_queuedOn _ _ _ H). apply (inv_exact s HI).
  - intros ln id. rewrite (ss_cleared _ _ H), (ss_next _ _ H). intros Hc.
    destruct (inv_cleared s HI ln id Hc) as (Hlt & Hnone & Hq).
    repeat split; auto.
    intros ln' st' Hl Hmem. apply in_map_iff in Hmem as (e & Ht & He).
    destruct (Hin _ _ _ Hl He) as (st & Hst & Hest).
    apply (Hq ln' st Hst). apply in_map_iff. now exists e.
  - intros ln. rewrite (ss_pushed _ _ H), (ss_started _ _ H),
      (ss_cleared _ _ H), (sameShape_queuedOn _ _ _ H).
    apply (inv_partition s HI).
Qed.

Lemma sameShape_refl s : Inv s -> sameShape s s.
Proof.
  intros HI. constructor; auto.
  - intros ln st' Hl. destruct (inv_lane s HI ln st' Hl) as [? ?].
    repeat split; auto. now rewrite (getLaneState_Some _ _ _ Hl).
  - intros id. destruct (launched s !! id); auto.
Qed.

Lemma sameShape_trans s1 s2 s3 :
  Inv s1 -> sameShape s1 s2 -> sameShape s2 s3 -> sameShape s1 s3.
Proof.
  intros HI H12 H23. constructor.
  - now rewrite (ss_next _ _ H23), (ss_next _ _ H12).
  - intros ln. now rewrite (ss_pushed _ _ H23), (ss_pushed _ _ H12).
  - intros ln. now rewrite (ss_started _ _ H23), (ss_started _ _ H12).
  - intros ln. now rewrite (ss_cleared _ _ H23), (ss_cleared _ _ H12).
  - intros ln st3 Hl. apply (ss_lanes _ _ H23) in Hl as (Hn & Hd & Hq).
    repeat split; auto. rewrite Hq.
    change (queue (getLaneState s2 ln) = queue (getLaneState s1 ln)).
    pose proof (sameShape_queuedOn _ _ ln H12) as Hqq. unfold queuedOn in Hqq.
    unfold getLaneState at 1. destruct (lanes s2 !! ln) as [st2|] eqn:E.
    + now apply (ss_lanes _ _ H12) in E as (_ & _ & ->).
    + unfold getLaneState. destruct (lanes s1 !! ln) eqn:E1; [| reflexivity].
      destruct (ss_lanes_mono _ _ H12 ln) as [x Hx]; [eauto | congruence].
  - intros ln Hs. apply (ss_lanes_mono _ _ H23), (ss_lanes_mono _ _ H12), Hs.
  - intros id. pose proof (ss_launched _ _ H12 id) as Ha.
    pose proof (ss_launched _ _ H23 id) as Hb.
    destruct (launched s3 !! id), (launched s2 !! id), (launched s1 !! id);
      try tauto.
    destruct Ha as [Ha1 Ha2], Hb as [Hb1 Hb2]. split; congruence.
Qed.

Lemma sameShape_emit s effs :
  Inv s -> forallb silent effs = true -> sameShape s (emit effs s).
Proof.
  intros HI Hs. pose proof (sameShape_refl s HI) as [? ? ? ? ? ? ?].
  constructor; cbn [emit nextTask effects lanes launched]; auto.
  - intros ln. now rewrite enqueuedOn_app, (silent_enqueuedOn _ _ Hs), app_nil_r.
  - intros ln. now rewrite startedOn_app, (silent_startedOn _ _ Hs), app_nil_r.
  - intros ln. now rewrite clearedOn_app, (silent_clearedOn _ _ Hs), app_nil_r.
Qed.

Lemma sameShape_set_lane s st :
  Inv s -> draining st = false -> queue st = queue (getLaneState s (lane st)) ->
  sameShape s (set_lane st s).
Proof.
  intros HI Hd Hq. pose proof (sameShape_refl s HI) as [? ? ? ? Hl Hm ?].
  constructor; cbn [set_lane nextTask effects lanes launched]; auto.
  - intros ln st'. rewrite lookup_insert. case_decide.
    + intros [= <-]. subst ln. auto.
    + apply Hl.
  - intros ln Hs. rewrite lookup_insert. case_decide; eauto.
Qed.

Lemma sameShape_set_launched s id r r' :
  Inv s -> launched s !! id = Some r ->
  l_entry r' = l_entry r -> l_lane r' = l_lane r ->
  sameShape s (set_launched id r' s).
Proof.
  intros HI Hr He Hln. pose proof (sameShape_refl s HI) as [? ? ? ? ? ? Hl].
  constructor; cbn [set_launched nextTask effects lanes launched]; auto.
  intros id'. rewrite lookup_insert. case_decide.
  - subst id'. rewrite Hr. auto.
  - apply Hl.
Qed.

(** *** The pump keeps the invariant *)

Lemma Inv_pumped now st s s' :
  Inv s -> queue st = queue (getLaneState s (lane st)) ->
  Pumped now st s s' -> Inv s'.
Proof.
  intros HI Hq HP.
  destruct HP as [started rest effs Hsplit Hlanes Hlaunched Hnext Henv Heffs
                    Hsettle Hpushed Hcleared Hcalls Hcap Hhead Hfull].
  set (L := lane st) in *.
  set (st' := mkLaneState L rest (active st + len started) (maxConcurrent st) false) in *.
  assert (F1 : forall e, In e (queue st) ->
               exists st0, lanes s !! L = Some st0 /\ In e (queue st0)).
  { intros e He. rewrite Hq in He. now apply getLaneState_in. }
  assert (F2 : NoDup (map task (queue st))).
  { rewrite Hq. unfold getLaneState. destruct (lanes s !! L) as [st0|] eqn:E.
    - now apply (inv_nodup s HI L).
    - constructor. }
  assert (Fqueued : queuedOn L s = map task started ++ map task rest).
  { unfold queuedOn. now rewrite <- Hq, Hsplit, map_app. }
  assert (Fstarted : forall e, In e started -> In e (queue st)).
  { intros e He. rewrite Hsplit. apply in_or_app. now left. }
  assert (Frest : forall e, In e rest -> In e (queue st)).
  { intros e He. rewrite Hsplit. apply in_or_app. now right. }
  assert (F3 : forall e, In e started ->
               (task e < nextTask s)%nat /\ launched s !! task e = None).
  { intros e He. destruct (F1 e (Fstarted e He)) as (st0 & H0 & He0).
    exact (inv_queue s HI L st0 e H0 He0). }
  assert (F4 : forall id, ~ In id (map task started) ->
               launched s' !! id = launched s !! id).
  { intros id Hid. rewrite Hlaunched. apply register_lookup_other.
    intros r Hr Heq. apply Hid. apply in_map_iff in Hr as (e & <- & He).
    apply in_map_iff. exists e. split; [exact Heq | exact He]. }
  assert (F5 : forall ln x, lanes s' !! ln = Some x ->
               (ln = L /\ x = st') \/ (ln <> L /\ lanes s !! ln = Some x)).
  { intros ln x. rewrite Hlanes, lookup_insert. case_decide.
    - intros [= <-]. left. auto.
    - intros Hx. right. auto. }
  assert (F6 : forall ln x e, lanes s' !! ln = Some x -> In e (queue x) ->
               exists st0, lanes s !! ln = Some st0 /\ In e (queue st0)
                           /\ (ln = L -> In e rest)).
  { intros ln x e Hx He. destruct (F5 ln x Hx) as [[-> ->] | [Hne Hold]].
    - cbn [queue st'] in He. destruct (F1 e (Frest e He)) as (st0 & H0 & He0).
      exists st0. auto.
    - exists x. repeat split; auto. intros; contradiction. }
  assert (F7 : forall ln st0 e, lanes s !! ln = Some st0 -> In e (queue st0) ->
               (ln = L -> In e rest) -> ~ In (task e) (map task started)).
  { intros ln st0 e H0 He Hrest Hmem.
    apply in_map_iff in Hmem as (e' & Ht & He').
    destruct (F1 e' (Fstarted e' He')) as (st1 & H1 & He1).
    assert (ln = L) as -> by exact (inv_disj s HI ln L st0 st1 e e' H0 H1 He He1 (eq_sym Ht)).
    specialize (Hrest eq_refl).
    rewrite Hsplit, map_app in F2. apply NoDup_app in F2 as (_ & Hdisj & _).
    apply (Hdisj (task e')).
    - apply list_elem_of_In, in_map_iff. now exists e'.
    - rewrite Ht. apply list_elem_of_In, in_map_iff. now exists e. }
  assert (Fget : forall ln, ln <> L -> getLaneState s' ln = getLaneState s ln).
  { intros ln Hne. unfold getLaneState. rewrite Hlanes, lookup_insert_ne; auto. }
  assert (FgetL : getLaneState s' L = st').
  { unfold getLaneState. now rewrite Hlanes, lookup_insert_eq. }
  constructor.
  - intros ln x Hx. destruct (F5 ln x Hx) as [[-> ->] | [Hne Hold]]; [auto |].
    now apply (inv_lane s HI).
  - intros ln x e Hx He. destruct (F6 ln x e Hx He) as (st0 & H0 & He0 & Hr).
    destruct (inv_queue s HI ln st0 e H0 He0) as [Hlt Hnone].
    rewrite Hnext. split; [exact Hlt |].
    rewrite F4; [exact Hnone |]. exact (F7 ln st0 e H0 He0 Hr).
  - intros ln x Hx. destruct (F5 ln x Hx) as [[-> ->] | [Hne Hold]].
    + cbn [queue st']. rewrite Hsplit, map_app in F2.
      now apply NoDup_app in F2 as (_ & _ & ?).
    + now apply (inv_nodup s HI ln).
  - intros ln1 ln2 x1 x2 e1 e2 H1 H2 He1 He2 Heq.
    destruct (F6 _ _ _ H1 He1) as (a & Ha & Hea & _).
    destruct (F6 _ _ _ H2 He2) as (b & Hb & Heb & _).
    exact (inv_disj s HI ln1 ln2 a b e1 e2 Ha Hb Hea Heb Heq).
  - intros id r Hr. rewrite Hlaunched in Hr.
    apply register_lookup_inv in Hr as [[Hin Heq] | Hold].
    + apply in_map_iff in Hin as (e & <- & He). cbn in Heq. subst id.
      destruct (F3 e He) as [Hlt _]. rewrite Hnext. repeat split; auto.
      cbn [l_lane launch]. rewrite Hlanes, lookup_insert_eq. eauto.
    + destruct (inv_launched s HI id r Hold) as (Hlt & Ht & Hsome).
      rewrite Hnext. repeat split; auto.
      rewrite Hlanes, lookup_insert. case_decide; eauto.
  - intros ln id. rewrite Heffs, enqueuedOn_app, Hpushed, app_nil_r, Hnext.
    apply (inv_pushed s HI).
  - intros ln. rewrite Heffs, enqueuedOn_app, Hpushed, app_nil_r.
    apply (inv_pushed_nodup s HI).
  - intros ln. rewrite Heffs, enqueuedOn_app, Hpushed, app_nil_r,
      startedOn_app, Hcalls.
    pose proof (inv_order s HI ln) as Hold.
    destruct (decide (L = ln)) as [<- | Hne].
    + unfold queuedOn at 1. rewrite FgetL. cbn [queue st'].
      rewrite Fqueued in Hold. now rewrite <- !app_assoc.
    + unfold queuedOn at 1. rewrite Fget by congruence.
      now rewrite app_nil_r.
  - intros ln. rewrite Heffs, enqueuedOn_app, Hpushed, app_nil_r,
      startedOn_app, Hcalls, clearedOn_app, Hcleared, app_nil_r.
    intros Hc. pose proof (inv_exact s HI ln Hc) as Hold.
    destruct (decide (L = ln)) as [<- | Hne].
    + unfold queuedOn at 1. rewrite FgetL. cbn [queue st'].
      rewrite Fqueued in Hold. now rewrite <- !app_assoc.
    + unfold queuedOn at 1. rewrite Fget by congruence.
      now rewrite app_nil_r.
  - intros ln id. rewrite Heffs, clearedOn_app, Hcleared, app_nil_r, Hnext.
    intros Hc. destruct (inv_cleared s HI ln id Hc) as (Hlt & Hnone & Hno).
    assert (Hfresh : forall ln' x, lanes s' !! ln' = Some x ->
                                   ~ In id (map task (queue x))).
    { intros ln' x Hx Hmem. apply in_map_iff in Hmem as (e & Ht & He).
      destruct (F6 _ _ _ Hx He) as (st0 & H0 & He0 & _).
      apply (Hno ln' st0 H0). apply in_map_iff. now exists e. }
    repeat split; auto.
    rewrite F4; [exact Hnone |].
    intros Hmem. apply in_map_iff in Hmem as (e & Ht & He).
    destruct (F1 e (Fstarted e He)) as (st0 & H0 & He0).
    apply (Hno L st0 H0). apply in_map_iff. now exists e.
  - intros ln. rewrite Heffs, enqueuedOn_app, Hpushed, app_nil_r,
      startedOn_app, Hcalls, clearedOn_app, Hcleared, app_nil_r.
    pose proof (inv_partition s HI ln) as Hold.
    destruct (decide (L = ln)) as [<- | Hne].
    + unfold queuedOn at 1. rewrite FgetL. cbn [queue st'].
      rewrite Fqueued in Hold. now rewrite <- !app_assoc in *.
    + unfold queuedOn at 1. rewrite Fget by congruence.
      now rewrite app_nil_r.
Qed.

Lemma Inv_pumpLane now st s :
  Inv s -> queue st = queue (getLaneState s (lane st)) ->
  Inv (pumpLane now st s).
Proof. intros HI Hq. eapply Inv_pumped; eauto using pumpLane_spec. Qed.

Lemma Inv_drainLane now ln s : Inv s -> Inv (drainLane now ln s).
Proof.
  intros HI. unfold drainLane.
  rewrite (getLaneState_draining s ln HI), pumpLane_draining.
  apply Inv_pumpLane; [exact HI |].
  now rewrite (getLaneState_lane s ln HI).
Qed.

(** *** The exported calls keep the invariant *)

Lemma Inv_init env : Inv (init env).
Proof.
  constructor; cbn; try (intros; exfalso; eauto using lookup_empty_Some; fail).
  - intros ln st H. now apply lookup_empty_Some in H.
  - intros ln st e H. now apply lookup_empty_Some in H.
  - intros ln st H. now apply lookup_empty_Some in H.
  - intros ? ? ? ? ? ? H. now apply lookup_empty_Some in H.
  - intros id r H. now apply lookup_empty_Some in H.
  - intros ln. constructor.
  - intros ln. unfold queuedOn, getLaneState. cbn. rewrite lookup_empty.
    constructor.
  - intros ln _. unfold queuedOn, getLaneState. cbn. now rewrite lookup_empty.
  - intros ln. unfold queuedOn, getLaneState. cbn. now rewrite lookup_empty.
Qed.


Lemma enqueue_unfold ln w o now s :
  enqueueCommandInLane ln w o now s
  = (drainLane now (cleanLane ln)
               (pushed (cleanLane ln) (default (Num 2000) w) o now s),
     nextTask s).
Proof. reflexivity. Qed.

Lemma enqueuedOn_push ln ln' id size :
  enqueuedOn ln [QueuePush ln' id; LogLaneEnqueue ln' size]
  = if decide (ln' = ln) then [id] else [].
Proof. unfold enqueuedOn. cbn. now destruct (decide _). Qed.

Lemma Inv_pushed ln w o now s : Inv s -> Inv (pushed ln w o now s).
Proof.
  intros HI. unfold pushed.
  set (state := getLaneState s ln).
  set (entry := mkQueueEntry (nextTask s) now w o).
  set (state1 := set_queue (queue state ++ [entry]) state).
  assert (HL : lane state1 = ln) by apply (getLaneState_lane s ln HI).
  rewrite HL.
  assert (Hold : forall e, In e (queue state) ->
                 exists st0, lanes s !! ln = Some st0 /\ In e (queue st0)).
  { intros e. apply getLaneState_in. }
  assert (Hfresh : launched s !! nextTask s = None).
  { destruct (launched s !! nextTask s) as [r|] eqn:E; [| reflexivity].
    apply (inv_launched s HI) in E as (Hlt & _). lia. }
  assert (F5 : forall l x, <[ln := state1]> (lanes s) !! l = Some x ->
               (l = ln /\ x = state1) \/ (l <> ln /\ lanes s !! l = Some x)).
  { intros l x. rewrite lookup_insert. case_decide.
    - intros [= <-]. left. auto.
    - intros Hx. right. auto. }
  assert (F6 : forall l x e, <[ln := state1]> (lanes s) !! l = Some x ->
               In e (queue x) ->
               (l = ln /\ e = entry)
               \/ exists st0, lanes s !! l = Some st0 /\ In e (queue st0)).
  { intros l x e Hx He. destruct (F5 l x Hx) as [[-> ->] | [Hne Hx0]].
    - cbn [queue state1 set_queue] in He. apply in_app_or in He as [He | [<- | []]].
      + right. now apply Hold.
      + left. auto.
    - right. eauto. }
  assert (Fqueued : forall l,
             queuedOn l (mkState (<[ln := state1]> (lanes s)) (launched s)
                                 (S (nextTask s)) [] None)
             = queuedOn l s ++ (if decide (ln = l) then [nextTask s] else [])).
  { intros l. unfold queuedOn, getLaneState at 1. cbn [lanes].
    rewrite lookup_insert. case_decide.
    - subst l. cbn [queue state1 set_queue]. now rewrite map_app.
    - now rewrite app_nil_r. }
  constructor; cbn [lanes launched nextTask effects].
  - intros l x Hx. destruct (F5 l x Hx) as [[-> ->] | [Hne Hx0]].
    + split; [exact HL | apply (getLaneState_draining s ln HI)].
    + now apply (inv_lane s HI).
  - intros l x e Hx He. destruct (F6 l x e Hx He) as [[-> ->] | (st0 & H0 & He0)].
    + cbn. split; [lia | exact Hfresh].
    + destruct (inv_queue s HI l st0 e H0 He0). split; [lia | assumption].
  - intros l x Hx. destruct (F5 l x Hx) as [[-> ->] | [Hne Hx0]].
    + cbn [queue state1 set_queue]. rewrite map_app. apply NoDup_app.
      repeat split.
      * unfold state, getLaneState. destruct (lanes s !! ln) eqn:E.
        -- now apply (inv_nodup s HI ln).
        -- constructor.
      * intros id Hid Hin. apply list_elem_of_In in Hid.
        apply in_map_iff in Hid as (e & <- & He).
        destruct (Hold e He) as (st0 & H0 & He0).
        destruct (inv_queue s HI ln st0 e H0 He0) as [Hlt _].
        cbn in Hin. apply list_elem_of_In in Hin. destruct Hin as [Heq | []]. lia.
      * cbn. apply NoDup_singleton.
    + now apply (inv_nodup s HI l).
  - intros l1 l2 x1 x2 e1 e2 H1 H2 He1 He2 Heq.
    destruct (F6 _ _ _ H1 He1) as [[-> ->] | (a & Ha & Hea)];
      destruct (F6 _ _ _ H2 He2) as [[-> ->] | (b & Hb & Heb)]; auto.
    + destruct (inv_queue s HI l2 b e2 Hb Heb) as [Hlt _]. cbn in Heq. lia.
    + destruct (inv_queue s HI l1 a e1 Ha Hea) as [Hlt _]. cbn in Heq. lia.
    + exact (inv_disj s HI l1 l2 a b e1 e2 Ha Hb Hea Heb Heq).
  - intros id r Hr. destruct (inv_launched s HI id r Hr) as (Hlt & Ht & Hsome).
    repeat split; [lia | exact Ht |].
    rewrite lookup_insert. case_decide; eauto.
  - intros l id. rewrite enqueuedOn_app, enqueuedOn_push. intros Hin.
    apply in_app_or in Hin as [Hin | Hin].
    + apply (inv_pushed s HI) in Hin. lia.
    + destruct (decide (ln = l)); [destruct Hin as [<- | []]; lia | destruct Hin].
  - intros l. rewrite enqueuedOn_app, enqueuedOn_push. apply NoDup_app.
    repeat split.
    + apply (inv_pushed_nodup s HI).
    + intros id Hid Hin. apply list_elem_of_In, (inv_pushed s HI) in Hid.
      apply list_elem_of_In in Hin.
      destruct (decide (ln = l)); [destruct Hin as [<- | []]; lia | destruct Hin].
    + destruct (decide (ln = l)); [apply NoDup_singleton | constructor].
  - intros l. rewrite enqueuedOn_app, enqueuedOn_push, startedOn_app.
    replace (startedOn l [_; _]) with (@nil nat) by reflexivity.
    rewrite app_nil_r.
    change (queuedOn l _) with
      (queuedOn l (mkState (<[ln := state1]> (lanes s)) (launched s)
                           (S (nextTask s)) [] None)).
    rewrite Fqueued, app_assoc.
    apply sublist_app; [apply (inv_order s HI) | reflexivity].
  - intros l. rewrite enqueuedOn_app, enqueuedOn_push, startedOn_app, clearedOn_app.
    replace (startedOn l [_; _]) with (@nil nat) by reflexivity.
    replace (clearedOn l [_; _]) with (@nil nat) by reflexivity.
    rewrite !app_nil_r. intros Hc.
    change (queuedOn l _) with
      (queuedOn l (mkState (<[ln := state1]> (lanes s)) (launched s)
                           (S (nextTask s)) [] None)).
    rewrite Fqueued, app_assoc. now rewrite (inv_exact s HI l Hc).
  - intros l id. rewrite clearedOn_app.
    replace (clearedOn l [_; _]) with (@nil nat) by reflexivity.
    rewrite app_nil_r. intros Hc.
    destruct (inv_cleared s HI l id Hc) as (Hlt & Hnone & Hno).
    repeat split; [lia | exact Hnone |].
    intros l' x Hx Hmem. apply in_map_iff in Hmem as (e & Ht & He).
    destruct (F6 _ _ _ Hx He) as [[-> ->] | (st0 & H0 & He0)].
    + cbn in Ht. lia.
    + apply (Hno l' st0 H0). apply in_map_iff. now exists e.
  - intros l. rewrite enqueuedOn_app, enqueuedOn_push, startedOn_app, clearedOn_app.
    replace (startedOn l [_; _]) with (@nil nat) by reflexivity.
    replace (clearedOn l [_; _]) with (@nil nat) by reflexivity.
    rewrite !app_nil_r.
    change (queuedOn l _) with
      (queuedOn l (mkState (<[ln := state1]> (lanes s)) (launched s)
                           (S (nextTask s)) [] None)).
    rewrite Fqueued, (inv_partition s HI l), <- !app_assoc.
    do 2 apply Permutation_app_head. apply Permutation_app_comm.
Qed.

Lemma Inv_enqueue ln w o now s :
  Inv s -> Inv (fst (enqueueCommandInLane ln w o now s)).
Proof.
  intros HI. rewrite enqueue_unfold. cbn [fst].
  now apply Inv_drainLane, Inv_pushed.
Qed.

Lemma sameShape_set_maxConcurrent s ln m :
  Inv s -> sameShape s (set_lane (set_maxConcurrent m (getLaneState s ln)) s).
Proof.
  intros HI. apply sameShape_set_lane; auto.
  - apply (getLaneState_draining s ln HI).
  - cbn [lane queue set_maxConcurrent]. now rewrite (getLaneState_lane s ln HI).
Qed.

Lemma Inv_setConcurrency ln n now s :
  Inv s -> Inv (setCommandLaneConcurrency ln n now s).
Proof.
  intros HI. unfold setCommandLaneConcurrency.
  apply Inv_drainLane. eapply Inv_sameShape; [exact HI |].
  apply sameShape_set_maxConcurrent, HI.
Qed.

Lemma clearedOn_clear ln ln' ids :
  clearedOn ln [QueueClear ln' ids] = if decide (ln' = ln) then ids else [].
Proof.
  unfold clearedOn. cbn. destruct (decide _); cbn; [apply app_nil_r | reflexivity].
Qed.

Lemma Inv_clear ln s : Inv s -> Inv (fst (clearCommandLane ln s)).
Proof.
  intros HI. unfold clearCommandLane.
  set (L := cleanLane ln).
  destruct (lanes s !! L) as [state|] eqn:HL; [| exact HI].
  cbn [fst]. destruct (inv_lane s HI L state HL) as [Hname Hdr].
  set (state1 := set_queue [] state).
  assert (F5 : forall l x, lanes (set_lane state1 s) !! l = Some x ->
               (l = L /\ x = state1) \/ (l <> L /\ lanes s !! l = Some x)).
  { intros l x. cbn [set_lane lanes lane state1 set_queue]. rewrite Hname.
    rewrite lookup_insert. case_decide.
    - intros [= <-]. left. auto.
    - intros Hx. right. auto. }
  assert (F6 : forall l x e, lanes (set_lane state1 s) !! l = Some x ->
               In e (queue x) ->
               l <> L /\ lanes s !! l = Some x).
  { intros l x e Hx He. destruct (F5 l x Hx) as [[-> ->] | ?]; [destruct He | auto]. }
  assert (Fq : forall l, queuedOn l (set_lane state1 s)
                         = if decide (L = l) then [] else queuedOn l s).
  { intros l. unfold queuedOn, getLaneState at 1.
    cbn [set_lane lanes lane state1 set_queue]. rewrite Hname, lookup_insert.
    case_decide; reflexivity. }
  constructor; cbn [emit set_lane lanes launched nextTask effects].
  - intros l x Hx. destruct (F5 l x Hx) as [[-> ->] | [Hne Hx0]].
    + auto.
    + now apply (inv_lane s HI).
  - intros l x e Hx He. destruct (F6 l x e Hx He) as [_ Hx0].
    exact (inv_queue s HI l x e Hx0 He).
  - intros l x Hx. destruct (F5 l x Hx) as [[-> ->] | [Hne Hx0]].
    + constructor.
    + now apply (inv_nodup s HI l).
  - intros l1 l2 x1 x2 e1 e2 H1 H2 He1 He2 Heq.
    destruct (F6 _ _ _ H1 He1) as [_ Ha]. destruct (F6 _ _ _ H2 He2) as [_ Hb].
    exact (inv_disj s HI l1 l2 x1 x2 e1 e2 Ha Hb He1 He2 Heq).
  - intros id r Hr. cbn [set_lane launched] in Hr.
    destruct (inv_launched s HI id r Hr) as (Hlt & Ht & Hsome).
    repeat split; auto. cbn [set_lane lanes].
    rewrite lookup_insert. case_decide; eauto.
  - intros l id. rewrite enqueuedOn_app.
    replace (enqueuedOn l [_]) with (@nil nat) by reflexivity.
    rewrite app_nil_r. apply (inv_pushed s HI).
  - intros l. rewrite enqueuedOn_app.
    replace (enqueuedOn l [_]) with (@nil nat) by reflexivity.
    rewrite app_nil_r. apply (inv_pushed_nodup s HI).
  - intros l. rewrite enqueuedOn_app, startedOn_app.
    replace (enqueuedOn l [_]) with (@nil nat) by reflexivity.
    replace (startedOn l [_]) with (@nil nat) by reflexivity.
    rewrite !app_nil_r.
    change (queuedOn l _) with (queuedOn l (set_lane state1 s)). rewrite Fq.
    pose proof (inv_order s HI l) as Hold. case_decide; [| exact Hold].
    etransitivity; [| exact Hold].
    apply sublist_app; [reflexivity | apply sublist_nil_l].
  - intros l. rewrite enqueuedOn_app, startedOn_app, clearedOn_app, clearedOn_clear.
    replace (enqueuedOn l [_]) with (@nil nat) by reflexivity.
    replace (startedOn l [_]) with (@nil nat) by reflexivity.
    rewrite !app_nil_r.
    change (queuedOn l _) with (queuedOn l (set_lane state1 s)). rewrite Fq.
    intros Hc. apply app_eq_nil in Hc as [Hc Hq].
    rewrite (inv_exact s HI l Hc). case_decide; [| reflexivity].
    subst l. unfold queuedOn. rewrite (getLaneState_Some s L state HL).
    now rewrite Hq.
  - intros l id. rewrite clearedOn_app, clearedOn_clear. intros Hc.
    apply in_app_or in Hc as [Hc | Hc].
    + destruct (inv_cleared s HI l id Hc) as (Hlt & Hnone & Hno).
      repeat split; auto.
      intros l' x Hx Hmem. apply in_map_iff in Hmem as (e & Ht & He).
      destruct (F6 _ _ _ Hx He) as [_ Hx0].
      apply (Hno l' x Hx0). apply in_map_iff. now exists e.
    + destruct (decide (L = l)) as [<- |]; [| destruct Hc].
      apply in_map_iff in Hc as (e & <- & He).
      destruct (inv_queue s HI L state e HL He) as [Hlt Hnone].
      repeat split; auto.
      intros l' x Hx Hmem. apply in_map_iff in Hmem as (e' & Ht & He').
      destruct (F6 _ _ _ Hx He') as [Hne Hx0].
      apply Hne. exact (inv_disj s HI l' L x state e' e Hx0 HL He' He Ht).
  - intros l. rewrite enqueuedOn_app, startedOn_app, clearedOn_app, clearedOn_clear.
    replace (enqueuedOn l [_]) with (@nil nat) by reflexivity.
    replace (startedOn l [_]) with (@nil nat) by reflexivity.
    rewrite !app_nil_r.
    change (queuedOn l _) with (queuedOn l (set_lane state1 s)). rewrite Fq.
    rewrite (inv_partition s HI l). case_decide; [| now rewrite app_nil_r].
    subst l. unfold queuedOn. rewrite (getLaneState_Some s L state HL).
    cbn [app]. apply Permutation_app_head, Permutation_app_comm.
Qed.

Lemma sameShape_settle s id x : Inv s -> sameShape s (emit [Settle id x] s).
Proof.
  intros HI. pose proof (sameShape_refl s HI) as [? ? ? ? ? ? ?].
  constructor; cbn [emit nextTask effects lanes launched]; auto.
  - intros ln. now rewrite enqueuedOn_app, app_nil_r.
  - intros ln. now rewrite startedOn_app, app_nil_r.
  - intros ln. now rewrite clearedOn_app, app_nil_r.
Qed.


Lemma sameShape_releasedSlot id r r' logged s :
  Inv s -> launched s !! id = Some r ->
  l_entry r' = l_entry r -> l_lane r' = l_lane r ->
  forallb silent logged = true ->
  sameShape s (releasedSlot id r' logged s).
Proof.
  intros HI Hr He Hl Hs. unfold releasedSlot.
  pose proof (sameShape_set_launched s id r r' HI Hr He Hl) as H1.
  pose proof (Inv_sameShape _ _ HI H1) as HI1.
  set (s1 := set_launched id r' s) in *.
  set (state := getLaneState s (l_lane r')).
  assert (Hstate : getLaneState s1 (l_lane r') = state) by reflexivity.
  assert (H2 : sameShape s1 (set_lane (set_active (active state - 1) state) s1)).
  { apply sameShape_set_lane; auto.
    - cbn [draining set_active]. rewrite <- Hstate.
      apply (getLaneState_draining s1 _ HI1).
    - cbn [queue lane set_active]. rewrite <- Hstate at 2.
      now rewrite (getLaneState_lane s1 _ HI1). }
  pose proof (Inv_sameShape _ _ HI1 H2) as HI2.
  eapply sameShape_trans; [exact HI | exact H1 |].
  eapply sameShape_trans; [exact HI1 | exact H2 |].
  now apply sameShape_emit.
Qed.

Lemma releasedSlot_queue id r' logged s :
  Inv s ->
  let state := getLaneState s (l_lane r') in
  queue (set_active (active state - 1) state)
  = queue (getLaneState (releasedSlot id r' logged s)
                        (lane (set_active (active state - 1) state))).
Proof.
  intros HI state. cbn [lane queue set_active].
  change (releasedSlot id r' logged s)
    with (emit logged (set_lane (set_active (active state - 1) state)
                                (set_launched id r' s))).
  set (st1 := set_active (active state - 1) state).
  assert (H : getLaneState (emit logged (set_lane st1 (set_launched id r' s)))
                           (lane state) = st1).
  { unfold getLaneState. cbn [emit set_lane lanes].
    change (lane st1) with (lane state). now rewrite lookup_insert_eq. }
  now rewrite H.
Qed.

Lemma onTimeout_unfold id now s r :
  launched s !! id = Some r -> timeoutId r = TimerPending -> settled r = false ->
  let r' := set_settled (set_timeoutId TimerFired r) in
  let state := getLaneState s (l_lane r) in
  let state1 := set_active (active state - 1) state in
  onTimeout id now s
  = emit [Settle id (timeoutRejection r)]
         (pumpLane now state1
            (releasedSlot id r'
               [DiagWarn (taskTimeoutWarning (l_lane r) (now - startTime r)
                            (LANE_TASK_TIMEOUT_MS r) (active state1)
                            (len (queue state1)))] s)).
Proof. intros Hr Ht Hs. unfold onTimeout. now rewrite Hr, Ht, Hs. Qed.


Lemma completionLog_silent r o now state1 :
  forallb silent (completionLog r o now state1) = true.
Proof.
  unfold completionLog. destruct o; [reflexivity |].
  now destruct (isProbeLane _).
Qed.

Lemma onTaskSettled_unfold id o now s r :
  Inv s -> launched s !! id = Some r -> awaiting r = true -> settled r = false ->
  let r' := set_timeoutId TimerCleared (set_settled (set_resumed r)) in
  let state := getLaneState s (l_lane r) in
  let state1 := set_active (active state - 1) state in
  onTaskSettled id o now s
  = emit [Settle id (settlementOf o)]
         (pumpLane now state1
            (releasedSlot id r' (completionLog r o now state1) s)).
Proof.
  intros HI Hr Ha Hs. unfold onTaskSettled. rewrite Hr, Ha, Hs.
  destruct (inv_launched s HI id r Hr) as (_ & Hid & _).
  unfold completionLog. rewrite Hid. destruct o; reflexivity.
Qed.

Lemma Inv_onTimeout id now s : Inv s -> Inv (onTimeout id now s).
Proof.
  intros HI. unfold onTimeout.
  destruct (launched s !! id) as [r|] eqn:Hr; [| exact HI].
  destruct (timeoutId r) eqn:Ht; try exact HI.
  destruct (settled r) eqn:Hs.
  - eapply Inv_sameShape; [exact HI |].
    now apply (sameShape_set_launched s id r).
  - fold (timeoutRejection r).
    match goal with
    | |- Inv (emit _ (pumpLane _ _ (emit ?l (set_lane _ (set_launched _ ?r' _))))) =>
        change (emit l (set_lane _ (set_launched id r' s)))
          with (releasedSlot id r' l s);
        assert (HS : sameShape s (releasedSlot id r' l s))
          by (now apply (sameShape_releasedSlot id r));
        pose proof (releasedSlot_queue id r' l s HI) as Hq
    end.
    cbn zeta in Hq.
    eapply Inv_sameShape; [| apply sameShape_settle].
    + apply Inv_pumpLane; [eapply Inv_sameShape; eauto | exact Hq].
    + apply Inv_pumpLane; [eapply Inv_sameShape; eauto | exact Hq].
Qed.

Lemma Inv_onTaskSettled id o now s : Inv s -> Inv (onTaskSettled id o now s).
Proof.
  intros HI. unfold onTaskSettled.
  destruct (launched s !! id) as [r|] eqn:Hr; [| exact HI].
  destruct (awaiting r) eqn:Ha; [| exact HI].
  destruct (settled r) eqn:Hs.
  - eapply Inv_sameShape; [exact HI |].
    now apply (sameShape_set_launched s id r).
  - match goal with
    | |- Inv (emit _ (pumpLane _ _ (emit ?l (set_lane _ (set_launched _ ?r' _))))) =>
        change (emit l (set_lane _ (set_launched id r' s)))
          with (releasedSlot id r' l s);
        assert (HS : sameShape s (releasedSlot id r' l s));
        [ apply (sameShape_releasedSlot id r); auto;
          destruct o; [reflexivity | now destruct (isProbeLane _)]
        | pose proof (releasedSlot_queue id r' l s HI) as Hq ]
    end.
    cbn zeta in Hq.
    eapply Inv_sameShape; [| apply sameShape_settle].
    + apply Inv_pumpLane; [eapply Inv_sameShape; eauto | exact Hq].
    + apply Inv_pumpLane; [eapply Inv_sameShape; eauto | exact Hq].
Qed.

Lemma Inv_step s ev : Inv s -> Inv (step s ev).
Proof.
  intros HI. destruct ev; cbn [step].
  - now apply Inv_enqueue.
  - now apply Inv_setConcurrency.
  - now apply Inv_clear.
  - now apply Inv_onTimeout.
  - now apply Inv_onTaskSettled.
Qed.

Lemma run_app s (a b : list Event) : run s (a ++ b) = run (run s a) b.
Proof. apply fold_left_app. Qed.

(** *** The race between the timer and the task *)

Lemma settle_pumped now st s s' id :
  Inv s -> queue st = queue (getLaneState s (lane st)) -> Pumped now st s s' ->
  settlements id (effects s') = settlements id (effects s)
  /\ (forall r, launched s !! id = Some r -> launched s' !! id = Some r)
  /\ (launched s !! id = None -> settlements id (effects s) = [] ->
      settleSpec (launched s' !! id) (settlements id (effects s'))).
Proof.
  intros HI Hq HP.
  destruct HP as [started rest effs Hsplit Hlanes Hlaunched Hnext Henv Heffs
                    Hsettle Hpushed Hcleared Hcalls Hcap Hhead Hfull].
  assert (Hs : settlements id (effects s') = settlements id (effects s)).
  { now rewrite Heffs, settlements_app, Hsettle, app_nil_r. }
  assert (F3 : forall e, In e started -> launched s !! task e = None).
  { intros e He.
    assert (Hin : In e (queue (getLaneState s (lane st)))).
    { rewrite <- Hq, Hsplit. apply in_or_app. now left. }
    apply getLaneState_in in Hin as (st0 & H0 & He0).
    now destruct (inv_queue s HI _ st0 e H0 He0). }
  split; [exact Hs |]. split.
  - intros r Hr. rewrite Hlaunched, register_lookup_other; [exact Hr |].
    intros r0 Hr0 Heq. apply in_map_iff in Hr0 as (e & <- & He).
    cbn in Heq. subst id. rewrite (F3 e He) in Hr. discriminate.
  - intros Hnone Hnil. rewrite Hs, Hnil.
    destruct (launched s' !! id) as [r'|] eqn:Hr'; [| reflexivity].
    rewrite Hlaunched in Hr'.
    apply register_lookup_inv in Hr' as [[Hin _] | Hold]; [| congruence].
    apply in_map_iff in Hin as (e & <- & He).
    left. repeat split.
Qed.

Lemma SettleInv_pumpLane now st s :
  Inv s -> SettleInv s -> queue st = queue (getLaneState s (lane st)) ->
  SettleInv (pumpLane now st s).
Proof.
  intros HI HS Hq id.
  destruct (settle_pumped now st s _ id HI Hq (pumpLane_spec now st s))
    as (Hs & Hsome & Hnone).
  specialize (HS id). destruct (launched s !! id) as [r|] eqn:Hr.
  - rewrite (Hsome r eq_refl), Hs. exact HS.
  - apply Hnone; [reflexivity | exact HS].
Qed.

Lemma SettleInv_drainLane now ln s :
  Inv s -> SettleInv s -> SettleInv (drainLane now ln s).
Proof.
  intros HI HS. unfold drainLane.
  rewrite (getLaneState_draining s ln HI), pumpLane_draining.
  apply SettleInv_pumpLane; auto.
  now rewrite (getLaneState_lane s ln HI).
Qed.

Lemma SettleInv_init env : SettleInv (init env).
Proof. intros id. cbn. now rewrite lookup_empty. Qed.

Lemma SettleInv_released id r r' logged X now s :
  Inv s -> SettleInv s ->
  launched s !! id = Some r -> settlements id (effects s) = [] ->
  l_entry r' = l_entry r -> l_lane r' = l_lane r ->
  forallb silent logged = true ->
  timedOut r' [X] \/ completed r' [X] ->
  let state := getLaneState s (l_lane r') in
  SettleInv (emit [Settle id X]
               (pumpLane now (set_active (active state - 1) state)
                         (releasedSlot id r' logged s))).
Proof.
  intros HI HS Hr Hnil He Hl Hsil Hdone state id'.
  pose proof (sameShape_releasedSlot id r r' logged s HI Hr He Hl Hsil) as Hshape.
  pose proof (Inv_sameShape _ _ HI Hshape) as HI1.
  set (s1 := releasedSlot id r' logged s) in *.
  pose proof (releasedSlot_queue id r' logged s HI) as Hq. cbn zeta in Hq.
  fold state in Hq. fold s1 in Hq.
  destruct (settle_pumped now _ s1 _ id' HI1 Hq (pumpLane_spec now _ s1))
    as (Hs & Hsome & Hnone).
  set (s2 := pumpLane now (set_active (active state - 1) state) s1) in *.
  assert (Hs1 : settlements id' (effects s1) = settlements id' (effects s)).
  { unfold s1, releasedSlot. cbn [emit effects set_lane set_launched].
    now rewrite settlements_app, (silent_settlements _ _ Hsil), app_nil_r. }
  cbn [emit launched effects]. rewrite settlements_app, Hs, Hs1.
  destruct (decide (id = id')) as [<- | Hne].
  - assert (H1 : launched s1 !! id = Some r').
    { unfold s1, releasedSlot. cbn [emit launched set_lane set_launched].
      apply lookup_insert_eq. }
    rewrite (Hsome r' H1), Hnil.
    unfold settlements. cbn. destruct (decide (id = id)); [| congruence].
    cbn. tauto.
  - assert (H1 : launched s1 !! id' = launched s !! id').
    { unfold s1, releasedSlot. cbn [emit launched set_lane set_launched].
      now apply lookup_insert_ne. }
    replace (settlements id' [Settle id X]) with (@nil Settlement).
    2:{ unfold settlements. cbn. now destruct (decide (id = id')). }
    rewrite app_nil_r. specialize (HS id').
    destruct (launched s !! id') as [r0|] eqn:Hr0.
    + rewrite (Hsome r0 H1). exact HS.
    + rewrite <- Hs1, <- Hs. apply Hnone; [exact H1 |].
      rewrite Hs1. exact HS.
Qed.

Lemma SettleInv_onTimeout id now s :
  Inv s -> SettleInv s -> SettleInv (onTimeout id now s).
Proof.
  intros HI HS.
  destruct (launched s !! id) as [r|] eqn:Hr;
    [| unfold onTimeout; now rewrite Hr].
  destruct (timeoutId r) eqn:Ht;
    try (unfold onTimeout; now rewrite Hr, Ht).
  pose proof (HS id) as Hid. rewrite Hr in Hid.
  destruct Hid as [(Hs & _ & Ha & Hnil) | [(_ & Hf & _) | (_ & Hc & _)]];
    try congruence.
  rewrite (onTimeout_unfold id now s r Hr Ht Hs). cbn zeta.
  apply (SettleInv_released id r (set_settled (set_timeoutId TimerFired r)));
    auto.
  left. repeat split.
Qed.

Lemma SettleInv_onTaskSettled id o now s :
  Inv s -> SettleInv s -> SettleInv (onTaskSettled id o now s).
Proof.
  intros HI HS.
  destruct (launched s !! id) as [r|] eqn:Hr;
    [| unfold onTaskSettled; now rewrite Hr].
  destruct (awaiting r) eqn:Ha;
    [| unfold onTaskSettled; now rewrite Hr, Ha].
  pose proof (HS id) as Hid. rewrite Hr in Hid.
  destruct Hid as [(Hs & Ht & _ & Hnil) | [(Hs & Ht & Hl) | (_ & _ & Hc & _)]];
    try congruence.
  - rewrite (onTaskSettled_unfold id o now s r HI Hr Ha Hs). cbn zeta.
    apply (SettleInv_released id r
             (set_timeoutId TimerCleared (set_settled (set_resumed r))));
      auto using completionLog_silent.
    right. repeat split. now exists o.
  - unfold onTaskSettled. rewrite Hr, Ha, Hs. intros id'.
    cbn [set_launched launched effects]. rewrite lookup_insert. case_decide.
    + subst id'. right. left. repeat split; auto.
    + apply HS.
Qed.

Lemma SettleInv_step s ev : Inv s -> SettleInv s -> SettleInv (step s ev).
Proof.
  intros HI HS. destruct ev; cbn [step].
  - rewrite enqueue_unfold. cbn [fst].
    apply SettleInv_drainLane; [now apply Inv_pushed |].
    intros id. unfold pushed. cbn [launched effects].
    rewrite settlements_app. replace (settlements id [_; _]) with (@nil Settlement)
      by reflexivity.
    rewrite app_nil_r. apply HS.
  - unfold setCommandLaneConcurrency. apply SettleInv_drainLane.
    + eapply Inv_sameShape; [exact HI | apply sameShape_set_maxConcurrent, HI].
    + exact HS.
  - unfold clearCommandLane. destruct (lanes s !! cleanLane ln); [| exact HS].
    intros id. cbn [fst emit set_lane launched effects].
    rewrite settlements_app. replace (settlements id [_]) with (@nil Settlement)
      by reflexivity.
    rewrite app_nil_r. apply HS.
  - now apply SettleInv_onTimeout.
  - now apply SettleInv_onTaskSettled.
Qed.

Lemma reachable_inv env evs :
  Inv (run (init env) evs) /\ SettleInv (run (init env) evs).
Proof.
  assert (H : forall s, Inv s /\ SettleInv s -> Inv (run s evs) /\ SettleInv (run s evs)).
  { induction evs as [|ev evs IH]; intros s [HI HS]; [auto |].
    cbn [run fold_left]. apply IH. split.
    - now apply Inv_step.
    - now apply SettleInv_step. }
  apply H. split; [apply Inv_init | apply SettleInv_init].
Qed.

(** *** The history only grows *)

Lemma effects_pumpLane now st s :
  exists more, effects (pumpLane now st s) = effects s ++ more.
Proof. destruct (pumpLane_spec now st s). eauto. Qed.

Lemma effects_drainLane now ln s :
  exists more, effects (drainLane now ln s) = effects s ++ more.
Proof.
  unfold drainLane. destruct (draining _).
  - exists []. cbn. now rewrite app_nil_r.
  - apply effects_pumpLane.
Qed.

Lemma effects_step s ev : exists more, effects (step s ev) = effects s ++ more.
Proof.
  destruct ev; cbn [step].
  - rewrite enqueue_unfold. cbn [fst].
    destruct (effects_drainLane now (cleanLane ln)
                (pushed (cleanLane ln) (default (Num 2000) opts_warnAfterMs)
                        opts_onWait now s)) as [more ->].
    unfold pushed. cbn [effects]. rewrite <- app_assoc. eauto.
  - unfold setCommandLaneConcurrency.
    match goal with |- context [drainLane ?n ?l ?x] =>
      destruct (effects_drainLane n l x) as [more ->] end.
    cbn. eauto.
  - unfold clearCommandLane. destruct (lanes s !! cleanLane ln).
    + cbn. eauto.
    + exists []. cbn. now rewrite app_nil_r.
  - unfold onTimeout.
    destruct (launched s !! id) as [r|]; [| exists []; now rewrite app_nil_r].
    destruct (timeoutId r); try (exists []; now rewrite app_nil_r).
    destruct (settled r).
    + exists []. cbn. now rewrite app_nil_r.
    + cbn [emit effects].
      match goal with |- context [pumpLane ?n ?st ?x] =>
        destruct (effects_pumpLane n st x) as [more ->] end.
      cbn [emit effects set_lane set_launched]. rewrite <- !app_assoc. eauto.
  - unfold onTaskSettled.
    destruct (launched s !! id) as [r|]; [| exists []; now rewrite app_nil_r].
    destruct (awaiting r); [| exists []; now rewrite app_nil_r].
    destruct (settled r).
    + exists []. cbn. now rewrite app_nil_r.
    + cbn [emit effects].
      match goal with |- context [pumpLane ?n ?st ?x] =>
        destruct (effects_pumpLane n st x) as [more ->] end.
      cbn [emit effects set_lane set_launched]. rewrite <- !app_assoc. eauto.
Qed.

Lemma effects_run evs : forall s, exists more, effects (run s evs) = effects s ++ more.
Proof.
  induction evs as [|ev evs IH]; intros s.
  - exists []. cbn. now rewrite app_nil_r.
  - cbn [run fold_left]. destruct (IH (step s ev)) as [m2 H2].
    destruct (effects_step s ev) as [m1 H1].
    fold (run (step s ev) evs). rewrite H2, H1, <- app_assoc. eauto.
Qed.

(** *** The cap *)

Lemma withinCap_getLaneState s ln :
  CapInv s -> withinCap (getLaneState s ln) = true.
Proof.
  intros HC. unfold getLaneState. destruct (lanes s !! ln) eqn:E.
  - now apply (HC ln).
  - reflexivity.
Qed.

Lemma CapInv_set_lane st s :
  CapInv s -> withinCap st = true -> CapInv (set_lane st s).
Proof.
  intros HC Hst ln x. cbn [set_lane lanes]. rewrite lookup_insert. case_decide.
  - now intros [= <-].
  - apply HC.
Qed.

Lemma CapInv_pumpLane now st s :
  CapInv s -> withinCap st = true -> CapInv (pumpLane now st s).
Proof.
  intros HC Hst. destruct (pumpLane_spec now st s)
    as [started rest effs _ Hlanes _ _ _ _ _ _ _ _ Hcap _ _].
  intros ln x. rewrite Hlanes, lookup_insert. case_decide.
  - intros [= <-]. unfold withinCap. cbn. now apply Hcap.
  - apply HC.
Qed.

Lemma CapInv_drainLane now ln s : CapInv s -> CapInv (drainLane now ln s).
Proof.
  intros HC. unfold drainLane. destruct (draining _).
  - apply CapInv_set_lane; [exact HC | now apply withinCap_getLaneState].
  - apply CapInv_pumpLane; [exact HC |]. now apply withinCap_getLaneState.
Qed.

Lemma CapInv_released now id r' logged s :
  CapInv s ->
  let state := getLaneState s (l_lane r') in
  CapInv (pumpLane now (set_active (active state - 1) state)
                   (releasedSlot id r' logged s)).
Proof.
  intros HC state.
  assert (Hst : withinCap (set_active (active state - 1) state) = true).
  { unfold withinCap. cbn. apply num_le_pred.
    now apply (withinCap_getLaneState s). }
  apply CapInv_pumpLane; [| exact Hst].
  unfold releasedSlot. fold state.
  intros ln x. cbn [emit set_lane set_launched lanes].
  rewrite lookup_insert. case_decide.
  - now intros [= <-].
  - apply HC.
Qed.

Lemma CapInv_step s ev :
  CapInv s -> respectsRunning s ev = true -> CapInv (step s ev).
Proof.
  intros HC Hev. destruct ev; cbn [step].
  - rewrite enqueue_unfold. cbn [fst]. apply CapInv_drainLane.
    unfold pushed. intros l x. cbn [lanes]. rewrite lookup_insert. case_decide.
    + intros [= <-]. unfold withinCap. cbn.
      now apply (withinCap_getLaneState s).
    + apply HC.
  - unfold setCommandLaneConcurrency. apply CapInv_drainLane.
    apply CapInv_set_lane; [exact HC |]. exact Hev.
  - unfold clearCommandLane. destruct (lanes s !! cleanLane ln) eqn:E; [| exact HC].
    cbn [fst]. intros lx x. cbn [emit set_lane lanes]. rewrite lookup_insert.
    case_decide.
    + intros [= <-]. exact (HC (cleanLane ln) _ E).
    + apply HC.
  - unfold onTimeout.
    destruct (launched s !! id) as [r|]; [| exact HC].
    destruct (timeoutId r); try exact HC.
    destruct (settled r); [exact HC |].
    intros lx x. cbn [emit lanes].
    match goal with
    | |- context [pumpLane _ _ (emit ?lg (set_lane _ (set_launched _ ?r' _)))] =>
        exact (CapInv_released now id r' lg s HC lx x)
    end.
  - unfold onTaskSettled.
    destruct (launched s !! id) as [r|]; [| exact HC].
    destruct (awaiting r); [| exact HC].
    destruct (settled r); [exact HC |].
    intros lx x. cbn [emit lanes].
    match goal with
    | |- context [pumpLane _ _ (emit ?lg (set_lane _ (set_launched _ ?r' _)))] =>
        exact (CapInv_released now id r' lg s HC lx x)
    end.
Qed.

Lemma CapInv_run evs :
  forall s, CapInv s -> traceRespectsRunning s evs = true -> CapInv (run s evs).
Proof.
  induction evs as [|ev evs IH]; intros s HC Ht; [exact HC |].
  cbn [traceRespectsRunning] in Ht. apply andb_true_iff in Ht as [Hev Ht].
  cbn [run fold_left]. apply IH; [now apply CapInv_step | exact Ht].
Qed.

Lemma CapInv_init env : CapInv (init env).
Proof. intros ln x H. cbn in H. now apply lookup_empty_Some in H. Qed.

(** *** What taking a slot back does *)

Lemma pumpLane_frame now st s s' :
  lanes s = lanes s' ->
  OPENCLAW_LANE_TASK_TIMEOUT_MS s = OPENCLAW_LANE_TASK_TIMEOUT_MS s' ->
  lanes (pumpLane now st s) = lanes (pumpLane now st s')
  /\ exists effs, effects (pumpLane now st s) = effects s ++ effs
                  /\ effects (pumpLane now st s') = effects s' ++ effs.
Proof.
  intros Hl He. unfold pumpLane. rewrite <- He.
  destruct (pump now (OPENCLAW_LANE_TASK_TIMEOUT_MS s) st) as [[st1 started] effs].
  cbn. split; [congruence | eauto].
Qed.

Lemma released_same_starts id r' r'' logged' logged'' X' X'' now s :
  l_lane r'' = l_lane r' ->
  forallb silent logged' = true -> forallb silent logged'' = true ->
  let state := getLaneState s (l_lane r') in
  let st1 := set_active (active state - 1) state in
  let s' := emit [Settle id X'] (pumpLane now st1 (releasedSlot id r' logged' s)) in
  let s'' := emit [Settle id X''] (pumpLane now st1 (releasedSlot id r'' logged'' s)) in
  lanes s' = lanes s''
  /\ forall ln, startedOn ln (effects s') = startedOn ln (effects s'').
Proof.
  intros Hl Hs' Hs'' state st1 s' s''.
  destruct (pumpLane_frame now st1 (releasedSlot id r' logged' s)
              (releasedSlot id r'' logged'' s))
    as (Hlanes & effs & He' & He'').
  { unfold releasedSlot. cbn [emit set_lane set_launched lanes]. now rewrite Hl. }
  { reflexivity. }
  split; [exact Hlanes |].
  intros ln. unfold s', s''. cbn [emit effects]. rewrite He', He''.
  unfold releasedSlot. cbn [emit effects set_lane set_launched].
  rewrite !startedOn_app, (silent_startedOn _ _ Hs'), (silent_startedOn _ _ Hs'').
  reflexivity.
Qed.

Lemma released_facts id r r' logged X now s :
  Inv s -> launched s !! id = Some r ->
  l_entry r' = l_entry r -> l_lane r' = l_lane r ->
  forallb silent logged = true ->
  let state := getLaneState s (l_lane r') in
  let s' := emit [Settle id X]
                 (pumpLane now (set_active (active state - 1) state)
                           (releasedSlot id r' logged s)) in
  launched s' !! id = Some r'
  /\ settlements id (effects s') = settlements id (effects s) ++ [X]
  /\ exists started rest,
       queue state = started ++ rest
       /\ lanes s' !! l_lane r' =
          Some (mkLaneState (l_lane r') rest (active state - 1 + len started)
                            (maxConcurrent state) false)
       /\ startedOn (l_lane r') (effects s') =
          startedOn (l_lane r') (effects s) ++ map task started
       /\ (forall e q, queue state = e :: q ->
             num_lt (Num (active state - 1)) (maxConcurrent state) = true ->
             exists more, started = e :: more)
       /\ (rest = []
           \/ num_lt (Num (active state - 1 + len started)) (maxConcurrent state)
              = false).
Proof.
  intros HI Hr He Hl Hsil state s'.
  pose proof (sameShape_releasedSlot id r r' logged s HI Hr He Hl Hsil) as Hshape.
  pose proof (Inv_sameShape _ _ HI Hshape) as HI1.
  pose proof (releasedSlot_queue id r' logged s HI) as Hq. cbn zeta in Hq.
  fold state in Hq.
  set (s1 := releasedSlot id r' logged s) in *.
  set (st1 := set_active (active state - 1) state) in *.
  destruct (settle_pumped now st1 s1 _ id HI1 Hq (pumpLane_spec now st1 s1))
    as (Hs & Hsome & _).
  assert (H1 : launched s1 !! id = Some r').
  { unfold s1, releasedSlot. cbn [emit launched set_lane set_launched].
    apply lookup_insert_eq. }
  assert (Hs1 : settlements id (effects s1) = settlements id (effects s)).
  { unfold s1, releasedSlot. cbn [emit effects set_lane set_launched].
    now rewrite settlements_app, (silent_settlements _ _ Hsil), app_nil_r. }
  assert (Hst1 : startedOn (l_lane r') (effects s1) = startedOn (l_lane r') (effects s)).
  { unfold s1, releasedSlot. cbn [emit effects set_lane set_launched].
    now rewrite startedOn_app, (silent_startedOn _ _ Hsil), app_nil_r. }
  assert (Hname : lane st1 = l_lane r') by apply (getLaneState_lane s _ HI).
  split; [| split].
  - unfold s'. cbn [emit launched]. now apply Hsome.
  - unfold s'. cbn [emit effects]. rewrite settlements_app, Hs, Hs1.
    f_equal. unfold settlements. cbn. now destruct (decide (id = id)).
  - destruct (pumpLane_spec now st1 s1)
      as [started rest effs Hsplit Hlanes _ _ _ Heffs _ _ _ Hcalls _ Hhead Hfull].
    exists started, rest. cbn [queue st1 set_active] in Hsplit.
    split; [exact Hsplit |]. split; [| split; [| split]].
    + unfold s'. cbn [emit lanes]. rewrite Hlanes, Hname.
      rewrite lookup_insert_eq. reflexivity.
    + unfold s'. cbn [emit effects].
      rewrite startedOn_app, Heffs, startedOn_app, Hcalls, Hst1, Hname.
      destruct (decide (l_lane r' = l_lane r')); [| congruence].
      cbn. now rewrite app_nil_r.
    + exact Hhead.
    + exact Hfull.
Qed.

Lemma num_le_pred_lt (a : Z) (cap : JsNumber) :
  num_le (Num a) cap = true -> num_lt (Num (a - 1)) cap = true.
Proof.
  destruct cap; simpl; try discriminate; try reflexivity.
  intros H. apply Z.leb_le in H. apply Z.ltb_lt. lia.
Qed.

Lemma traceRespectsRunning_app evs more :
  forall s, traceRespectsRunning s (evs ++ more) = true ->
            traceRespectsRunning s evs = true.
Proof.
  induction evs as [|ev evs IH]; intros s H; [reflexivity |].
  cbn [app traceRespectsRunning] in *. apply andb_true_iff in H as [H1 H2].
  rewrite H1. cbn. now apply IH.
Qed.

(** *** First in, first out *)


Lemma existsb_eqb_In (x : nat) (l : list nat) :
  existsb (Nat.eqb x) l = true <-> In x l.
Proof.
  rewrite existsb_exists. split.
  - intros (y & Hy & Heq). apply Nat.eqb_eq in Heq. now subst.
  - intros H. exists x. split; [exact H | apply Nat.eqb_refl].
Qed.

Lemma sublist_determined (P : nat -> bool) (l enq : list nat) :
  NoDup enq -> sublist l enq ->
  (forall y, In y enq -> (In y l <-> P y = true)) ->
  l = List.filter P enq.
Proof.
  intros Hnd Hsub. induction Hsub as [| x l1 l2 Hsub IH | x l1 l2 Hsub IH];
    intros HP.
  - reflexivity.
  - apply NoDup_cons in Hnd as [Hx Hnd]. cbn [List.filter].
    assert (Hpx : P x = true) by (apply HP; now left).
    rewrite Hpx. f_equal. apply IH; [exact Hnd |].
    intros y Hy. rewrite <- (HP y) by now right.
    split; [now right |]. intros [-> | H]; [| exact H].
    exfalso. apply Hx. now apply list_elem_of_In.
  - apply NoDup_cons in Hnd as [Hx Hnd]. cbn [List.filter].
    assert (Hnx : ~ In x l1).
    { intros H. apply Hx. apply list_elem_of_In in H.
      eapply elem_of_sublist; eauto. }
    destruct (P x) eqn:Hpx.
    + exfalso. apply Hnx. apply HP; [now left | exact Hpx].
    + apply IH; [exact Hnd |]. intros y Hy. apply HP. now right.
Qed.

Lemma fifo_survivors s ln :
  Inv s ->
  survivorsOn ln (effects s) = startedOn ln (effects s) ++ queuedOn ln s.
Proof.
  intros HI. symmetry. apply sublist_determined.
  - apply (inv_pushed_nodup s HI).
  - apply (inv_order s HI).
  - pose proof (inv_partition s HI ln) as Hp.
    pose proof (inv_pushed_nodup s HI ln) as Hnd.
    rewrite Hp, app_assoc in Hnd. apply NoDup_app in Hnd as (_ & Hdisj & _).
    intros y Hy. rewrite negb_true_iff, <- not_true_iff_false, existsb_eqb_In.
    split.
    + intros Hin Hc. apply (Hdisj y); now apply list_elem_of_In.
    + intros Hnc. apply list_elem_of_In in Hy. rewrite Hp, app_assoc in Hy.
      apply list_elem_of_In, in_app_or in Hy as [H | H]; [exact H | contradiction].
Qed.

(** ** Claims about the lane queue *)










(** C9: a task that was waiting when [clearCommandLane] ran is never
    started and its caller's promise is never settled, whatever happens
    afterwards; the call removes every waiting entry and returns their
    number. *)
Theorem C9_cleared_never_settled env evs ln e more :
  let s := run (init env) evs in
  In e (queue (getLaneState s (cleanLane ln))) ->
  let s' := run (step s (Clear ln)) more in
  settlements (task e) (effects s') = []
  /\ launched s' !! task e = None
  /\ queue (getLaneState (step s (Clear ln)) (cleanLane ln)) = []
  /\ snd (clearCommandLane ln s) = len (queue (getLaneState s (cleanLane ln))).
Proof.
  intros s He s'.
  destruct (reachable_inv env evs) as [HI _]. fold s in HI.
  destruct (reachable_inv env (evs ++ Clear ln :: more)) as [HI' HS'].
  rewrite run_app in HI', HS'. cbn [run fold_left] in HI', HS'.
  fold (run (step (run (init env) evs) (Clear ln)) more) in HI', HS'.
  fold s in HI', HS'. fold s' in HI', HS'.
  apply getLaneState_in in He as (st & Hst & Hest).
  assert (Hc1 : In (task e) (clearedOn (cleanLane ln) (effects (step s (Clear ln))))).
  { cbn [step]. unfold clearCommandLane. rewrite Hst.
    cbn [fst emit effects set_lane]. rewrite clearedOn_app, clearedOn_clear.
    apply in_or_app. right. destruct (decide _); [| congruence].
    apply in_map_iff. now exists e. }
  assert (Hc : In (task e) (clearedOn (cleanLane ln) (effects s'))).
  { destruct (effects_run more (step s (Clear ln))) as [extra Hx].
    unfold s'. rewrite Hx, clearedOn_app. apply in_or_app. now left. }
  destruct (inv_cleared s' HI' _ _ Hc) as (_ & Hnone & _).
  specialize (HS' (task e)). rewrite Hnone in HS'.
  split; [exact HS' |]. split; [exact Hnone |]. split.
  - cbn [step]. unfold clearCommandLane. rewrite Hst. cbn [fst].
    unfold getLaneState. cbn [emit set_lane lanes lane set_queue].
    destruct (inv_lane s HI _ _ Hst) as [-> _].
    rewrite lookup_insert_eq. reflexivity.
  - unfold clearCommandLane. rewrite Hst. cbn [snd].
    now rewrite (getLaneState_Some _ _ _ Hst).
Qed.

Lemma C9_cleared_never_settled_witness :
  let evs := [Enqueue "main" None false 0; Enqueue "main" None false 1] in
  let s := run (init None) evs in
  let s' := run (step s (Clear "main"))
                [TaskSettles 0%nat (Fulfilled "A") 5; TimerFires 1%nat 400000;
                 Enqueue "main" None false 400001] in
  map task (queue (getLaneState s "main")) = [1%nat]
  /\ settlements 1%nat (effects s') = []
  /\ launched s' !! 1%nat = None
  /\ startedOn "main" (effects s') = [0; 2]%nat.
Proof.
  intros evs s s'.
  destruct (C9_cleared_never_settled None evs "main"
              (mkQueueEntry 1%nat 1 (Num 2000) false)
              [TaskSettles 0%nat (Fulfilled "A") 5; TimerFires 1%nat 400000;
               Enqueue "main" None false 400001])
    as (Hnever & Hnone & _).
  { vm_compute. left. reflexivity. }
  split; [vm_compute; reflexivity |].
  split; [exact Hnever |]. split; [exact Hnone |].
  vm_compute. reflexivity.
Defined.



(** ** The session write lock *)

Section LockFacts.

Variable process_pid : Z.
Variable process_kill0 : Z -> KillResult.
Variable fs_realpath : Path -> option Path.
Variable Date_parse : string -> JsNumber.
Variable Date_toISOString : Z -> string.

Lemma isAlive_falsy (p : JsNumber) :
  truthy_num p = false -> isAlive process_kill0 p = false.
Proof.
  destruct p as [z| | |]; cbn; try discriminate; try reflexivity.
  intros H. apply negb_false_iff, Z.eqb_eq in H. subst z. reflexivity.
Qed.

Lemma alive_guard (p : JsNumber) :
  (if truthy_num p then isAlive process_kill0 p else false)
  = isAlive process_kill0 p.
Proof.
  destruct (truthy_num p) eqn:E; [reflexivity |].
  symmetry. now apply isAlive_falsy.
Qed.

(** The decision taken on an existing lock file is [reclaimed]. *)
Lemma attemptOnce_existing key lockPath staleMs attempt w node :
  files w !! lockPath = Some node ->
  attemptOnce process_pid process_kill0 Date_parse Date_toISOString
              key lockPath staleMs attempt w
  = let w2 := logOp (OpReadFile lockPath) (logOp (OpOpenWx lockPath) w) in
    if reclaimed process_kill0 Date_parse w lockPath staleMs then
      let w3 := logOp (OpRm lockPath) w2 in
      match fs_rm lockPath w3 with
      | Some w4 => (w4, RetryNow)
      | None => (w3, Thrown (FsError "ERR_FS_EISDIR" lockPath))
      end
    else (w2, RetryAfter (Z.min 1000 (50 * attempt))).
Proof.
  intros Hnode. unfold attemptOnce, reclaimed, readLockPayload.
  cbn [logOp files clock]. rewrite !Hnode.
  destruct (parsePayload (Some node)) as [p|]; [| reflexivity].
  rewrite alive_guard.
  destruct (truthy_str (createdAt p)); cbn [negb orb isFinite];
    [| reflexivity].
  destruct (isFinite (Date_parse (createdAt p))); cbn [negb orb];
    [| reflexivity].
  rewrite (orb_comm (num_gt _ _)). reflexivity.
Qed.

End LockFacts.


Section LockClaims.

Variable process_pid : Z.
Variable process_kill0 : Z -> KillResult.
Variable fs_realpath : Path -> option Path.
Variable Date_parse : string -> JsNumber.
Variable Date_toISOString : Z -> string.

Local Abbreviation attemptOnce' :=
  (attemptOnce process_pid process_kill0 Date_parse Date_toISOString).
Local Abbreviation acquireLoop' :=
  (acquireLoop process_pid process_kill0 Date_parse Date_toISOString).

(** C4, amended: when exclusive creation fails because the lock file
    exists, the file is deleted and the loop goes round again at once, with
    the clock where it was, if the payload does not parse, or its createdAt
    is empty or not a date, or its process is not alive, or
    [now - createdAt > staleMs]; otherwise the file is left alone and the
    loop sleeps [min(1000, 50 * attemptNumber)] before the next round. *)
Theorem C4_existing_lock_decision key lockPath staleMs timeoutMs startedAt
    attempt origin fuel w body :
  files w !! lockPath = Some (RegFile body) ->
  num_lt (Num (clock w - startedAt)) timeoutMs = true ->
  let w2 := logOp (OpReadFile lockPath) (logOp (OpOpenWx lockPath) w) in
  if reclaimed process_kill0 Date_parse w lockPath staleMs then
    let w' := set_files (delete lockPath (files w)) (logOp (OpRm lockPath) w2) in
    attemptOnce' key lockPath staleMs (attempt + 1) w = (w', RetryNow)
    /\ clock w' = clock w
    /\ acquireLoop' (S fuel) origin key lockPath timeoutMs staleMs startedAt attempt w
       = acquireLoop' fuel origin key lockPath timeoutMs staleMs startedAt
                      (attempt + 1) w'
  else
    let delay := Z.min 1000 (50 * (attempt + 1)) in
    attemptOnce' key lockPath staleMs (attempt + 1) w = (w2, RetryAfter delay)
    /\ files w2 = files w
    /\ clock (sleep delay w2) = clock w + delay
    /\ acquireLoop' (S fuel) origin key lockPath timeoutMs staleMs startedAt attempt w
       = acquireLoop' fuel origin key lockPath timeoutMs staleMs startedAt
                      (attempt + 1) (sleep delay w2).
Proof.
  intros Hfile Htime w2.
  pose proof (attemptOnce_existing process_pid process_kill0 Date_parse
                Date_toISOString key lockPath staleMs (attempt + 1) w _ Hfile) as H.
  cbn zeta in H. unfold w2.
  destruct (reclaimed process_kill0 Date_parse w lockPath staleMs).
  - unfold fs_rm in H. cbn [logOp files] in H. rewrite Hfile in H.
    cbn zeta. split; [exact H |]. split; [reflexivity |].
    cbn [acquireLoop]. rewrite Htime, H. reflexivity.
  - cbn zeta. split; [exact H |]. split; [reflexivity |]. split; [reflexivity |].
    cbn [acquireLoop]. rewrite Htime, H. reflexivity.
Qed.

Lemma foldr_mkdir_lookup (ps : list Path) (m : gmap Path FsNode) (q : Path) :
  ~ In q ps -> foldr (fun p acc => <[p := Directory]> acc) m ps !! q = m !! q.
Proof.
  induction ps as [|p ps IH]; intros Hq; [reflexivity |].
  cbn [foldr]. rewrite lookup_insert_ne.
  - apply IH. intros H. apply Hq. now right.
  - intros ->. apply Hq. now left.
Qed.

Lemma mkdir_keeps_files dir w q :
  existsb (isRegFile w) (ancestors dir) = false ->
  isRegFile w q = true ->
  foldr (fun p acc => <[p := Directory]> acc) (files w) (ancestors dir) !! q
  = files w !! q.
Proof.
  intros Hex Hq. apply foldr_mkdir_lookup. intros Hin.
  assert (existsb (isRegFile w) (ancestors dir) = true); [| congruence].
  apply existsb_exists. now exists q.
Qed.

Lemma release_unfold rel w cur :
  HELD_LOCKS w !! rel_sessionFile rel = Some cur ->
  (1 < count cur ->
   release rel w
   = (set_held (<[rel_sessionFile rel :=
                    mkHeldLock (count cur - 1) (handle cur) (lockPath cur)]>
                  (HELD_LOCKS w)) w, None))
  /\ (count cur <= 1 -> files w !! lockPath cur <> Some Directory ->
      release rel w
      = (mkWorld (delete (lockPath cur) (files w))
                 (openHandles w ∖ {[handle cur]}) (nextHandle w)
                 (delete (rel_sessionFile rel) (HELD_LOCKS w))
                 (cleanupRegistered w) (clock w)
                 (fsLog w ++ [OpClose (handle cur); OpRm (lockPath cur)]),
         None)).
Proof.
  intros Hcur. unfold release. rewrite Hcur. cbn [count handle lockPath]. split.
  - intros Hc. destruct (0 <? count cur - 1) eqn:E; [reflexivity |].
    apply Z.ltb_ge in E. lia.
  - intros Hc Hnd. destruct (0 <? count cur - 1) eqn:E.
    + apply Z.ltb_lt in E. lia.
    + unfold fs_rm. cbn [logOp closeHandle set_held files].
      destruct (files w !! lockPath cur) as [[b|]|] eqn:Ef; try congruence;
        unfold set_files, logOp, closeHandle, set_held; cbn;
        now rewrite <- app_assoc.
Qed.

(** C5, amended: when the process already holds the lock of the canonical
    path, [acquireSessionWriteLock] increments the count and returns a
    release closure without touching the lock file or opening a handle; the
    file system is still accessed, by the [mkdir] and the [realpath] of the
    session directory that canonicalise the path, and by nothing else. A
    release call only decrements the count while it stays positive, and
    closes the handle and deletes the lock file exactly when the count
    reaches zero. *)
Theorem C5_reentrant_acquire fuel origin sessionFile opt_timeoutMs opt_staleMs
    w held :
  let sessionDir := path_dirname sessionFile in
  let key := path_join (default sessionDir (fs_realpath sessionDir))
                       (path_basename sessionFile) in
  existsb (isRegFile w) (ancestors sessionDir) = false ->
  HELD_LOCKS w !! key = Some held ->
  let out := acquireSessionWriteLock process_pid process_kill0 fs_realpath
               Date_parse Date_toISOString fuel origin sessionFile
               opt_timeoutMs opt_staleMs w in
  (snd out = Ok (mkRelease key origin)
   /\ HELD_LOCKS (fst out)
      = <[key := mkHeldLock (count held + 1) (handle held) (lockPath held)]>
          (HELD_LOCKS w)
   /\ fsLog (fst out) = fsLog w ++ [OpMkdir sessionDir; OpRealpath sessionDir]
   /\ (forall p, isRegFile w p = true -> files (fst out) !! p = files w !! p)
   /\ openHandles (fst out) = openHandles w
   /\ nextHandle (fst out) = nextHandle w)
  /\ (forall rel wr cur,
        rel_sessionFile rel = key -> HELD_LOCKS wr !! key = Some cur ->
        (1 < count cur ->
         release rel wr
         = (set_held (<[key := mkHeldLock (count cur - 1) (handle cur)
                                          (lockPath cur)]> (HELD_LOCKS wr)) wr,
            None))
        /\ (count cur <= 1 -> files wr !! lockPath cur <> Some Directory ->
            release rel wr
            = (mkWorld (delete (lockPath cur) (files wr))
                       (openHandles wr ∖ {[handle cur]}) (nextHandle wr)
                       (delete key (HELD_LOCKS wr))
                       (cleanupRegistered wr) (clock wr)
                       (fsLog wr ++ [OpClose (handle cur); OpRm (lockPath cur)]),
               None))).
Proof.
  intros sessionDir key Hmk Hheld out. split.
  - unfold out, acquireSessionWriteLock, canonicalPath, fs_mkdir.
    fold sessionDir.
    change (isRegFile (registerCleanupHandlers w)) with (isRegFile w).
    rewrite Hmk. cbn [logOp set_files registerCleanupHandlers HELD_LOCKS].
    fold key. rewrite Hheld.
    unfold logOp, set_files, set_held, registerCleanupHandlers.
    cbn [fst snd HELD_LOCKS fsLog files openHandles nextHandle].
    repeat split; auto.
    + now rewrite <- app_assoc.
    + intros p Hp. now apply mkdir_keeps_files.
  - intros rel wr cur <- Hcur. now apply release_unfold.
Qed.

Lemma set_held_id w : set_held (HELD_LOCKS w) w = w.
Proof. now destruct w. Qed.

Lemma releaseEach_partial key (rels : list Release) :
  forall w cur,
    HELD_LOCKS w !! key = Some cur ->
    Forall (fun rel => rel_sessionFile rel = key) rels ->
    Z.of_nat (length rels) < count cur ->
    releaseEach rels w
    = set_held (<[key := mkHeldLock (count cur - Z.of_nat (length rels))
                                    (handle cur) (lockPath cur)]>
                  (HELD_LOCKS w)) w.
Proof.
  induction rels as [|rel rels IH]; intros w cur Hcur Hall Hlen.
  - cbn [releaseEach fold_left length]. rewrite Z.sub_0_r.
    destruct cur as [c h l]. cbn. rewrite insert_id by exact Hcur.
    symmetry. apply set_held_id.
  - apply Forall_cons in Hall as [Hrel Hall]. cbn [length] in Hlen.
    unfold releaseEach. cbn [fold_left]. fold (releaseEach rels).
    destruct (release_unfold rel w cur) as [Hstep _]; [now rewrite Hrel |].
    rewrite Hstep by lia. cbn [fst]. rewrite Hrel.
    rewrite (IH _ (mkHeldLock (count cur - 1) (handle cur) (lockPath cur))).
    + cbn [count handle lockPath set_held HELD_LOCKS files openHandles
           nextHandle cleanupRegistered clock fsLog].
      rewrite insert_insert_eq.
      replace (count cur - 1 - Z.of_nat (length rels))
        with (count cur - Z.of_nat (length (rel :: rels)))
        by (cbn [length]; lia).
      reflexivity.
    + cbn [set_held HELD_LOCKS]. apply lookup_insert_eq.
    + exact Hall.
    + cbn [count]. lia.
Qed.

(** C10: every release closure of a path decrements the one count kept
    for that path, whichever acquisition returned it: if the path is held
    with count n, any n release calls on closures of that path, in any mix
    and with repetitions, leave the lock held until the last of them, which
    removes the table entry, closes the handle and deletes the lock file. *)
Theorem C10_shared_count key (rels : list Release) w cur :
  HELD_LOCKS w !! key = Some cur ->
  Forall (fun rel => rel_sessionFile rel = key) rels ->
  count cur = Z.of_nat (length rels) -> rels <> [] ->
  files w !! lockPath cur <> Some Directory ->
  (forall k, (k < length rels)%nat ->
     releaseEach (firstn k rels) w
     = set_held (<[key := mkHeldLock (count cur - Z.of_nat k) (handle cur)
                                     (lockPath cur)]> (HELD_LOCKS w)) w)
  /\ releaseEach rels w
     = mkWorld (delete (lockPath cur) (files w))
               (openHandles w ∖ {[handle cur]}) (nextHandle w)
               (delete key (HELD_LOCKS w))
               (cleanupRegistered w) (clock w)
               (fsLog w ++ [OpClose (handle cur); OpRm (lockPath cur)]).
Proof.
  intros Hcur Hall Hcount Hne Hfile.
  assert (Hpart : forall k, (k < length rels)%nat ->
            releaseEach (firstn k rels) w
            = set_held (<[key := mkHeldLock (count cur - Z.of_nat k) (handle cur)
                                            (lockPath cur)]> (HELD_LOCKS w)) w).
  { intros k Hk.
    assert (Hlen : length (firstn k rels) = k) by (rewrite length_firstn; lia).
    rewrite (releaseEach_partial key (firstn k rels) w cur Hcur).
    - now rewrite Hlen.
    - now apply Forall_take.
    - rewrite Hlen. lia. }
  split; [exact Hpart |].
  destruct (exists_last Hne) as (front & rel & ->).
  rewrite length_app in *. cbn [length] in *.
  unfold releaseEach. rewrite fold_left_app. cbn [fold_left].
  fold (releaseEach front w).
  specialize (Hpart (length front) ltac:(lia)).
  rewrite firstn_app, Nat.sub_diag, firstn_all in Hpart.
  cbn [firstn] in Hpart. rewrite app_nil_r in Hpart. rewrite Hpart.
  destruct (proj1 (Forall_app _ _ _) Hall) as [_ Hlst].
  pose proof (proj1 (Forall_singleton _ _) Hlst) as Hrel. cbn beta in Hrel.
  set (cur1 := mkHeldLock (count cur - Z.of_nat (length front)) (handle cur)
                          (lockPath cur)).
  destruct (release_unfold rel
              (set_held (<[key := cur1]> (HELD_LOCKS w)) w) cur1) as [_ Hlast].
  { rewrite Hrel. cbn [set_held HELD_LOCKS]. apply lookup_insert_eq. }
  assert (Hc1 : count cur1 <= 1) by (cbn [cur1 count]; lia).
  specialize (Hlast Hc1 Hfile). rewrite Hlast.
  cbn [fst set_held files openHandles nextHandle HELD_LOCKS cleanupRegistered
       clock fsLog cur1 handle lockPath]. rewrite Hrel.
  now rewrite delete_insert_eq.
Qed.

End LockClaims.


(** C4, as stated, fails: a lock file that parses, names a live process
    and has an empty createdAt meets none of the three stated conditions,
    yet it is deleted and the loop retries at once instead of waiting. *)
Lemma C4_counterexample :
  files undatedLock !! lockA
  = Some (RegFile (JsonObject (VNumber (Num 4242)) (VString EmptyString)))
  /\ isAlive kill0 (Num 4242) = true
  /\ statedReclaim kill0 dateParse undatedLock lockA (Num 1800000) = false
  /\ snd (attemptOnce 100 kill0 dateParse toISOString sessionA lockA
                      (Num 1800000) 1 undatedLock) = RetryNow
  /\ files (fst (attemptOnce 100 kill0 dateParse toISOString sessionA lockA
                             (Num 1800000) 1 undatedLock)) !! lockA = None.
Proof.
  split; [vm_compute; reflexivity |].
  split; [vm_compute; reflexivity |].
  split; [vm_compute; reflexivity |].
  split; vm_compute; reflexivity.
Qed.

Lemma C4_existing_lock_decision_witness :
  snd (attemptOnce 100 kill0 dateParse toISOString sessionA lockA
                   (Num 1800000) 1 contended) = RetryAfter 50
  /\ snd (attemptOnce 100 kill0 dateParse toISOString sessionA lockA
                      (Num 1800000) 1 undatedLock) = RetryNow.
Proof.
  split.
  - pose proof (C4_existing_lock_decision 100 kill0 dateParse toISOString
                  sessionA lockA (Num 1800000) (Num 10000) (clock contended)
                  0 0%nat 5%nat contended _ eq_refl eq_refl) as H.
    assert (Hr : reclaimed kill0 dateParse contended lockA (Num 1800000) = false)
      by (vm_compute; reflexivity).
    rewrite Hr in H. destruct H as (H & _). exact (f_equal snd H).
  - pose proof (C4_existing_lock_decision 100 kill0 dateParse toISOString
                  sessionA lockA (Num 1800000) (Num 10000) (clock undatedLock)
                  0 0%nat 5%nat undatedLock _ eq_refl eq_refl) as H.
    assert (Hr : reclaimed kill0 dateParse undatedLock lockA (Num 1800000) = true)
      by (vm_compute; reflexivity).
    rewrite Hr in H. destruct H as (H & _). exact (f_equal snd H).
Defined.

(** C5, as stated, fails: acquiring a lock the process already holds
    calls [fs.mkdir] and [fs.realpath] before it looks at the table. *)
Lemma C5_counterexample :
  HELD_LOCKS heldOnce !! sessionA = Some (mkHeldLock 1 0%nat lockA)
  /\ snd (acquire 1%nat sessionA None heldOnce) = Ok (mkRelease sessionA 1%nat)
  /\ fsLog (fst (acquire 1%nat sessionA None heldOnce))
     = fsLog heldOnce ++ [OpMkdir sessionsDir; OpRealpath sessionsDir]
  /\ fsLog (fst (acquire 1%nat sessionA None heldOnce)) <> fsLog heldOnce.
Proof.
  split; [vm_compute; reflexivity |].
  split; [vm_compute; reflexivity |].
  split; [vm_compute; reflexivity |].
  intros H. vm_compute in H. discriminate H.
Qed.

Lemma C5_reentrant_acquire_witness :
  snd (acquire 1%nat sessionA None heldOnce) = Ok (mkRelease sessionA 1%nat)
  /\ HELD_LOCKS (fst (acquire 1%nat sessionA None heldOnce)) !! sessionA
     = Some (mkHeldLock 2 0%nat lockA)
  /\ files (fst (acquire 1%nat sessionA None heldOnce)) !! lockA
     = files heldOnce !! lockA.
Proof.
  destruct (C5_reentrant_acquire 100 kill0 realpath dateParse toISOString
              1000%nat 1%nat sessionA None None heldOnce
              (mkHeldLock 1 0%nat lockA))
    as ((Hok & Hheld & _ & Hfiles & _) & _).
  { vm_compute. reflexivity. }
  { vm_compute. reflexivity. }
  split; [exact Hok |]. split.
  - unfold acquire. rewrite Hheld. apply lookup_insert_eq.
  - apply Hfiles. vm_compute. reflexivity.
Defined.

Lemma C10_shared_count_witness :
  let twice := fst (acquire 1%nat sessionA None heldOnce) in
  let rels := [mkRelease sessionA 1%nat; mkRelease sessionA 1%nat] in
  HELD_LOCKS twice !! sessionA = Some (mkHeldLock 2 0%nat lockA)
  /\ files (releaseEach (firstn 1 rels) twice) !! lockA = files twice !! lockA
  /\ HELD_LOCKS (releaseEach rels twice) !! sessionA = None
  /\ files (releaseEach rels twice) !! lockA = None
  /\ openHandles (releaseEach rels twice) = ∅.
Proof.
  intros twice rels.
  destruct (C10_shared_count sessionA rels twice (mkHeldLock 2 0%nat lockA))
    as (Hpart & Hall).
  { vm_compute. reflexivity. }
  { repeat constructor. }
  { reflexivity. }
  { discriminate. }
  { vm_compute. discriminate. }
  split; [vm_compute; reflexivity |]. split.
  - rewrite (Hpart 1%nat) by (unfold rels; cbn [length]; lia).
    vm_compute. reflexivity.
  - rewrite Hall.
    split; [vm_compute; reflexivity |].
    split; vm_compute; reflexivity.
Defined.

(** *** The orphan sweep *)

Section Readdir.

Variable directory : Path.

Lemma endsWith_lock_nonempty (n : string) :
  endsWith n ".lock" = true -> truthy_str n = true.
Proof. destruct n; [vm_compute; discriminate | reflexivity]. Qed.

Lemma path_join_child (n : string) :
  truthy_str n = true -> path_join directory n = directory ++ [n].
Proof. unfold path_join. now intros ->. Qed.

Lemma child_inj (a b : string) : directory ++ [a] = directory ++ [b] -> a = b.
Proof. intros H. apply app_inv_head in H. now injection H. Qed.

Lemma NoDup_omap_inj {A B} (f : A -> option B) (l : list A) :
  (forall x y z, x ∈ l -> y ∈ l -> f x = Some z -> f y = Some z -> x = y) ->
  NoDup l -> NoDup (omap f l).
Proof.
  intros Hinj Hnd. induction Hnd as [|x l Hx Hnd IH]; [constructor |].
  cbn [omap list_omap]. destruct (f x) as [z|] eqn:Hfx.
  - constructor.
    + intros Hz. apply list_elem_of_omap in Hz as (y & Hy & Hfy).
      assert (x = y) by (eapply Hinj; eauto using list_elem_of_here,
                                       list_elem_of_further).
      subst y. contradiction.
    + apply IH. intros a b c Ha Hb. apply Hinj; now apply list_elem_of_further.
  - apply IH. intros a b c Ha Hb. apply Hinj; now apply list_elem_of_further.
Qed.

Lemma childName_Some (p : Path) (n : string) :
  childName directory p = Some n <-> p = directory ++ [n].
Proof.
  unfold childName. split.
  - destruct p as [|seg p]; [discriminate |].
    destruct (decide _) as [Heq|]; [| discriminate].
    intros H. assert (Hn : n = List.last (seg :: p) EmptyString) by congruence.
    rewrite Hn, <- Heq. now apply app_removelast_last.
  - intros ->. rewrite removelast_last, last_last.
    destruct (decide (directory = directory)); [| congruence].
    destruct directory; reflexivity.
Qed.

Lemma readdir_entries w (entries : list string) :
  fs_readdir directory w = Some entries ->
  NoDup entries
  /\ forall n, In n entries <-> is_Some (files w !! (directory ++ [n])).
Proof.
  unfold fs_readdir. destruct (isDirectory w directory); [| discriminate].
  intros [= <-]. split.
  - apply NoDup_omap_inj; [| apply NoDup_map_to_list].
    intros [p1 x1] [p2 x2] z H1 H2 Hf1 Hf2. cbn in Hf1, Hf2.
    apply childName_Some in Hf1, Hf2. subst p1 p2.
    apply elem_of_map_to_list in H1, H2. congruence.
  - intros n. rewrite <- list_elem_of_In, list_elem_of_omap. split.
    + intros ([p x] & Hin & Hf). cbn in Hf. apply childName_Some in Hf. subst p.
      apply elem_of_map_to_list in Hin. eauto.
    + intros [x Hx]. exists (directory ++ [n], x). split.
      * now apply elem_of_map_to_list.
      * cbn. now apply childName_Some.
Qed.

End Readdir.

Section Sweep.

Variable process_kill0 : Z -> KillResult.
Variable directory : Path.

Local Abbreviation orphan := (orphanName process_kill0 directory).

Lemma isOrphanLock_child w (n : string) :
  endsWith n ".lock" = true ->
  orphan w n
  = bool_decide (HELD_LOCKS w !! stripLockSuffix (directory ++ [n]) = None)
    && match files w !! (directory ++ [n]) with
       | Some (RegFile _) =>
           match parsePayload (files w !! (directory ++ [n])) with
           | None => true
           | Some payload => negb (isAlive process_kill0 (pid payload))
           end
       | _ => false
       end.
Proof.
  intros He. unfold orphanName, isOrphanLock.
  rewrite removelast_last, last_last, He.
  rewrite bool_decide_eq_true_2 by reflexivity.
  destruct directory; reflexivity.
Qed.

Lemma orphan_ext w w' (n : string) :
  HELD_LOCKS w' = HELD_LOCKS w ->
  files w' !! (directory ++ [n]) = files w !! (directory ++ [n]) ->
  orphan w' n = orphan w n.
Proof.
  intros Hh Hf. unfold orphanName, isOrphanLock. rewrite Hh, Hf. reflexivity.
Qed.

Lemma cleanupOne_spec w removed (n : string) node :
  endsWith n ".lock" = true ->
  files w !! (directory ++ [n]) = Some node ->
  let out := cleanupOne process_kill0 directory (w, removed) n in
  HELD_LOCKS (fst out) = HELD_LOCKS w
  /\ files (fst out) = (if orphan w n then delete (directory ++ [n]) (files w)
                        else files w)
  /\ snd out = removed + (if orphan w n then 1 else 0).
Proof.
  intros He Hnode. cbn zeta.
  rewrite (isOrphanLock_child w n He), Hnode.
  unfold cleanupOne.
  rewrite (path_join_child directory n (endsWith_lock_nonempty n He)).
  destruct (HELD_LOCKS w !! stripLockSuffix (directory ++ [n])) as [h|] eqn:Hh.
  - rewrite bool_decide_eq_false_2 by discriminate. cbn.
    repeat split; lia.
  - rewrite bool_decide_eq_true_2 by reflexivity. cbn [andb].
    unfold readLockPayload, fs_rm. cbn [logOp files]. rewrite Hnode.
    destruct node as [body|].
    + destruct (parsePayload (Some (RegFile body))) as [p|].
      * destruct (isAlive process_kill0 (pid p)); cbn; repeat split; lia.
      * cbn. repeat split; lia.
    + cbn. repeat split; lia.
Qed.

Lemma sweep_spec (names : list string) :
  forall w removed,
    NoDup names ->
    (forall n, In n names ->
       endsWith n ".lock" = true /\ is_Some (files w !! (directory ++ [n]))) ->
    let out := fold_left (cleanupOne process_kill0 directory) names (w, removed) in
    HELD_LOCKS (fst out) = HELD_LOCKS w
    /\ (forall n, In n names -> orphan w n = true ->
          files (fst out) !! (directory ++ [n]) = None)
    /\ (forall p, (forall n, In n names -> orphan w n = true ->
                     p <> directory ++ [n]) ->
          files (fst out) !! p = files w !! p)
    /\ snd out = removed + Z.of_nat (length (List.filter (orphan w) names))
    /\ size (files w)
       = (size (files (fst out)) + length (List.filter (orphan w) names))%nat.
Proof.
  induction names as [|n names IH]; intros w removed Hnd Hall.
  - cbn. repeat split; auto; try lia; try (intros n []).
  - apply NoDup_cons in Hnd as [Hn Hnd].
    destruct (Hall n (or_introl eq_refl)) as [He [node Hnode]].
    destruct (cleanupOne_spec w removed n node He Hnode) as (Hh1 & Hf1 & Hr1).
    cbn zeta in Hh1, Hf1, Hr1. cbn [fold_left].
    destruct (cleanupOne process_kill0 directory (w, removed) n) as [w1 r1] eqn:E1.
    cbn [fst snd] in Hh1, Hf1, Hr1.
    assert (Hother : forall m, In m names ->
              files w1 !! (directory ++ [m]) = files w !! (directory ++ [m])).
    { intros m Hm. rewrite Hf1. destruct (orphan w n); [| reflexivity].
      apply lookup_delete_ne. intros Heq. apply child_inj in Heq. subst m.
      apply Hn. now apply list_elem_of_In. }
    assert (Horphan : forall m, In m names -> orphan w1 m = orphan w m).
    { intros m Hm. apply orphan_ext; [exact Hh1 | now apply Hother]. }
    assert (Hfilter : List.filter (orphan w1) names = List.filter (orphan w) names).
    { apply filter_ext_in. exact Horphan. }
    destruct (IH w1 r1 Hnd) as (Hh & Hdel & Hkeep & Hcount & Hsize).
    { intros m Hm. destruct (Hall m (or_intror Hm)) as [Hem Hsome].
      split; [exact Hem |]. now rewrite Hother. }
    cbn zeta in Hh, Hdel, Hkeep, Hcount, Hsize.
    rewrite Hfilter in Hcount, Hsize. cbn zeta.
    split; [congruence |]. split; [| split; [| split]].
    + intros m [<- | Hm] Hom.
      * rewrite Hkeep.
        -- rewrite Hf1, Hom. apply lookup_delete_eq.
        -- intros m Hm _ Heq. apply child_inj in Heq. subst m.
           apply Hn. now apply list_elem_of_In.
      * apply Hdel; [exact Hm |]. now rewrite Horphan.
    + intros p Hp. rewrite Hkeep.
      * rewrite Hf1. destruct (orphan w n) eqn:Hon; [| reflexivity].
        apply lookup_delete_ne. intros Heq. apply (Hp n); auto. now left.
      * intros m Hm Hom. apply Hp; [now right |]. now rewrite <- Horphan.
    + rewrite Hcount, Hr1. cbn [List.filter].
      destruct (orphan w n); cbn [length]; lia.
    + cbn [List.filter]. rewrite Hf1 in Hsize.
      destruct (orphan w n) eqn:Hon; cbn [length].
      * assert (Hd : size (delete (directory ++ [n]) (files w))
                     = Nat.pred (size (files w)))
          by (apply map_size_delete_Some; eauto).
        assert (size (files w) <> 0%nat); [| lia].
        intros Hz. apply map_size_empty_iff in Hz. rewrite Hz in Hnode.
        now rewrite lookup_empty in Hnode.
      * exact Hsize.
Qed.

End Sweep.



(** *** Error texts *)

Lemma occurs_refl (s : string) : occurs s s.
Proof. exists EmptyString, EmptyString. cbn. now rewrite append_nil_r. Qed.

#[local] Hint Resolve occurs_refl : occurs.

Lemma taskTimeoutWarning_names ln durationMs timeoutMs act queued :
  occurs ln (taskTimeoutWarning ln durationMs timeoutMs act queued)
  /\ occurs (pretty durationMs)
            (taskTimeoutWarning ln durationMs timeoutMs act queued)
  /\ occurs (Number_toString timeoutMs)
            (taskTimeoutWarning ln durationMs timeoutMs act queued).
Proof. unfold taskTimeoutWarning. repeat split; eauto 12 with occurs. Qed.

Lemma lockedMessage_names timeoutMs payload lockPath :
  occurs (Number_toString timeoutMs) (lockedMessage timeoutMs payload lockPath)
  /\ occurs (path_text lockPath) (lockedMessage timeoutMs payload lockPath)
  /\ match payload with
     | Some p =>
         if truthy_num (pid p)
         then occurs ("pid=" ++ Number_toString (pid p))
                     (lockedMessage timeoutMs payload lockPath)
         else occurs "unknown" (lockedMessage timeoutMs payload lockPath)
     | None => occurs "unknown" (lockedMessage timeoutMs payload lockPath)
     end.
Proof.
  unfold lockedMessage. split; [| split].
  - eauto 12 with occurs.
  - eauto 12 with occurs.
  - destruct payload as [p|]; [destruct (truthy_num (pid p)) |];
      eauto 12 with occurs.
Qed.

Lemma acquireLoop_timed_out process_pid process_kill0 Date_parse Date_toISOString
    fuel origin key lockPath timeoutMs staleMs startedAt attempt w :
  num_lt (Num (clock w - startedAt)) timeoutMs = false ->
  acquireLoop process_pid process_kill0 Date_parse Date_toISOString fuel origin
              key lockPath timeoutMs staleMs startedAt attempt w
  = (logOp (OpReadFile lockPath) w,
     Rejected (LockedError (lockedMessage timeoutMs
                              (parsePayload (files w !! lockPath)) lockPath))).
Proof. intros H. destruct fuel; cbn [acquireLoop]; now rewrite H. Qed.

(** C7, as stated, fails for the lane timeout: the rejection handed to the
    caller names the configured timeout only; the lane and the elapsed time
    appear in the warning that is logged, not in the error. *)
Lemma C7_counterexample :
  effects (step (run (init None) [Enqueue "cron" None false 0])
                (TimerFires 0%nat 300007))
  = effects (run (init None) [Enqueue "cron" None false 0])
    ++ [DiagWarn "lane task timeout: lane=cron durationMs=300007 timeoutMs=300000 active=0 queued=0";
        Settle 0%nat (Reject (ErrorObject "Lane task timed out after 300000ms"))]
  /\ ~ occurs "cron" "Lane task timed out after 300000ms"
  /\ ~ occurs "300007" "Lane task timed out after 300000ms".
Proof.
  split; [vm_compute; reflexivity |].
  split; intros H; apply includes_occurs in H; vm_compute in H; discriminate H.
Qed.

(** C7, amended: on a lane timeout the caller is rejected with the error
    "Lane task timed out after <timeout>ms", which names the configured
    timeout, and the warning logged in the same step names the lane, the
    elapsed time and the configured timeout; the error of a lock
    acquisition that ran out of time names the timeout value, the lock file
    path and "pid=<pid>" when the payload gives a pid, "unknown"
    otherwise. *)
Theorem C7_descriptive_errors :
  (forall env evs id r now,
     let s := run (init env) evs in
     launched s !! id = Some r -> timeoutId r = TimerPending ->
     exists warning middle message,
       effects (step s (TimerFires id now))
       = effects s ++ DiagWarn warning :: middle
         ++ [Settle id (Reject (ErrorObject message))]
       /\ occurs (l_lane r) warning
       /\ occurs (pretty (now - startTime r)) warning
       /\ occurs (Number_toString (LANE_TASK_TIMEOUT_MS r)) warning
       /\ message = ("Lane task timed out after "
                     ++ Number_toString (LANE_TASK_TIMEOUT_MS r) ++ "ms")%string
       /\ occurs (Number_toString (LANE_TASK_TIMEOUT_MS r)) message)
  /\ (forall process_pid process_kill0 Date_parse Date_toISOString
             fuel origin key lockPath timeoutMs staleMs startedAt attempt w,
        num_lt (Num (clock w - startedAt)) timeoutMs = false ->
        exists message,
          snd (acquireLoop process_pid process_kill0 Date_parse Date_toISOString
                           fuel origin key lockPath timeoutMs staleMs startedAt
                           attempt w)
          = Rejected (LockedError message)
          /\ occurs (Number_toString timeoutMs) message
          /\ occurs (path_text lockPath) message
          /\ match parsePayload (files w !! lockPath) with
             | Some p =>
                 if truthy_num (pid p)
                 then occurs ("pid=" ++ Number_toString (pid p)) message
                 else occurs "unknown" message
             | None => occurs "unknown" message
             end).
Proof.
  split.
  - intros env evs id r now s Hr Ht.
    destruct (reachable_inv env evs) as [HI HS]. fold s in HI, HS.
    pose proof (HS id) as Hid. rewrite Hr in Hid.
    destruct Hid as [(Hs & _ & Ha & Hnil) | [(_ & Hf & _) | (_ & Hc & _)]];
      try congruence.
    cbn [step]. rewrite (onTimeout_unfold id now s r Hr Ht Hs). cbn zeta.
    match goal with |- context [pumpLane ?n ?st ?x] =>
      destruct (effects_pumpLane n st x) as [middle Hmid] end.
    cbn [emit effects]. rewrite Hmid. unfold releasedSlot.
    cbn [emit effects set_lane set_launched].
    destruct (taskTimeoutWarning_names (l_lane r) (now - startTime r)
                (LANE_TASK_TIMEOUT_MS r)
                (active (getLaneState s (l_lane r)) - 1)
                (len (queue (getLaneState s (l_lane r))))) as (H1 & H2 & H3).
    eexists _, middle, _. split; [| split; [exact H1 | split; [exact H2 |
      split; [exact H3 | split; [reflexivity |]]]]].
    + cbn [l_lane set_settled set_timeoutId active queue set_active].
      rewrite <- !app_assoc. reflexivity.
    + unfold taskTimeoutError. eauto 6 with occurs.
  - intros process_pid process_kill0 Date_parse Date_toISOString fuel origin key
      lockPath timeoutMs staleMs startedAt attempt w Htime.
    rewrite (acquireLoop_timed_out _ _ _ _ _ _ _ _ _ _ _ _ _ Htime). cbn [snd].
    eexists. split; [reflexivity |].
    apply lockedMessage_names.
Qed.

Lemma C7_descriptive_errors_witness :
  (exists middle,
     effects (step (run (init None) [Enqueue "cron" None false 0])
                   (TimerFires 0%nat 300007))
     = effects (run (init None) [Enqueue "cron" None false 0])
       ++ DiagWarn "lane task timeout: lane=cron durationMs=300007 timeoutMs=300000 active=0 queued=0"
          :: middle
       ++ [Settle 0%nat (Reject (ErrorObject "Lane task timed out after 300000ms"))])
  /\ snd (acquire 0%nat sessionA (Some (Num 300)) contended)
     = Rejected (LockedError
         "session file locked (timeout 300ms): pid=4242 /data/sessions/a.jsonl.lock")
  /\ occurs "pid=4242"
       "session file locked (timeout 300ms): pid=4242 /data/sessions/a.jsonl.lock".
Proof.
  destruct C7_descriptive_errors as [Hlane Hlock].
  split; [| split].
  - destruct (Hlane None [Enqueue "cron" None false 0] 0%nat
                (mkLaunched "cron" (mkQueueEntry 0%nat 0 (Num 2000) false) 0
                            (Num 300000) false TimerPending true) 300007)
      as (warning & middle & message & Heff & _ & _ & _ & Hmsg & _).
    { vm_compute. reflexivity. }
    { reflexivity. }
    exists []. vm_compute. reflexivity.
  - vm_compute. reflexivity.
  - destruct (Hlock 100 kill0 dateParse toISOString 0%nat 0%nat sessionA lockA
                (Num 300) (Num 1800000) 0 6 (sleep 300 contended))
      as (message & Hres & _ & _ & Hpid).
    { vm_compute. reflexivity. }
    assert (Hm : message
                 = "session file locked (timeout 300ms): pid=4242 /data/sessions/a.jsonl.lock"%string).
    { vm_compute in Hres. congruence. }
    rewrite Hm in Hpid. vm_compute in Hpid. exact Hpid.
Defined.

(** ** Further properties *)

Import QueueLedger LockProtocol.

(** *** Reversal and suffixes of strings *)

Lemma string_rev_app (a b : string) :
  String.rev_app a b = (String.rev a ++ b)%string.
Proof.
  revert b. induction a as [|c a IH]; intros b; [reflexivity |].
  change (String.rev_app (String c a) b) with (String.rev_app a (String c b)).
  change (String.rev (String c a)) with (String.rev_app a (String c EmptyString)).
  rewrite (IH (String c b)), (IH (String c EmptyString)), append_assoc.
  reflexivity.
Qed.

Lemma string_rev_cons (c : ascii) (a : string) :
  String.rev (String c a) = (String.rev a ++ String c EmptyString)%string.
Proof. apply (string_rev_app a (String c EmptyString)). Qed.

Lemma string_rev_append (a b : string) :
  String.rev (a ++ b) = (String.rev b ++ String.rev a)%string.
Proof.
  induction a as [|c a IH].
  - change (EmptyString ++ b)%string with b. now rewrite append_nil_r.
  - rewrite append_cons, !string_rev_cons, IH. apply append_assoc.
Qed.

Lemma string_rev_involutive (a : string) : String.rev (String.rev a) = a.
Proof.
  induction a as [|c a IH]; [reflexivity |].
  rewrite string_rev_cons, string_rev_append, IH. reflexivity.
Qed.

Lemma endsWith_append (a b : string) : endsWith (a ++ b) b = true.
Proof.
  unfold endsWith. rewrite string_rev_append. apply prefix_occurs. eauto.
Qed.

Lemma string_length_append (a b : string) :
  String.length (a ++ b) = (String.length a + String.length b)%nat.
Proof.
  induction a as [|c a IH]; [reflexivity |].
  rewrite append_cons. cbn [String.length]. now rewrite IH.
Qed.

Lemma substring_prefix (a b : string) :
  substring 0 (String.length a) (a ++ b) = a.
Proof.
  induction a as [|c a IH].
  - cbn. now destruct b.
  - rewrite append_cons. cbn [String.length substring]. now rewrite IH.
Qed.

Lemma stripLockName_suffix (name : string) :
  stripLockName (name ++ ".lock") = name.
Proof.
  unfold stripLockName. rewrite endsWith_append, string_length_append.
  change (String.length ".lock") with 5%nat.
  replace (String.length name + 5 - 5)%nat with (String.length name) by lia.
  apply substring_prefix.
Qed.

(** [stripLockSuffix] is a left inverse of [withLockSuffix]: the sweep
    finds the table key of a lock file the acquisition wrote. *)
Lemma stripLockSuffix_withLockSuffix (p : Path) :
  p <> [] -> stripLockSuffix (withLockSuffix p) = p.
Proof.
  intros Hp. unfold withLockSuffix. destruct p as [|seg p]; [congruence |].
  unfold stripLockSuffix.
  destruct (List.removelast (seg :: p) ++ [(List.last (seg :: p) EmptyString ++ ".lock")%string])
    as [|x l] eqn:E.
  - apply app_eq_nil in E as [_ E]. discriminate.
  - rewrite <- E, removelast_last, last_last, stripLockName_suffix.
    symmetry. now apply app_removelast_last.
Qed.


(** ** Further properties of the lane queue *)


Lemma drainLane_pump now ln s :
  Inv s -> drainLane now ln s = pumpLane now (getLaneState s ln) s.
Proof.
  intros HI. unfold drainLane. rewrite (getLaneState_draining s ln HI).
  apply pumpLane_draining.
Qed.

Lemma startedOn_NoDup s ln : Inv s -> NoDup (startedOn ln (effects s)).
Proof.
  intros HI.
  assert (H : NoDup (startedOn ln (effects s) ++ queuedOn ln s)).
  { eapply sublist_NoDup; [apply (inv_pushed_nodup s HI) | apply (inv_order s HI)]. }
  now apply NoDup_app in H as [H _].
Qed.


Lemma register_lookup_some (l : list Launched) :
  forall (m : gmap TaskId Launched) id,
    In id (map (fun r => task (l_entry r)) l) ->
    exists r, register l m !! id = Some r /\ In r l /\ task (l_entry r) = id.
Proof.
  induction l as [|x l IH]; intros m id Hin; [destruct Hin |].
  change (register (x :: l) m) with (register l (<[task (l_entry x) := x]> m)).
  destruct (in_dec Nat.eq_dec id (map (fun r => task (l_entry r)) l))
    as [Hl | Hnot].
  - destruct (IH (<[task (l_entry x) := x]> m) id Hl) as (r & Hr & Hrin & Hid).
    exists r. split; [exact Hr |]. split; [now right | exact Hid].
  - destruct Hin as [Hx | Hin]; [| contradiction].
    exists x. split; [| split; [now left | exact Hx]].
    rewrite register_lookup_other.
    + rewrite <- Hx. apply lookup_insert_eq.
    + intros r Hr E. apply Hnot. apply in_map_iff. eauto.
Qed.

Lemma register_lookup_new now env ln (started : list QueueEntry) :
  forall (m : gmap TaskId Launched) e,
    NoDup (map task started) -> In e started ->
    register (map (launch now env ln) started) m !! task e
    = Some (launch now env ln e).
Proof.
  intros m e Hnd Hin.
  destruct (register_lookup_some (map (launch now env ln) started) m (task e))
    as (r & Hr & Hrin & Hid).
  { rewrite map_map. cbn. apply in_map_iff. eauto. }
  rewrite Hr. f_equal.
  apply in_map_iff in Hrin as (e' & <- & He'). cbn in Hid.
  f_equal. clear Hr.
  induction started as [|x started IH]; [destruct Hin |].
  cbn [map] in Hnd. apply NoDup_cons in Hnd as [Hx Hnd].
  assert (Hmem : forall y, In y started -> task y ∈ map task started).
  { intros y Hy. apply list_elem_of_In, in_map_iff. eauto. }
  destruct Hin as [<- | Hin], He' as [<- | He']; auto.
  - exfalso. apply Hx. rewrite <- Hid. now apply Hmem.
  - exfalso. apply Hx. rewrite Hid. now apply Hmem.
Qed.

Lemma getLaneState_NoDup s ln :
  Inv s -> NoDup (map task (queue (getLaneState s ln))).
Proof.
  intros HI. unfold getLaneState. destruct (lanes s !! ln) as [st|] eqn:E.
  - apply (inv_nodup s HI ln st E).
  - constructor.
Qed.

Lemma getLaneState_fresh s ln e :
  Inv s -> In e (queue (getLaneState s ln)) -> launched s !! task e = None.
Proof.
  intros HI He. apply getLaneState_in in He as (st & Hst & Hin).
  now destruct (inv_queue s HI ln st e Hst Hin).
Qed.

Lemma filter_keeps_all {A} (f : A -> bool) (l : list A) :
  (forall x, In x l -> f x = true) -> List.filter f l = l.
Proof.
  induction l as [|x l IH]; intros H; [reflexivity |].
  cbn [List.filter]. rewrite (H x (or_introl eq_refl)). f_equal.
  apply IH. intros y Hy. apply H. now right.
Qed.

Lemma len_length (q : list QueueEntry) : len q = Z.of_nat (length q).
Proof. reflexivity. Qed.

(** The pump keeps the ledger. *)
Lemma Ledger_pumpLane now ln s :
  Inv s -> Ledger s -> Ledger (pumpLane now (getLaneState s ln) s).
Proof.
  intros HI HL. set (st := getLaneState s ln).
  destruct (pumpLane_spec now st s)
    as [started rest effs Hsplit Hlanes Hlaunched Hnext Henv Heffs _ Hpushed _
        Hcalls _ _ _].
  set (s' := pumpLane now st s) in *.
  assert (Hlane : lane st = ln) by now apply getLaneState_lane.
  rewrite Hlane in *.
  set (env := OPENCLAW_LANE_TASK_TIMEOUT_MS s) in *.
  assert (Hfresh : forall e, In e started -> launched s !! task e = None).
  { intros e He. apply (getLaneState_fresh s ln e HI). fold st.
    rewrite Hsplit. apply in_app_iff. now left. }
  assert (Hnd : NoDup (map task started)).
  { pose proof (getLaneState_NoDup s ln HI) as H. fold st in H.
    rewrite Hsplit, map_app in H. now apply NoDup_app in H as [H _]. }
  assert (Hold : forall id r, launched s !! id = Some r ->
                              launched s' !! id = Some r).
  { intros id r Hr. rewrite Hlaunched, register_lookup_other; [exact Hr |].
    intros x Hx E. apply in_map_iff in Hx as (e & <- & He). cbn in E.
    rewrite <- E, (Hfresh e He) in Hr. discriminate. }
  assert (Hnew : forall e, In e started ->
                           launched s' !! task e = Some (launch now env ln e)).
  { intros e He. rewrite Hlaunched. now apply register_lookup_new. }
  assert (Hinv : forall id r, launched s' !! id = Some r ->
            launched s !! id = Some r
            \/ exists e, In e started /\ r = launch now env ln e /\ task e = id).
  { intros id r Hr. rewrite Hlaunched in Hr.
    apply register_lookup_inv in Hr as [[Hin Hid] | Hr]; [right | now left].
    apply in_map_iff in Hin as (e & <- & He). eauto. }
  assert (Hslot : forall ln' id, In id (startedOn ln' (effects s)) ->
                                 holdsSlot s' id = holdsSlot s id).
  { intros ln' id Hin. apply (lg_started s HL) in Hin as (r & Hr & _).
    unfold holdsSlot. now rewrite (Hold id r Hr), Hr. }
  constructor.
  - intros ln' id. rewrite Heffs, startedOn_app, in_app_iff, Hcalls,
      (lg_started s HL). split.
    + intros [(r & Hr & Hl) | Hin].
      * exists r. split; [now apply Hold | exact Hl].
      * destruct (decide (ln = ln')) as [<-|]; [| destruct Hin].
        apply in_map_iff in Hin as (e & <- & He).
        exists (launch now env ln e). split; [now apply Hnew | reflexivity].
    + intros (r & Hr & Hl). apply Hinv in Hr as [Hr | (e & He & -> & <-)].
      * left. eauto.
      * right. cbn in Hl. subst ln'. destruct (decide (ln = ln)); [| congruence].
        apply in_map_iff. eauto.
  - intros ln'. unfold runningOn. rewrite Heffs, startedOn_app, List.filter_app,
      length_app, Hcalls.
    rewrite (filter_ext_in _ _ _ (Hslot ln')).
    fold (runningOn ln' s). rewrite Nat2Z.inj_add, <- (lg_active s HL ln').
    unfold getLaneState at 1. rewrite Hlanes, lookup_insert.
    destruct (decide (ln = ln')) as [<-|Hne].
    + cbn [active]. fold st. rewrite filter_keeps_all.
      * now rewrite length_map, len_length.
      * intros id Hin. apply in_map_iff in Hin as (e & <- & He).
        unfold holdsSlot. now rewrite (Hnew e He).
    + cbn [List.filter length]. fold (getLaneState s ln'). lia.
  - intros ln' x. rewrite Hlanes, lookup_insert. case_decide as E.
    + intros [= <-]. cbn [maxConcurrent]. unfold st, getLaneState.
      destruct (lanes s !! ln) as [st0|] eqn:E0; [| reflexivity].
      apply (lg_cap s HL ln st0 E0).
    + apply (lg_cap s HL).
  - intros id r Hr. rewrite Henv. fold env.
    apply Hinv in Hr as [Hr | (e & He & -> & _)]; [| reflexivity].
    apply (lg_budget s HL id r Hr).
  - intros ln' Hne. rewrite Heffs, enqueuedOn_app, Hpushed, app_nil_r in Hne.
    apply (lg_registered s HL) in Hne. rewrite Hlanes, lookup_insert.
    case_decide; [eauto | exact Hne].
Qed.

Lemma capFloor_getLaneState s ln :
  Ledger s -> capFloor (maxConcurrent (getLaneState s ln)) = true.
Proof.
  intros HL. unfold getLaneState. destruct (lanes s !! ln) as [st|] eqn:E.
  - apply (lg_cap s HL ln st E).
  - reflexivity.
Qed.

Lemma getLaneState_insert s s' L st1 ln :
  lanes s' = <[L := st1]> (lanes s) ->
  getLaneState s' ln = if decide (L = ln) then st1 else getLaneState s ln.
Proof.
  intros H. unfold getLaneState. rewrite H, lookup_insert.
  destruct (decide (L = ln)); reflexivity.
Qed.

(** The ledger carries over to a state with the same starts, whose
    closures are on the same lanes with the same budgets, and whose
    counters are right. *)
Lemma Ledger_transport s s' :
  Ledger s ->
  (forall ln, startedOn ln (effects s') = startedOn ln (effects s)) ->
  (forall ln, enqueuedOn ln (effects s') <> [] ->
              enqueuedOn ln (effects s) <> [] \/ is_Some (lanes s' !! ln)) ->
  (forall ln, is_Some (lanes s !! ln) -> is_Some (lanes s' !! ln)) ->
  (forall ln st', lanes s' !! ln = Some st' ->
                  capFloor (maxConcurrent st') = true) ->
  (forall id, match launched s' !! id, launched s !! id with
              | Some r', Some r =>
                  l_lane r' = l_lane r
                  /\ LANE_TASK_TIMEOUT_MS r' = LANE_TASK_TIMEOUT_MS r
              | None, None => True
              | _, _ => False
              end) ->
  OPENCLAW_LANE_TASK_TIMEOUT_MS s' = OPENCLAW_LANE_TASK_TIMEOUT_MS s ->
  (forall ln, active (getLaneState s' ln)
              = Z.of_nat (length (List.filter (holdsSlot s')
                                              (startedOn ln (effects s))))) ->
  Ledger s'.
Proof.
  intros HL Hst Hpush Hmono Hcap Hla Henv Hact. constructor.
  - intros ln id. rewrite Hst, (lg_started s HL). specialize (Hla id). split.
    + intros (r & Hr & Hl). rewrite Hr in Hla.
      destruct (launched s' !! id) as [r'|]; [| destruct Hla].
      exists r'. split; [reflexivity |]. destruct Hla. congruence.
    + intros (r' & Hr' & Hl). rewrite Hr' in Hla.
      destruct (launched s !! id) as [r|]; [| destruct Hla].
      exists r. split; [reflexivity |]. destruct Hla. congruence.
  - intros ln. unfold runningOn. rewrite Hst. apply Hact.
  - exact Hcap.
  - intros id r' Hr'. specialize (Hla id). rewrite Hr' in Hla.
    destruct (launched s !! id) as [r|] eqn:Hr; [| destruct Hla].
    destruct Hla as [_ ->]. rewrite Henv. apply (lg_budget s HL id r Hr).
  - intros ln Hne. apply Hpush in Hne as [Hne | Hs]; [| exact Hs].
    apply Hmono. now apply (lg_registered s HL).
Qed.

Lemma launched_same_refl (m : gmap TaskId Launched) id :
  match m !! id, m !! id with
  | Some r', Some r =>
      l_lane r' = l_lane r /\ LANE_TASK_TIMEOUT_MS r' = LANE_TASK_TIMEOUT_MS r
  | None, None => True
  | _, _ => False
  end.
Proof. destruct (m !! id); auto. Qed.

Lemma Ledger_pushed ln wa o now s :
  Inv s -> Ledger s -> Ledger (pushed ln wa o now s).
Proof.
  intros HI HL.
  assert (Hlanes : lanes (pushed ln wa o now s)
                   = <[ln := set_queue (queue (getLaneState s ln)
                                        ++ [mkQueueEntry (nextTask s) now wa o])
                                       (getLaneState s ln)]> (lanes s)).
  { unfold pushed. cbn [lanes lane set_queue].
    now rewrite (getLaneState_lane s ln HI). }
  apply (Ledger_transport s); try exact HL.
  - intros l. unfold pushed. cbn [effects]. rewrite startedOn_app.
    cbn. apply app_nil_r.
  - intros l Hne. unfold pushed in Hne. cbn [effects] in Hne.
    rewrite enqueuedOn_app, enqueuedOn_push in Hne.
    destruct (decide (ln = l)) as [<-|].
    + right. rewrite Hlanes, lookup_insert_eq. eauto.
    + left. now rewrite app_nil_r in Hne.
  - intros l Hs. rewrite Hlanes, lookup_insert. case_decide; eauto.
  - intros l x. rewrite Hlanes, lookup_insert. case_decide.
    + intros [= <-]. cbn [maxConcurrent set_queue].
      now apply capFloor_getLaneState.
    + apply (lg_cap s HL).
  - intros id. apply launched_same_refl.
  - reflexivity.
  - intros l. rewrite (getLaneState_insert s _ _ _ l Hlanes).
    change (holdsSlot (pushed ln wa o now s)) with (holdsSlot s).
    fold (runningOn l s). rewrite <- (lg_active s HL l).
    destruct (decide (ln = l)) as [<-|]; reflexivity.
Qed.

Lemma filter_flip_length (f g : TaskId -> bool) (x : TaskId) (l : list TaskId) :
  NoDup l -> In x l -> f x = true -> g x = false ->
  (forall y, y <> x -> g y = f y) ->
  S (length (List.filter g l)) = length (List.filter f l).
Proof.
  intros Hnd Hin Hf Hg Hext. induction Hnd as [|y l Hy Hnd IH]; [destruct Hin |].
  cbn [List.filter]. destruct (decide (y = x)) as [->|Hne].
  - rewrite Hf, Hg. cbn [length]. do 2 f_equal. apply filter_ext_in.
    intros z Hz. apply Hext. intros ->. apply Hy. now apply list_elem_of_In.
  - destruct Hin as [-> | Hin]; [congruence |].
    rewrite (Hext y Hne). destruct (f y); cbn [length]; rewrite <- IH; auto.
Qed.

Lemma filter_same_off (f g : TaskId -> bool) (x : TaskId) (l : list TaskId) :
  ~ In x l -> (forall y, y <> x -> g y = f y) ->
  List.filter g l = List.filter f l.
Proof.
  intros Hx Hext. apply filter_ext_in. intros y Hy. apply Hext.
  intros ->. contradiction.
Qed.

Lemma holdsSlot_set_launched s id r' y :
  holdsSlot (set_launched id r' s) y
  = if decide (id = y) then negb (settled r') else holdsSlot s y.
Proof.
  unfold holdsSlot. cbn [set_launched launched]. rewrite lookup_insert.
  destruct (decide (id = y)); reflexivity.
Qed.

(** A closure that gives its slot back. *)
Lemma Ledger_released id r r' logged s :
  Inv s -> Ledger s -> launched s !! id = Some r ->
  settled r = false -> settled r' = true ->
  l_lane r' = l_lane r ->
  LANE_TASK_TIMEOUT_MS r' = LANE_TASK_TIMEOUT_MS r ->
  forallb silent logged = true ->
  Ledger (releasedSlot id r' logged s).
Proof.
  intros HI HL Hr Hs Hs' Hl Ht Hsil.
  set (L := l_lane r') in *.
  assert (Hlanes : lanes (releasedSlot id r' logged s)
                   = <[L := set_active (active (getLaneState s L) - 1)
                                       (getLaneState s L)]> (lanes s)).
  { unfold releasedSlot. fold L. cbn [emit set_lane set_launched lanes lane
                                      set_active].
    now rewrite (getLaneState_lane s L HI). }
  assert (Hslot : forall y,
            holdsSlot (releasedSlot id r' logged s) y
            = if decide (id = y) then false else holdsSlot s y).
  { intros y.
    change (holdsSlot (releasedSlot id r' logged s) y)
      with (holdsSlot (set_launched id r' s) y).
    now rewrite holdsSlot_set_launched, Hs'. }
  assert (Hid : holdsSlot s id = true).
  { unfold holdsSlot. now rewrite Hr, Hs. }
  assert (Hstart : forall l, In id (startedOn l (effects s)) <-> l = L).
  { intros l. rewrite (lg_started s HL). split.
    - intros (x & Hx & <-). rewrite Hr in Hx. injection Hx as <-. now symmetry.
    - intros ->. eauto. }
  apply (Ledger_transport s); try exact HL.
  - intros l. unfold releasedSlot. cbn [emit effects].
    now rewrite startedOn_app, (silent_startedOn l logged Hsil), app_nil_r.
  - intros l Hne. left. unfold releasedSlot in Hne. cbn [emit effects] in Hne.
    now rewrite enqueuedOn_app, (silent_enqueuedOn l logged Hsil), app_nil_r
      in Hne.
  - intros l Hsome. rewrite Hlanes, lookup_insert. case_decide; eauto.
  - intros l x. rewrite Hlanes, lookup_insert. case_decide.
    + intros [= <-]. cbn [maxConcurrent set_active].
      now apply capFloor_getLaneState.
    + apply (lg_cap s HL).
  - intros y. unfold releasedSlot. cbn [emit set_lane set_launched launched].
    rewrite lookup_insert. case_decide as E.
    + subst y. rewrite Hr. auto.
    + apply launched_same_refl.
  - reflexivity.
  - intros l. rewrite (getLaneState_insert s _ _ _ l Hlanes).
    destruct (decide (L = l)) as [<-|Hne].
    + cbn [active set_active]. rewrite (lg_active s HL L). unfold runningOn.
      rewrite <- (filter_flip_length (holdsSlot s)
                    (holdsSlot (releasedSlot id r' logged s)) id
                    (startedOn L (effects s))).
      * lia.
      * now apply startedOn_NoDup.
      * now apply Hstart.
      * exact Hid.
      * rewrite Hslot. now destruct (decide (id = id)).
      * intros y Hy. rewrite Hslot. destruct (decide (id = y)); congruence.
    + rewrite (lg_active s HL l). unfold runningOn. do 2 f_equal.
      symmetry. apply (filter_same_off _ _ id).
      * intros Hin. apply Hstart in Hin. congruence.
      * intros y Hy. rewrite Hslot. destruct (decide (id = y)); congruence.
Qed.

(** A closure that only notes that its timer fired or its task resumed. *)
Lemma Ledger_noted id r r' s :
  Ledger s -> launched s !! id = Some r ->
  settled r' = settled r -> l_lane r' = l_lane r ->
  LANE_TASK_TIMEOUT_MS r' = LANE_TASK_TIMEOUT_MS r ->
  Ledger (set_launched id r' s).
Proof.
  intros HL Hr Hs Hl Ht.
  assert (Hslot : forall y, holdsSlot (set_launched id r' s) y = holdsSlot s y).
  { intros y. rewrite holdsSlot_set_launched. destruct (decide (id = y)) as [<-|];
      [| reflexivity].
    unfold holdsSlot. now rewrite Hr, Hs. }
  apply (Ledger_transport s); try exact HL; try reflexivity; auto.
  - intros l x. apply (lg_cap s HL).
  - intros y. cbn [set_launched launched]. rewrite lookup_insert. case_decide as E.
    + subst y. rewrite Hr. auto.
    + apply launched_same_refl.
  - intros l. rewrite (filter_ext _ _ Hslot). apply (lg_active s HL).
Qed.

Lemma capFloor_max (n : JsNumber) :
  capFloor (Math_max (Num 1) (Math_floor n)) = true.
Proof.
  destruct n as [z| | |]; cbn; try reflexivity.
  destruct (1 <=? z) eqn:E; cbn; [exact E | reflexivity].
Qed.

Lemma Ledger_setCap ln m s :
  Inv s -> Ledger s -> capFloor m = true ->
  Ledger (set_lane (set_maxConcurrent m (getLaneState s ln)) s).
Proof.
  intros HI HL Hm.
  assert (Hlanes : lanes (set_lane (set_maxConcurrent m (getLaneState s ln)) s)
                   = <[ln := set_maxConcurrent m (getLaneState s ln)]> (lanes s)).
  { cbn [set_lane lanes lane set_maxConcurrent].
    now rewrite (getLaneState_lane s ln HI). }
  apply (Ledger_transport s); try exact HL; try reflexivity; auto.
  - intros l Hs. rewrite Hlanes, lookup_insert. case_decide; eauto.
  - intros l x. rewrite Hlanes, lookup_insert. case_decide.
    + now intros [= <-].
    + apply (lg_cap s HL).
  - intros y. apply launched_same_refl.
  - intros l. rewrite (getLaneState_insert s _ _ _ l Hlanes).
    change (holdsSlot (set_lane _ s)) with (holdsSlot s).
    fold (runningOn l s). rewrite <- (lg_active s HL l).
    destruct (decide (ln = l)) as [<-|]; reflexivity.
Qed.

Lemma Ledger_emit effs s :
  Ledger s -> (forall ln, startedOn ln effs = []) ->
  (forall ln, enqueuedOn ln effs = []) ->
  Ledger (emit effs s).
Proof.
  intros HL Hst Hen.
  apply (Ledger_transport s); try exact HL; try reflexivity; auto.
  - intros l. cbn [emit effects]. now rewrite startedOn_app, Hst, app_nil_r.
  - intros l Hne. left. cbn [emit effects] in Hne.
    now rewrite enqueuedOn_app, Hen, app_nil_r in Hne.
  - intros l x. apply (lg_cap s HL).
  - intros y. apply launched_same_refl.
  - intros l. apply (lg_active s HL).
Qed.

Lemma Ledger_clear ln s : Inv s -> Ledger s -> Ledger (fst (clearCommandLane ln s)).
Proof.
  intros HI HL. unfold clearCommandLane.
  destruct (lanes s !! cleanLane ln) as [state|] eqn:E; [| exact HL].
  cbn [fst]. destruct (inv_lane s HI _ state E) as [Hname _].
  apply Ledger_emit; [| reflexivity | reflexivity].
  assert (Hlanes : lanes (set_lane (set_queue [] state) s)
                   = <[cleanLane ln := set_queue [] state]> (lanes s)).
  { cbn [set_lane lanes lane set_queue]. now rewrite Hname. }
  apply (Ledger_transport s); try exact HL; try reflexivity; auto.
  - intros l Hs. rewrite Hlanes, lookup_insert. case_decide; eauto.
  - intros l x. rewrite Hlanes, lookup_insert. case_decide.
    + intros [= <-]. apply (lg_cap s HL _ state E).
    + apply (lg_cap s HL).
  - intros y. apply launched_same_refl.
  - intros l. rewrite (getLaneState_insert s _ _ _ l Hlanes).
    change (holdsSlot (set_lane _ s)) with (holdsSlot s).
    fold (runningOn l s). rewrite <- (lg_active s HL l).
    destruct (decide (cleanLane ln = l)) as [<-|]; [| reflexivity].
    cbn [active set_queue]. now rewrite (getLaneState_Some s _ state E).
Qed.

Lemma getLaneState_releasedSlot id r' logged s :
  Inv s ->
  getLaneState (releasedSlot id r' logged s) (l_lane r')
  = set_active (active (getLaneState s (l_lane r')) - 1)
               (getLaneState s (l_lane r')).
Proof.
  intros HI. unfold getLaneState at 1, releasedSlot.
  cbn [emit set_lane set_launched lanes lane set_active].
  now rewrite (getLaneState_lane s _ HI), lookup_insert_eq.
Qed.

Lemma Inv_releasedSlot id r r' logged s :
  Inv s -> launched s !! id = Some r ->
  l_entry r' = l_entry r -> l_lane r' = l_lane r ->
  forallb silent logged = true ->
  Inv (releasedSlot id r' logged s).
Proof.
  intros HI Hr He Hl Hs. eapply Inv_sameShape; [exact HI |].
  now apply (sameShape_releasedSlot id r).
Qed.

(** How a closure takes its slot back, on either path. *)
Lemma Ledger_release_pump id r r' logged X now s :
  Inv s -> Ledger s -> launched s !! id = Some r ->
  settled r = false -> settled r' = true ->
  l_entry r' = l_entry r -> l_lane r' = l_lane r ->
  LANE_TASK_TIMEOUT_MS r' = LANE_TASK_TIMEOUT_MS r ->
  forallb silent logged = true ->
  let state := getLaneState s (l_lane r) in
  Ledger (emit [Settle id X]
               (pumpLane now (set_active (active state - 1) state)
                         (releasedSlot id r' logged s))).
Proof.
  intros HI HL Hr Hs Hs' He Hl Ht Hsil state.
  apply Ledger_emit; [| reflexivity | reflexivity].
  unfold state. rewrite <- Hl.
  rewrite <- (getLaneState_releasedSlot id r' logged s HI).
  apply Ledger_pumpLane.
  - now apply (Inv_releasedSlot id r).
  - now apply (Ledger_released id r).
Qed.

Lemma Ledger_step s ev : Inv s -> Ledger s -> Ledger (step s ev).
Proof.
  intros HI HL. destruct ev as [ln wa o now | ln n now | ln | id now | id o now];
    cbn [step].
  - rewrite enqueue_unfold. cbn [fst].
    pose proof (Inv_pushed (cleanLane ln) (default (Num 2000) wa) o now s HI) as HI1.
    rewrite (drainLane_pump now _ _ HI1).
    apply Ledger_pumpLane; [exact HI1 | now apply Ledger_pushed].
  - unfold setCommandLaneConcurrency.
    assert (HI1 : Inv (set_lane (set_maxConcurrent
                                   (Math_max (Num 1) (Math_floor n))
                                   (getLaneState s (cleanLane ln))) s)).
    { eapply Inv_sameShape; [exact HI |].
      now apply sameShape_set_maxConcurrent. }
    rewrite (drainLane_pump now _ _ HI1).
    apply Ledger_pumpLane; [exact HI1 |].
    apply Ledger_setCap; [exact HI | exact HL | apply capFloor_max].
  - now apply Ledger_clear.
  - unfold onTimeout.
    destruct (launched s !! id) as [r|] eqn:Hr; [| exact HL].
    destruct (timeoutId r) eqn:Ht; try exact HL.
    destruct (settled r) eqn:Hs.
    + now apply (Ledger_noted id r).
    + fold (timeoutRejection r).
      match goal with
      | |- Ledger (emit _ (pumpLane _ _ (emit ?l (set_lane _ (set_launched _ ?r' _))))) =>
          exact (Ledger_release_pump id r r' l (timeoutRejection r) now s
                   HI HL Hr Hs eq_refl eq_refl eq_refl eq_refl eq_refl)
      end.
  - unfold onTaskSettled.
    destruct (launched s !! id) as [r|] eqn:Hr; [| exact HL].
    destruct (awaiting r) eqn:Ha; [| exact HL].
    destruct (settled r) eqn:Hs.
    + now apply (Ledger_noted id r).
    + match goal with
      | |- Ledger (emit [Settle _ ?X]
                     (pumpLane _ _ (emit ?l (set_lane _ (set_launched _ ?r' _))))) =>
          apply (Ledger_release_pump id r r' l X now s HI HL Hr Hs
                   eq_refl eq_refl eq_refl eq_refl)
      end.
      destruct o; [reflexivity | now destruct (isProbeLane _)].
Qed.

Lemma Ledger_init env : Ledger (init env).
Proof.
  constructor; cbn.
  - intros ln id. split; [intros [] |].
    intros (r & Hr & _). now rewrite lookup_empty in Hr.
  - intros ln. unfold getLaneState. cbn. now rewrite lookup_empty.
  - intros ln st H. now rewrite lookup_empty in H.
  - intros id r H. now rewrite lookup_empty in H.
  - intros ln H. congruence.
Qed.

Lemma reachable_ledger env evs :
  Inv (run (init env) evs) /\ Ledger (run (init env) evs).
Proof.
  induction evs as [|ev evs IH] using rev_ind.
  - split; [apply Inv_init | apply Ledger_init].
  - rewrite run_app. cbn [run fold_left]. destruct IH as [HI HL].
    split; [now apply Inv_step | now apply Ledger_step].
Qed.

(** *** No waiting beside a free slot *)

Lemma Saturated_pumpLane now ln s :
  Inv s ->
  (forall l st, l <> ln -> lanes s !! l = Some st ->
     queue st = [] \/ num_lt (Num (active st)) (maxConcurrent st) = false) ->
  Saturated (pumpLane now (getLaneState s ln) s).
Proof.
  intros HI Hother.
  destruct (pumpLane_spec now (getLaneState s ln) s)
    as [started rest effs _ Hlanes _ _ _ _ _ _ _ _ _ _ Hfull].
  rewrite (getLaneState_lane s ln HI) in Hlanes.
  intros l x. rewrite Hlanes, lookup_insert. case_decide as E.
  - intros [= <-]. exact Hfull.
  - intros Hx. apply (Hother l x); [congruence | exact Hx].
Qed.

Lemma Saturated_off s s' ln st1 :
  Saturated s -> lanes s' = <[ln := st1]> (lanes s) ->
  forall l st, l <> ln -> lanes s' !! l = Some st ->
    queue st = [] \/ num_lt (Num (active st)) (maxConcurrent st) = false.
Proof.
  intros HS Hlanes l st Hne. rewrite Hlanes, lookup_insert_ne by congruence.
  apply HS.
Qed.

Lemma Saturated_release_pump id r r' logged X now s :
  Inv s -> Saturated s -> launched s !! id = Some r ->
  l_entry r' = l_entry r -> l_lane r' = l_lane r ->
  forallb silent logged = true ->
  let state := getLaneState s (l_lane r) in
  Saturated (emit [Settle id X]
                  (pumpLane now (set_active (active state - 1) state)
                            (releasedSlot id r' logged s))).
Proof.
  intros HI HS Hr He Hl Hsil state.
  change (Saturated (pumpLane now (set_active (active state - 1) state)
                              (releasedSlot id r' logged s))).
  unfold state. rewrite <- Hl.
  rewrite <- (getLaneState_releasedSlot id r' logged s HI).
  apply Saturated_pumpLane; [now apply (Inv_releasedSlot id r) |].
  apply (Saturated_off s _ _ (set_active (active (getLaneState s (l_lane r')) - 1)
                                         (getLaneState s (l_lane r'))) HS).
  unfold releasedSlot. cbn [emit set_lane set_launched lanes lane set_active].
  now rewrite (getLaneState_lane s _ HI).
Qed.

Lemma Saturated_step s ev : Inv s -> Saturated s -> Saturated (step s ev).
Proof.
  intros HI HS. destruct ev as [ln wa o now | ln n now | ln | id now | id o now];
    cbn [step].
  - rewrite enqueue_unfold. cbn [fst].
    pose proof (Inv_pushed (cleanLane ln) (default (Num 2000) wa) o now s HI) as HI1.
    rewrite (drainLane_pump now _ _ HI1).
    apply Saturated_pumpLane; [exact HI1 |].
    eapply (Saturated_off s); [exact HS |].
    unfold pushed. cbn [lanes lane set_queue].
    now rewrite (getLaneState_lane s _ HI).
  - unfold setCommandLaneConcurrency.
    assert (HI1 : Inv (set_lane (set_maxConcurrent
                                   (Math_max (Num 1) (Math_floor n))
                                   (getLaneState s (cleanLane ln))) s)).
    { eapply Inv_sameShape; [exact HI |].
      now apply sameShape_set_maxConcurrent. }
    rewrite (drainLane_pump now _ _ HI1).
    apply Saturated_pumpLane; [exact HI1 |].
    eapply (Saturated_off s); [exact HS |].
    cbn [set_lane lanes lane set_maxConcurrent].
    now rewrite (getLaneState_lane s _ HI).
  - unfold clearCommandLane.
    destruct (lanes s !! cleanLane ln) as [state|] eqn:E; [| exact HS].
    cbn [fst]. intros l x. cbn [emit set_lane lanes lane set_queue].
    rewrite lookup_insert. case_decide.
    + intros [= <-]. now left.
    + apply HS.
  - unfold onTimeout.
    destruct (launched s !! id) as [r|] eqn:Hr; [| exact HS].
    destruct (timeoutId r) eqn:Ht; try exact HS.
    destruct (settled r) eqn:Hs; [exact HS |].
    fold (timeoutRejection r).
    match goal with
    | |- Saturated (emit _ (pumpLane _ _ (emit ?l (set_lane _ (set_launched _ ?r' _))))) =>
        exact (Saturated_release_pump id r r' l (timeoutRejection r) now s
                 HI HS Hr eq_refl eq_refl eq_refl)
    end.
  - unfold onTaskSettled.
    destruct (launched s !! id) as [r|] eqn:Hr; [| exact HS].
    destruct (awaiting r) eqn:Ha; [| exact HS].
    destruct (settled r) eqn:Hs; [exact HS |].
    match goal with
    | |- Saturated (emit [Settle _ ?X]
                      (pumpLane _ _ (emit ?l (set_lane _ (set_launched _ ?r' _))))) =>
        apply (Saturated_release_pump id r r' l X now s HI HS Hr eq_refl eq_refl)
    end.
    destruct o; [reflexivity | now destruct (isProbeLane _)].
Qed.

Lemma reachable_saturated env evs :
  Inv (run (init env) evs) /\ Saturated (run (init env) evs).
Proof.
  induction evs as [|ev evs IH] using rev_ind.
  - split; [apply Inv_init |]. intros l x Hx. cbn in Hx.
    now rewrite lookup_empty in Hx.
  - rewrite run_app. cbn [run fold_left]. destruct IH as [HI HS].
    split; [now apply Inv_step | now apply Saturated_step].
Qed.



Lemma reachable_all env evs :
  let s := run (init env) evs in
  Inv s /\ SettleInv s /\ Ledger s.
Proof.
  cbn zeta. destruct (reachable_inv env evs) as [HI HS].
  destruct (reachable_ledger env evs) as [_ HL]. auto.
Qed.

(** X2: in every reachable state the counter [active] of a lane is the
    number of tasks of the lane that the pump started and that have neither
    completed nor timed out; it is never negative. Those tasks are the
    closures of the lane that have not settled, and their callers have
    received nothing. *)
Theorem X2_active_counts_running env evs ln :
  let s := run (init env) evs in
  active (getLaneState s ln) = Z.of_nat (length (runningOn ln s))
  /\ 0 <= active (getLaneState s ln)
  /\ NoDup (runningOn ln s)
  /\ forall id, In id (runningOn ln s) <->
                exists r, launched s !! id = Some r /\ l_lane r = ln
                          /\ settled r = false
                          /\ settlements id (effects s) = [].
Proof.
  intros s. destruct (reachable_all env evs) as (HI & HS & HL). fold s in HI, HS, HL.
  pose proof (lg_active s HL ln) as Hact.
  split; [exact Hact |]. split; [lia |]. split.
  - unfold runningOn. apply NoDup_ListNoDup, List.NoDup_filter, NoDup_ListNoDup.
    now apply startedOn_NoDup.
  - intros id. unfold runningOn. rewrite filter_In, (lg_started s HL).
    unfold holdsSlot. split.
    + intros [(r & Hr & Hl) Hslot]. rewrite Hr in Hslot.
      apply negb_true_iff in Hslot. exists r.
      split; [exact Hr |]. split; [exact Hl |]. split; [exact Hslot |].
      specialize (HS id). rewrite Hr in HS. cbn in HS.
      destruct HS as [(_ & _ & _ & Hnil) | [(Hset & _) | (Hset & _)]];
        [exact Hnil | congruence | congruence].
    + intros (r & Hr & Hl & Hset & _). split; [eauto |]. now rewrite Hr, Hset.
Qed.

Lemma answered_queued s ln id :
  Inv s -> SettleInv s -> In id (queuedOn ln s) -> answered (effects s) id = false.
Proof.
  intros HI HS Hin. unfold queuedOn in Hin.
  apply in_map_iff in Hin as (e & <- & He).
  pose proof (getLaneState_fresh s ln e HI He) as Hnone.
  specialize (HS (task e)). rewrite Hnone in HS. cbn in HS.
  unfold answered. now rewrite HS.
Qed.

Lemma answered_started s ln id :
  SettleInv s -> Ledger s -> In id (startedOn ln (effects s)) ->
  negb (answered (effects s) id) = holdsSlot s id.
Proof.
  intros HS HL Hin. apply (lg_started s HL) in Hin as (r & Hr & _).
  specialize (HS id). rewrite Hr in HS. cbn in HS.
  unfold answered, holdsSlot. rewrite Hr.
  destruct HS as [(Hset & _ & _ & ->) | [(Hset & _ & ->) | (Hset & _ & _ & o & ->)]];
    now rewrite Hset.
Qed.

(** The callers still owed an answer on a lane are those of its running
    tasks, then those of its waiting entries. *)
Lemma owedOn_split s ln :
  Inv s -> SettleInv s -> Ledger s ->
  owedOn ln (effects s) = runningOn ln s ++ queuedOn ln s.
Proof.
  intros HI HS HL. unfold owedOn, runningOn.
  rewrite (fifo_survivors s ln HI), List.filter_app. f_equal.
  - apply filter_ext_in. intros id Hin. now apply (answered_started s ln).
  - apply filter_keeps_all. intros id Hin. now rewrite (answered_queued s ln id).
Qed.



Lemma laneSize_owed s ln :
  Inv s -> SettleInv s -> Ledger s ->
  len (queue (getLaneState s ln)) + active (getLaneState s ln)
  = Z.of_nat (length (owedOn ln (effects s))).
Proof.
  intros HI HS HL. rewrite (owedOn_split s ln HI HS HL), length_app,
    (lg_active s HL ln).
  unfold queuedOn. rewrite length_map, len_length. lia.
Qed.




Lemma enqueuedOn_pushedAll ln effs :
  enqueuedOn ln effs = map snd (List.filter (onLane ln) (pushedAll effs)).
Proof.
  unfold enqueuedOn, pushedAll, onLane.
  induction effs as [|e effs IH]; [reflexivity |].
  cbn [omap list_omap]. destruct e; try exact IH.
  cbn [List.filter fst]. destruct (decide (ln0 = ln)) as [->|Hne].
  - rewrite bool_decide_eq_true_2 by reflexivity. cbn [map snd]. now f_equal.
  - rewrite bool_decide_eq_false_2 by exact Hne. exact IH.
Qed.

Lemma filter_map_snd {A B} (f : B -> bool) (l : list (A * B)) :
  List.filter f (map snd l) = map snd (List.filter (fun p => f (snd p)) l).
Proof.
  induction l as [|[a b] l IH]; [reflexivity |].
  cbn [map List.filter snd]. destruct (f b); cbn [map snd]; now rewrite IH.
Qed.

Lemma filter_twice {A} (f g : A -> bool) (l : list A) :
  List.filter f (List.filter g l) = List.filter (fun x => g x && f x) l.
Proof.
  induction l as [|x l IH]; [reflexivity |].
  cbn [List.filter]. destruct (g x); cbn [List.filter andb]; [| exact IH].
  destruct (f x); now rewrite IH.
Qed.

Lemma owedOn_owedAll ln effs :
  owedOn ln effs = map snd (List.filter (onLane ln) (owedAll effs)).
Proof.
  unfold owedOn, survivorsOn, owedAll.
  rewrite enqueuedOn_pushedAll, !filter_map_snd, !filter_twice. f_equal.
  apply filter_ext. intros [l id]. unfold onLane, owed. cbn [fst snd].
  destruct (decide (l = ln)) as [->|Hne].
  - rewrite bool_decide_eq_true_2 by reflexivity. cbn [andb].
    now rewrite andb_true_r.
  - rewrite bool_decide_eq_false_2 by exact Hne. cbn [andb].
    now rewrite andb_false_r.
Qed.

Lemma onLane_cons_length k (p : string * TaskId) l :
  length (List.filter (onLane k) (p :: l))
  = ((if decide (fst p = k) then 1 else 0)
     + length (List.filter (onLane k) l))%nat.
Proof.
  cbn [List.filter]. unfold onLane at 1. destruct (decide (fst p = k)).
  - now rewrite bool_decide_eq_true_2.
  - now rewrite bool_decide_eq_false_2.
Qed.

Lemma by_lane_off (keys : list string) (p : string * TaskId) l :
  ~ In (fst p) keys ->
  foldr (fun k acc => (length (List.filter (onLane k) (p :: l)) + acc)%nat)
        0%nat keys
  = foldr (fun k acc => (length (List.filter (onLane k) l) + acc)%nat)
          0%nat keys.
Proof.
  induction keys as [|k keys IH]; intros Hno; [reflexivity |].
  cbn [foldr]. rewrite onLane_cons_length, IH.
  - destruct (decide (fst p = k)) as [E|]; [| reflexivity].
    exfalso. apply Hno. now left.
  - intros H. apply Hno. now right.
Qed.

Lemma by_lane_on (keys : list string) (p : string * TaskId) l :
  NoDup keys -> In (fst p) keys ->
  foldr (fun k acc => (length (List.filter (onLane k) (p :: l)) + acc)%nat)
        0%nat keys
  = S (foldr (fun k acc => (length (List.filter (onLane k) l) + acc)%nat)
             0%nat keys).
Proof.
  intros Hnd. induction Hnd as [|k keys Hk Hnd IH]; intros Hin; [destruct Hin |].
  cbn [foldr]. rewrite onLane_cons_length.
  destruct (decide (fst p = k)) as [E|Hne].
  - rewrite by_lane_off; [reflexivity |]. rewrite E. intros H. apply Hk.
    now apply list_elem_of_In.
  - destruct Hin as [E | Hin]; [congruence |]. rewrite IH by exact Hin. lia.
Qed.

(** A list splits into the parts that its keys select. *)
Lemma length_by_lane (keys : list string) (l : list (string * TaskId)) :
  NoDup keys -> (forall p, In p l -> In (fst p) keys) ->
  length l
  = foldr (fun k acc => (length (List.filter (onLane k) l) + acc)%nat) 0%nat keys.
Proof.
  intros Hnd. induction l as [|p l IH]; intros Hcov.
  - clear Hnd Hcov. induction keys as [|k keys IHk]; [reflexivity |].
    cbn [foldr]. rewrite <- IHk. reflexivity.
  - cbn [length]. rewrite IH by (intros q Hq; apply Hcov; now right).
    symmetry. apply by_lane_on; [exact Hnd |]. apply Hcov. now left.
Qed.

Lemma pushedAll_enqueued ln id effs :
  In (ln, id) (pushedAll effs) -> In id (enqueuedOn ln effs).
Proof.
  intros H. rewrite enqueuedOn_pushedAll. apply in_map_iff. exists (ln, id).
  split; [reflexivity |]. apply filter_In. split; [exact H |].
  unfold onLane. now apply bool_decide_eq_true_2.
Qed.

Lemma total_as_sum (m : gmap string LaneState) :
  map_fold (fun _ st total => total + (len (queue st) + active st)) 0 m
  = foldr (fun kv acc => len (queue (snd kv)) + active (snd kv) + acc) 0
          (map_to_list m).
Proof.
  rewrite map_fold_foldr. induction (map_to_list m) as [|[k st] l IH];
    [reflexivity |].
  cbn [foldr uncurry snd]. rewrite IH. lia.
Qed.


Lemma pumpLane_env now st s :
  OPENCLAW_LANE_TASK_TIMEOUT_MS (pumpLane now st s)
  = OPENCLAW_LANE_TASK_TIMEOUT_MS s.
Proof. now destruct (pumpLane_spec now st s). Qed.

Lemma step_env s ev :
  OPENCLAW_LANE_TASK_TIMEOUT_MS (step s ev) = OPENCLAW_LANE_TASK_TIMEOUT_MS s.
Proof.
  assert (Hd : forall t l s1, OPENCLAW_LANE_TASK_TIMEOUT_MS (drainLane t l s1)
                              = OPENCLAW_LANE_TASK_TIMEOUT_MS s1).
  { intros t l s1. unfold drainLane. destruct (draining _); [reflexivity |].
    apply pumpLane_env. }
  destruct ev; cbn [step].
  - rewrite enqueue_unfold. cbn [fst]. now rewrite Hd.
  - unfold setCommandLaneConcurrency. now rewrite Hd.
  - unfold clearCommandLane. now destruct (lanes s !! _).
  - unfold onTimeout. destruct (launched s !! id) as [r|]; [| reflexivity].
    destruct (timeoutId r); try reflexivity.
    destruct (settled r); [reflexivity |].
    cbn [emit OPENCLAW_LANE_TASK_TIMEOUT_MS]. now rewrite pumpLane_env.
  - unfold onTaskSettled. destruct (launched s !! id) as [r|]; [| reflexivity].
    destruct (awaiting r); [| reflexivity].
    destruct (settled r); [reflexivity |].
    cbn [emit OPENCLAW_LANE_TASK_TIMEOUT_MS]. now rewrite pumpLane_env.
Qed.

Lemma run_env env evs :
  OPENCLAW_LANE_TASK_TIMEOUT_MS (run (init env) evs) = env.
Proof.
  induction evs as [|ev evs IH] using rev_ind; [reflexivity |].
  rewrite run_app. cbn [run fold_left]. now rewrite step_env.
Qed.


(** *** A lane with no free slot, a lane with a free slot *)

Lemma pumpLoop_blocked now env state pending :
  num_lt (Num (active state)) (maxConcurrent state) = false ->
  pumpLoop now env state pending = (set_queue pending state, [], []).
Proof. intros H. destruct pending; cbn [pumpLoop]; [| rewrite H]; reflexivity. Qed.

Lemma pumpLane_blocked now st s :
  num_lt (Num (active st)) (maxConcurrent st) = false ->
  pumpLane now st s
  = mkState (<[lane st := set_draining false st]> (lanes s)) (launched s)
            (nextTask s) (effects s ++ []) (OPENCLAW_LANE_TASK_TIMEOUT_MS s).
Proof.
  intros H. unfold pumpLane, pump. rewrite (pumpLoop_blocked _ _ _ _ H).
  destruct st; reflexivity.
Qed.

(** The pump on a lane whose only entry has a free slot. *)
Lemma pumpLane_single now st s e :
  queue st = [e] -> num_lt (Num (active st)) (maxConcurrent st) = true ->
  pumpLane now st s
  = mkState (<[lane st := mkLaneState (lane st) [] (active st + 1)
                                      (maxConcurrent st) false]> (lanes s))
            (<[task e := launch now (OPENCLAW_LANE_TASK_TIMEOUT_MS s) (lane st) e]>
               (launched s))
            (nextTask s)
            (effects s
             ++ (if num_ge (Num (now - enqueuedAt e)) (warnAfterMs e)
                 then (if onWait e
                       then [OnWaitCall (task e) (now - enqueuedAt e) 0]
                       else [])
                      ++ [DiagWarn (waitExceededMessage (lane st)
                                      (now - enqueuedAt e) 0)]
                 else [])
             ++ [LogLaneDequeue (lane st) (now - enqueuedAt e) 0;
                 SetTimeout (task e)
                            (laneTaskTimeout (OPENCLAW_LANE_TASK_TIMEOUT_MS s));
                 TaskCall (lane st) (task e)])
            (OPENCLAW_LANE_TASK_TIMEOUT_MS s).
Proof.
  intros Hq Hfree. unfold pumpLane, pump. rewrite Hq. cbn [pumpLoop].
  rewrite Hfree. cbn [pumpLoop set_active set_queue lane active maxConcurrent
                      draining set_draining fst snd register foldl l_entry
                      launch task LANE_TASK_TIMEOUT_MS len length].
  rewrite app_nil_r. reflexivity.
Qed.




Lemma parseInt_cases (v : string) :
  Number_parseInt v = NaN \/ exists p, Number_parseInt v = Num p.
Proof.
  unfold Number_parseInt.
  destruct (trimStart v) as [|c rest]; [now left |].
  repeat match goal with
         | |- context [match ?x with _ => _ end] => destruct x
         end; eauto.
Qed.

(** The budget, case by case. *)
Lemma laneTaskTimeout_value (timeoutEnv : option string) :
  laneTaskTimeout timeoutEnv
  = Num (match timeoutEnv with
         | Some v =>
             match Number_parseInt v with
             | Num p => if 0 <? p then Z.max p MIN_LANE_TASK_TIMEOUT_MS
                        else DEFAULT_LANE_TASK_TIMEOUT_MS
             | _ => DEFAULT_LANE_TASK_TIMEOUT_MS
             end
         | None => DEFAULT_LANE_TASK_TIMEOUT_MS
         end).
Proof.
  unfold laneTaskTimeout. destruct timeoutEnv as [v|]; [| reflexivity].
  destruct v as [|c v]; [reflexivity |]. cbn [truthy_str].
  destruct (parseInt_cases (String c v)) as [-> | [p ->]]; [reflexivity |].
  cbn [isFinite num_gt num_lt andb]. destruct (0 <? p) eqn:E; [| reflexivity].
  unfold Math_max, num_le, MIN_LANE_TASK_TIMEOUT_MS.
  destruct (p <=? 5000) eqn:E2; f_equal.
  - apply Z.leb_le in E2. lia.
  - apply Z.leb_gt in E2. lia.
Qed.



(** *** Caps *)

Lemma maxConcurrent_pumpLane now l s ln :
  Inv s ->
  maxConcurrent (getLaneState (pumpLane now (getLaneState s l) s) ln)
  = maxConcurrent (getLaneState s ln).
Proof.
  intros HI. destruct (pumpLane_spec now (getLaneState s l) s)
    as [started rest effs _ Hlanes _ _ _ _ _ _ _ _ _ _ _].
  rewrite (getLaneState_lane s l HI) in Hlanes.
  rewrite (getLaneState_insert s _ _ _ ln Hlanes).
  destruct (decide (l = ln)) as [<-|]; reflexivity.
Qed.

Lemma lanes_releasedSlot id r' logged s :
  Inv s ->
  lanes (releasedSlot id r' logged s)
  = <[l_lane r' := set_active (active (getLaneState s (l_lane r')) - 1)
                              (getLaneState s (l_lane r'))]> (lanes s).
Proof.
  intros HI. unfold releasedSlot.
  cbn [emit set_lane set_launched lanes lane set_active].
  now rewrite (getLaneState_lane s _ HI).
Qed.

Lemma maxConcurrent_released id r r' logged X now s ln :
  Inv s -> launched s !! id = Some r ->
  l_entry r' = l_entry r -> l_lane r' = l_lane r ->
  forallb silent logged = true ->
  let state := getLaneState s (l_lane r) in
  maxConcurrent
    (getLaneState (emit [Settle id X]
                        (pumpLane now (set_active (active state - 1) state)
                                  (releasedSlot id r' logged s))) ln)
  = maxConcurrent (getLaneState s ln).
Proof.
  intros HI Hr He Hl Hsil state.
  match goal with
  | |- maxConcurrent (getLaneState (emit _ ?s0) ln) = _ =>
      change (maxConcurrent (getLaneState s0 ln)
              = maxConcurrent (getLaneState s ln))
  end.
  unfold state. rewrite <- Hl.
  rewrite <- (getLaneState_releasedSlot id r' logged s HI).
  rewrite maxConcurrent_pumpLane by now apply (Inv_releasedSlot id r).
  rewrite (getLaneState_insert s _ _ _ ln (lanes_releasedSlot id r' logged s HI)).
  destruct (decide (l_lane r' = ln)) as [<-|]; reflexivity.
Qed.

Lemma lanes_pushed ln wa o now s :
  Inv s ->
  lanes (pushed ln wa o now s)
  = <[ln := set_queue (queue (getLaneState s ln)
                       ++ [mkQueueEntry (nextTask s) now wa o])
                      (getLaneState s ln)]> (lanes s).
Proof.
  intros HI. unfold pushed. cbn [lanes lane set_queue].
  now rewrite (getLaneState_lane s ln HI).
Qed.

Lemma lanes_setCap ln m s :
  Inv s ->
  lanes (set_lane (set_maxConcurrent m (getLaneState s ln)) s)
  = <[ln := set_maxConcurrent m (getLaneState s ln)]> (lanes s).
Proof.
  intros HI. cbn [set_lane lanes lane set_maxConcurrent].
  now rewrite (getLaneState_lane s ln HI).
Qed.

Lemma Inv_setCap ln m s :
  Inv s -> Inv (set_lane (set_maxConcurrent m (getLaneState s ln)) s).
Proof.
  intros HI. eapply Inv_sameShape; [exact HI |].
  now apply sameShape_set_maxConcurrent.
Qed.

Lemma maxConcurrent_step s ev ln :
  Inv s ->
  maxConcurrent (getLaneState (step s ev) ln)
  = match ev with
    | SetConcurrency l n _ =>
        if decide (cleanLane l = ln) then Math_max (Num 1) (Math_floor n)
        else maxConcurrent (getLaneState s ln)
    | _ => maxConcurrent (getLaneState s ln)
    end.
Proof.
  intros HI. destruct ev as [l wa o now | l n now | l | id now | id o now];
    cbn [step].
  - rewrite enqueue_unfold. cbn [fst].
    pose proof (Inv_pushed (cleanLane l) (default (Num 2000) wa) o now s HI) as HI1.
    rewrite (drainLane_pump now _ _ HI1), maxConcurrent_pumpLane by exact HI1.
    rewrite (getLaneState_insert s _ _ _ ln (lanes_pushed _ _ _ _ s HI)).
    destruct (decide (cleanLane l = ln)) as [<-|]; reflexivity.
  - unfold setCommandLaneConcurrency.
    set (m := Math_max (Num 1) (Math_floor n)).
    pose proof (Inv_setCap (cleanLane l) m s HI) as HI1.
    rewrite (drainLane_pump now _ _ HI1), maxConcurrent_pumpLane by exact HI1.
    rewrite (getLaneState_insert s _ _ _ ln (lanes_setCap _ m s HI)).
    destruct (decide (cleanLane l = ln)) as [<-|]; reflexivity.
  - unfold clearCommandLane.
    destruct (lanes s !! cleanLane l) as [state|] eqn:E; [| reflexivity].
    cbn [fst]. destruct (inv_lane s HI _ state E) as [Hname _].
    assert (Hlanes : lanes (emit [QueueClear (cleanLane l) (map task (queue state))]
                                 (set_lane (set_queue [] state) s))
                     = <[cleanLane l := set_queue [] state]> (lanes s)).
    { cbn [emit set_lane lanes lane set_queue]. now rewrite Hname. }
    rewrite (getLaneState_insert s _ _ _ ln Hlanes).
    destruct (decide (cleanLane l = ln)) as [<-|]; [| reflexivity].
    cbn [maxConcurrent set_queue]. now rewrite (getLaneState_Some s _ state E).
  - unfold onTimeout.
    destruct (launched s !! id) as [r|] eqn:Hr; [| reflexivity].
    destruct (timeoutId r) eqn:Ht; try reflexivity.
    destruct (settled r) eqn:Hs; [reflexivity |].
    fold (timeoutRejection r).
    match goal with
    | |- context [emit _ (pumpLane _ _ (emit ?lg (set_lane _ (set_launched _ ?r' _))))] =>
        exact (maxConcurrent_released id r r' lg (timeoutRejection r) now s ln
                 HI Hr eq_refl eq_refl eq_refl)
    end.
  - unfold onTaskSettled.
    destruct (launched s !! id) as [r|] eqn:Hr; [| reflexivity].
    destruct (awaiting r) eqn:Ha; [| reflexivity].
    destruct (settled r) eqn:Hs; [reflexivity |].
    match goal with
    | |- context [emit [Settle _ ?X]
                    (pumpLane _ _ (emit ?lg (set_lane _ (set_launched _ ?r' _))))] =>
        apply (maxConcurrent_released id r r' lg X now s ln HI Hr
                 eq_refl eq_refl)
    end.
    destruct o; [reflexivity | now destruct (isProbeLane _)].
Qed.



Lemma startedOn_pump_stalled now l s ln :
  Inv s -> maxConcurrent (getLaneState s ln) = NaN ->
  startedOn ln (effects (pumpLane now (getLaneState s l) s))
  = startedOn ln (effects s).
Proof.
  intros HI Hnan. destruct (decide (l = ln)) as [->|Hne].
  - rewrite pumpLane_blocked; [cbn [effects]; now rewrite app_nil_r |].
    rewrite Hnan. reflexivity.
  - destruct (pumpLane_spec now (getLaneState s l) s)
      as [started rest effs _ _ _ _ _ Heffs _ _ _ Hcalls _ _ _].
    rewrite Heffs, startedOn_app, Hcalls, (getLaneState_lane s l HI).
    destruct (decide (l = ln)); [congruence | apply app_nil_r].
Qed.

Lemma startedOn_released_stalled id r r' logged X now s ln :
  Inv s -> launched s !! id = Some r ->
  l_entry r' = l_entry r -> l_lane r' = l_lane r ->
  forallb silent logged = true ->
  maxConcurrent (getLaneState s ln) = NaN ->
  let state := getLaneState s (l_lane r) in
  startedOn ln (effects (emit [Settle id X]
                           (pumpLane now (set_active (active state - 1) state)
                                     (releasedSlot id r' logged s))))
  = startedOn ln (effects s).
Proof.
  intros HI Hr He Hl Hsil Hnan state. cbn [emit effects].
  rewrite startedOn_app. cbn [startedOn omap list_omap]. rewrite app_nil_r.
  unfold state. rewrite <- Hl.
  rewrite <- (getLaneState_releasedSlot id r' logged s HI).
  rewrite startedOn_pump_stalled.
  - unfold releasedSlot. cbn [emit effects].
    now rewrite startedOn_app, (silent_startedOn ln logged Hsil), app_nil_r.
  - now apply (Inv_releasedSlot id r).
  - rewrite (getLaneState_insert s _ _ _ ln (lanes_releasedSlot id r' logged s HI)).
    destruct (decide (l_lane r' = ln)) as [<-|]; exact Hnan.
Qed.

Lemma startedOn_step_stalled s ev ln :
  Inv s -> maxConcurrent (getLaneState s ln) = NaN -> keepsCap ln ev = true ->
  startedOn ln (effects (step s ev)) = startedOn ln (effects s).
Proof.
  intros HI Hnan Hev.
  destruct ev as [l wa o now | l n now | l | id now | id o now]; cbn [step].
  - rewrite enqueue_unfold. cbn [fst].
    pose proof (Inv_pushed (cleanLane l) (default (Num 2000) wa) o now s HI) as HI1.
    rewrite (drainLane_pump now _ _ HI1), startedOn_pump_stalled.
    + unfold pushed. cbn [effects]. rewrite startedOn_app. cbn. apply app_nil_r.
    + exact HI1.
    + rewrite (getLaneState_insert s _ _ _ ln (lanes_pushed _ _ _ _ s HI)).
      destruct (decide (cleanLane l = ln)) as [<-|]; exact Hnan.
  - unfold setCommandLaneConcurrency.
    set (m := Math_max (Num 1) (Math_floor n)).
    pose proof (Inv_setCap (cleanLane l) m s HI) as HI1.
    rewrite (drainLane_pump now _ _ HI1), startedOn_pump_stalled.
    + reflexivity.
    + exact HI1.
    + rewrite (getLaneState_insert s _ _ _ ln (lanes_setCap _ m s HI)).
      cbn [keepsCap] in Hev. apply negb_true_iff, bool_decide_eq_false in Hev.
      destruct (decide (cleanLane l = ln)); [contradiction | exact Hnan].
  - unfold clearCommandLane.
    destruct (lanes s !! cleanLane l) as [state|]; [| reflexivity].
    cbn [fst emit effects]. rewrite startedOn_app. cbn. apply app_nil_r.
  - unfold onTimeout.
    destruct (launched s !! id) as [r|] eqn:Hr; [| reflexivity].
    destruct (timeoutId r) eqn:Ht; try reflexivity.
    destruct (settled r) eqn:Hs; [reflexivity |].
    fold (timeoutRejection r).
    match goal with
    | |- context [emit _ (pumpLane _ _ (emit ?lg (set_lane _ (set_launched _ ?r' _))))] =>
        exact (startedOn_released_stalled id r r' lg (timeoutRejection r) now s
                 ln HI Hr eq_refl eq_refl eq_refl Hnan)
    end.
  - unfold onTaskSettled.
    destruct (launched s !! id) as [r|] eqn:Hr; [| reflexivity].
    destruct (awaiting r) eqn:Ha; [| reflexivity].
    destruct (settled r) eqn:Hs; [reflexivity |].
    match goal with
    | |- context [emit [Settle _ ?X]
                    (pumpLane _ _ (emit ?lg (set_lane _ (set_launched _ ?r' _))))] =>
        apply (startedOn_released_stalled id r r' lg X now s ln HI Hr
                 eq_refl eq_refl); [| exact Hnan]
    end.
    destruct o; [reflexivity | now destruct (isProbeLane _)].
Qed.

Lemma stalled_run ln (more : list Event) :
  forall s, Inv s -> maxConcurrent (getLaneState s ln) = NaN ->
    forallb (keepsCap ln) more = true ->
    Inv (run s more)
    /\ maxConcurrent (getLaneState (run s more) ln) = NaN
    /\ startedOn ln (effects (run s more)) = startedOn ln (effects s).
Proof.
  induction more as [|ev more IH]; intros s HI Hnan Hall; [auto |].
  cbn [forallb] in Hall. apply andb_true_iff in Hall as [Hev Hall].
  cbn [run fold_left].
  destruct (IH (step s ev)) as (HI' & Hnan' & Hst).
  - now apply Inv_step.
  - rewrite maxConcurrent_step by exact HI.
    destruct ev; try exact Hnan. cbn [keepsCap] in Hev.
    apply negb_true_iff, bool_decide_eq_false in Hev.
    destruct (decide (cleanLane ln0 = ln)); [contradiction | exact Hnan].
  - exact Hall.
  - split; [exact HI' |]. split; [exact Hnan' |].
    unfold run in Hst. rewrite Hst. now apply startedOn_step_stalled.
Qed.

(** X9: [setCommandLaneConcurrency(lane, NaN)] stores NaN as the cap,
    and from then on nothing starts on the lane until the cap is set
    again: over any later steps that do not set it, the starts of the lane
    stay what they were, and every task pushed on the lane and not cleared
    since waits in its queue. *)
Theorem X9_nan_cap_stalls_lane env evs l now more :
  let L := cleanLane l in
  let s := setCommandLaneConcurrency l NaN now (run (init env) evs) in
  forallb (keepsCap L) more = true ->
  maxConcurrent (getLaneState s L) = NaN
  /\ maxConcurrent (getLaneState (run s more) L) = NaN
  /\ startedOn L (effects (run s more))
     = startedOn L (effects (run (init env) evs))
  /\ survivorsOn L (effects (run s more))
     = startedOn L (effects (run (init env) evs)) ++ queuedOn L (run s more).
Proof.
  intros L s Hmore.
  destruct (reachable_inv env evs) as [HI0 _].
  set (s0 := run (init env) evs) in *.
  assert (Hs : s = step s0 (SetConcurrency l NaN now)) by reflexivity.
  assert (HI : Inv s) by (rewrite Hs; now apply Inv_step).
  assert (Hnan : maxConcurrent (getLaneState s L) = NaN).
  { rewrite Hs, maxConcurrent_step by exact HI0. fold L.
    destruct (decide (L = L)); [reflexivity | congruence]. }
  assert (Hst0 : startedOn L (effects s) = startedOn L (effects s0)).
  { unfold s, setCommandLaneConcurrency.
    pose proof (Inv_setCap (cleanLane l) (Math_max (Num 1) (Math_floor NaN)) s0 HI0)
      as HI1.
    rewrite (drainLane_pump now _ _ HI1), startedOn_pump_stalled; [reflexivity | exact HI1 |].
    rewrite (getLaneState_insert s0 _ _ _ L (lanes_setCap _ _ s0 HI0)). fold L.
    destruct (decide (L = L)); [reflexivity | congruence]. }
  destruct (stalled_run L more s HI Hnan Hmore) as (HI' & Hnan' & Hst).
  split; [exact Hnan |]. split; [exact Hnan' |]. split; [congruence |].
  rewrite (fifo_survivors _ L HI'). congruence.
Qed.

Lemma X9_nan_cap_stalls_lane_witness :
  let s := setCommandLaneConcurrency "x" NaN 1
             (run (init None) [Enqueue "x" None false 0]) in
  let more := [Enqueue "x" None false 2; TaskSettles 0%nat (Fulfilled "a") 3;
               Enqueue "x" None false 4] in
  startedOn "x" (effects (run s more)) = [0%nat]
  /\ queuedOn "x" (run s more) = [1%nat; 2%nat].
Proof.
  intros s more.
  destruct (X9_nan_cap_stalls_lane None [Enqueue "x" None false 0] "x" 1 more)
    as (_ & _ & Hstarts & _).
  - vm_compute. reflexivity.
  - split; [| vm_compute; reflexivity].
    transitivity (startedOn "x" (effects (run (init None)
                                            [Enqueue "x" None false 0])));
      [exact Hstarts | vm_compute; reflexivity].
Defined.

(** X10: [clearCommandLane(lane)] returns the number of entries that
    were waiting on the lane and drops them; afterwards nothing waits on
    the lane, the running tasks and all closures are as before, the size
    of the lane has gone down by the number returned, and a second call
    returns 0. On a lane that was never used it returns 0 and changes
    nothing. *)
Theorem X10_clear_drops_waiting env evs ln :
  let s := run (init env) evs in
  let L := cleanLane ln in
  let out := clearCommandLane ln s in
  snd out = Z.of_nat (length (queuedOn L s))
  /\ clearedOn L (effects (fst out)) = clearedOn L (effects s) ++ queuedOn L s
  /\ queuedOn L (fst out) = []
  /\ runningOn L (fst out) = runningOn L s
  /\ getQueueSize ln (fst out) = getQueueSize ln s - snd out
  /\ launched (fst out) = launched s
  /\ snd (clearCommandLane ln (fst out)) = 0
  /\ (lanes s !! L = None -> fst out = s).
Proof.
  intros s L out. destruct (reachable_inv env evs) as [HI _]. fold s in HI.
  unfold out, clearCommandLane, getQueueSize, queuedOn, runningOn, getLaneState.
  fold L. destruct (lanes s !! L) as [state|] eqn:E.
  - destruct (inv_lane s HI L state E) as [Hname _].
    cbn [fst snd emit set_lane set_queue lanes lane queue active effects launched].
    rewrite Hname, !lookup_insert_eq. cbn [queue active].
    rewrite clearedOn_app, clearedOn_clear, startedOn_app.
    destruct (decide (L = L)); [| congruence].
    cbn [startedOn omap list_omap]. rewrite app_nil_r.
    unfold len. cbn [length]. rewrite length_map.
    repeat split; try reflexivity; try discriminate.
    cbn [queue active set_queue length]. lia.
  - cbn [fst snd]. rewrite E. cbn [queue createdLane map length].
    rewrite app_nil_r. repeat split; reflexivity.
Qed.


(** *** A new cap starts what fits *)

Lemma pumpLoop_started_length now env pending :
  forall state,
    length (snd (fst (pumpLoop now env state pending)))
    = fits state (length pending).
Proof.
  induction pending as [|entry rest IH]; intros state.
  - cbn. unfold fits. destruct (maxConcurrent state); try reflexivity.
    cbn. lia.
  - cbn [pumpLoop].
    destruct (num_lt (Num (active state)) (maxConcurrent state)) eqn:Hg.
    + specialize (IH (set_active (active state + 1) (set_queue rest state))).
      destruct (pumpLoop now env _ rest) as [[state2 started] effs].
      cbn [fst snd length] in *. rewrite IH. unfold fits.
      cbn [maxConcurrent set_active set_queue active length].
      destruct (maxConcurrent state) as [c| | |]; try discriminate;
        [| reflexivity].
      cbn in Hg. apply Z.ltb_lt in Hg. lia.
    + cbn [fst snd length]. unfold fits.
      destruct (maxConcurrent state) as [c| | |]; try discriminate;
        try reflexivity.
      cbn in Hg. apply Z.ltb_ge in Hg. lia.
Qed.

Lemma pumpLane_fits now st s :
  let k := fits st (length (queue st)) in
  exists effs,
    lanes (pumpLane now st s)
    = <[lane st := mkLaneState (lane st) (skipn k (queue st))
                               (active st + Z.of_nat k) (maxConcurrent st)
                               false]> (lanes s)
    /\ launched (pumpLane now st s)
       = register (map (launch now (OPENCLAW_LANE_TASK_TIMEOUT_MS s) (lane st))
                       (firstn k (queue st)))
                  (launched s)
    /\ effects (pumpLane now st s) = effects s ++ effs
    /\ forall ln, startedOn ln effs
                  = if decide (lane st = ln) then map task (firstn k (queue st))
                    else [].
Proof.
  intros k.
  pose proof (pumpLoop_started_length now (OPENCLAW_LANE_TASK_TIMEOUT_MS s)
                (queue st) st) as Hlen.
  destruct (pumpLoop_spec now (OPENCLAW_LANE_TASK_TIMEOUT_MS s) (queue st) st)
    as [started rest Hsplit Hstate Hlaunched _ _ _ Hcalls _ _ _].
  unfold pumpLane, pump.
  destruct (pumpLoop now (OPENCLAW_LANE_TASK_TIMEOUT_MS s) st (queue st))
    as [[state1 l] effs].
  cbn [fst snd] in *. subst state1 l. rewrite length_map in Hlen. fold k in Hlen.
  assert (Hfirst : firstn k (queue st) = started).
  { rewrite Hsplit, <- Hlen. rewrite firstn_app, Nat.sub_diag, firstn_all.
    cbn. apply app_nil_r. }
  assert (Hskip : skipn k (queue st) = rest).
  { rewrite Hsplit, <- Hlen. rewrite skipn_app, Nat.sub_diag, skipn_all.
    reflexivity. }
  exists effs. cbn [lanes launched effects set_draining lane queue active
                    maxConcurrent].
  rewrite Hfirst, Hskip, <- Hlen. unfold len. auto.
Qed.



(** *** Lane names *)


Lemma trimStart_headOk (s : string) : headOk (trimStart s) = true.
Proof.
  induction s as [|c s IH]; [reflexivity |].
  cbn [trimStart]. destruct (is_whitespace c) eqn:E; [exact IH |].
  cbn [headOk]. now rewrite E.
Qed.

Lemma trimStart_fixed (s : string) : headOk s = true -> trimStart s = s.
Proof.
  destruct s as [|c s]; [reflexivity |]. cbn [headOk trimStart].
  intros H. apply negb_true_iff in H. now rewrite H.
Qed.

Lemma trimStart_keeps_last (x : string) (c : ascii) :
  is_whitespace c = false ->
  exists y, trimStart (x ++ String c EmptyString) = (y ++ String c EmptyString)%string.
Proof.
  intros Hc. induction x as [|d x IH].
  - exists EmptyString. change (EmptyString ++ String c EmptyString)%string
      with (String c EmptyString). cbn [trimStart]. now rewrite Hc.
  - rewrite append_cons. cbn [trimStart]. destruct (is_whitespace d).
    + exact IH.
    + exists (String d x). now rewrite append_cons.
Qed.

Lemma trimEnd_headOk (s : string) : headOk s = true -> headOk (trimEnd s) = true.
Proof.
  destruct s as [|c s]; [reflexivity |]. cbn [headOk]. intros Hc.
  apply negb_true_iff in Hc. unfold trimEnd. rewrite string_rev_cons.
  destruct (trimStart_keeps_last (String.rev s) c Hc) as [y ->].
  rewrite string_rev_append. cbn [headOk]. 
  change (String.rev (String c EmptyString)) with (String c EmptyString).
  rewrite append_cons. cbn [headOk]. now rewrite Hc.
Qed.

Lemma trimEnd_idempotent (s : string) : trimEnd (trimEnd s) = trimEnd s.
Proof.
  unfold trimEnd. rewrite string_rev_involutive.
  now rewrite (trimStart_fixed _ (trimStart_headOk _)).
Qed.

Lemma trim_idempotent (s : string) : trim (trim s) = trim s.
Proof.
  unfold trim.
  rewrite (trimStart_fixed (trimEnd (trimStart s)))
    by apply trimEnd_headOk, trimStart_headOk.
  apply trimEnd_idempotent.
Qed.

Lemma cleanLane_idempotent (ln : string) : cleanLane (cleanLane ln) = cleanLane ln.
Proof.
  unfold cleanLane at 2 3. destruct (truthy_str (trim ln)) eqn:E.
  - unfold cleanLane. now rewrite trim_idempotent, E.
  - reflexivity.
Qed.

Lemma cleanLane_nonempty (ln : string) : truthy_str (cleanLane ln) = true.
Proof.
  unfold cleanLane. destruct (truthy_str (trim ln)) eqn:E; [exact E | reflexivity].
Qed.


(** ** Further properties of the session write lock *)

Section LockMore.

Variable process_pid : Z.
Variable process_kill0 : Z -> KillResult.
Variable fs_realpath : Path -> option Path.
Variable Date_parse : string -> JsNumber.
Variable Date_toISOString : Z -> string.

Local Abbreviation attemptOnce' :=
  (attemptOnce process_pid process_kill0 Date_parse Date_toISOString).
Local Abbreviation acquireLoop' :=
  (acquireLoop process_pid process_kill0 Date_parse Date_toISOString).
Local Abbreviation acquire' :=
  (acquireSessionWriteLock process_pid process_kill0 fs_realpath Date_parse
                           Date_toISOString).

(** The lock file this process writes at time [now]. *)
Local Abbreviation ownLock now :=
  (RegFile (JsonObject (VNumber (Num process_pid))
                       (VString (Date_toISOString now)))).

Lemma withLockSuffix_nonempty (p : Path) : withLockSuffix p <> [].
Proof.
  destruct p as [|seg p]; [discriminate |].
  unfold withLockSuffix. intros H. apply app_eq_nil in H as [_ H]. discriminate.
Qed.

Lemma dirname_neq (p : Path) : p <> [] -> path_dirname p <> p.
Proof.
  intros Hp H. unfold path_dirname in H.
  pose proof (app_removelast_last EmptyString Hp) as E.
  rewrite H in E. apply (f_equal (@length string)) in E.
  rewrite length_app in E. cbn in E. lia.
Qed.

Lemma isDirectory_delete w p q :
  q <> p -> isDirectory (set_files (delete q (files w)) w) p = isDirectory w p.
Proof.
  intros Hq. unfold isDirectory. destruct p; [reflexivity |].
  cbn [set_files files]. now rewrite lookup_delete_ne.
Qed.

(** An attempt on a path with no lock file creates it. *)
Lemma attemptOnce_absent key lockPath staleMs attempt w :
  files w !! lockPath = None ->
  isDirectory w (path_dirname lockPath) = true ->
  attemptOnce' key lockPath staleMs attempt w
  = (mkWorld (<[lockPath := ownLock (clock w)]> (files w))
             (openHandles w ∪ {[nextHandle w]}) (S (nextHandle w))
             (<[key := mkHeldLock 1 (nextHandle w) lockPath]> (HELD_LOCKS w))
             (cleanupRegistered w) (clock w)
             (fsLog w ++ [OpOpenWx lockPath; OpWriteFile (nextHandle w)]),
     Acquired).
Proof.
  intros Hf Hd. unfold attemptOnce. rewrite Hf, Hd.
  cbn [logOp fsLog]. now rewrite <- app_assoc.
Qed.

(** Where [acquireSessionWriteLock] enters its loop. *)
Lemma acquire_enters_loop fuel origin sessionFile opt_timeoutMs opt_staleMs w wd :
  let sessionDir := path_dirname sessionFile in
  let key := path_join (default sessionDir (fs_realpath sessionDir))
                       (path_basename sessionFile) in
  fs_mkdir sessionDir w = Some wd ->
  HELD_LOCKS w !! key = None ->
  acquire' fuel origin sessionFile opt_timeoutMs opt_staleMs w
  = acquireLoop' fuel origin key (withLockSuffix key)
                 (default (Num 10000) opt_timeoutMs)
                 (default (Num (30 * 60 * 1000)) opt_staleMs)
                 (clock w) 0
                 (logOp (OpRealpath sessionDir) (registerCleanupHandlers wd)).
Proof.
  intros sessionDir key Hmk Hheld.
  unfold acquireSessionWriteLock, canonicalPath. fold sessionDir.
  unfold fs_mkdir in *.
  change (isRegFile (registerCleanupHandlers w)) with (isRegFile w).
  destruct (existsb (isRegFile w) (ancestors sessionDir)); [discriminate |].
  injection Hmk as <-.
  cbn [logOp set_files registerCleanupHandlers HELD_LOCKS files clock]. fold key.
  rewrite Hheld. reflexivity.
Qed.

Lemma mkdir_facts dir w wd :
  fs_mkdir dir w = Some wd ->
  HELD_LOCKS wd = HELD_LOCKS w /\ openHandles wd = openHandles w
  /\ nextHandle wd = nextHandle w /\ clock wd = clock w
  /\ cleanupRegistered wd = cleanupRegistered w
  /\ fsLog wd = fsLog w ++ [OpMkdir dir].
Proof.
  unfold fs_mkdir. destruct (existsb _ _); [discriminate |].
  intros [= <-]. repeat split.
Qed.


Lemma num_lt_elapsed_0 (w0 w : World) (t : JsNumber) :
  clock w0 = clock w -> num_lt (Num 0) t = true ->
  num_lt (Num (clock w0 - clock w)) t = true.
Proof. intros -> H. now rewrite Z.sub_diag. Qed.

(** The loop on a path that is free or whose lock file is reclaimed. *)
Lemma acquireLoop_free fuel origin key lockPath timeoutMs staleMs startedAt
    attempt w :
  num_lt (Num (clock w - startedAt)) timeoutMs = true ->
  isDirectory w (path_dirname lockPath) = true ->
  lockPath <> [] ->
  (files w !! lockPath = None
   \/ exists body, files w !! lockPath = Some (RegFile body)
                   /\ reclaimed process_kill0 Date_parse w lockPath staleMs = true) ->
  exists log,
    acquireLoop' (S (S fuel)) origin key lockPath timeoutMs staleMs startedAt
                 attempt w
    = (mkWorld (<[lockPath := ownLock (clock w)]> (files w))
               (openHandles w ∪ {[nextHandle w]}) (S (nextHandle w))
               (<[key := mkHeldLock 1 (nextHandle w) lockPath]> (HELD_LOCKS w))
               (cleanupRegistered w) (clock w) (fsLog w ++ log),
       Ok (mkRelease key origin)).
Proof.
  intros Ht Hd Hne [Hf | (body & Hf & Hr)].
  - exists [OpOpenWx lockPath; OpWriteFile (nextHandle w)].
    cbn [acquireLoop]. rewrite Ht.
    now rewrite (attemptOnce_absent key lockPath staleMs (attempt + 1) w Hf Hd).
  - exists [OpOpenWx lockPath; OpReadFile lockPath; OpRm lockPath;
            OpOpenWx lockPath; OpWriteFile (nextHandle w)].
    cbn [acquireLoop]. rewrite Ht.
    rewrite (attemptOnce_existing process_pid process_kill0 Date_parse
               Date_toISOString key lockPath staleMs (attempt + 1) w _ Hf).
    cbn zeta. rewrite Hr. unfold fs_rm. cbn [logOp files]. rewrite Hf.
    set (w4 := set_files _ _).
    assert (Hc : clock w4 = clock w) by reflexivity.
    rewrite Hc, Ht.
    rewrite (attemptOnce_absent key lockPath staleMs (attempt + 1 + 1) w4).
    + unfold w4. cbn [set_files logOp files openHandles nextHandle HELD_LOCKS
                      cleanupRegistered clock fsLog].
      rewrite insert_delete_eq. rewrite <- !app_assoc. reflexivity.
    + unfold w4. cbn [set_files files]. apply lookup_delete_eq.
    + unfold w4.
      change (isDirectory (set_files (delete lockPath (files w))
                (logOp (OpRm lockPath)
                   (logOp (OpReadFile lockPath) (logOp (OpOpenWx lockPath) w))))
                (path_dirname lockPath))
        with (isDirectory (set_files (delete lockPath (files w)) w)
                (path_dirname lockPath)).
      rewrite isDirectory_delete; [exact Hd |].
      intros E. symmetry in E. now apply dirname_neq in E.
Qed.

(** X12: when the process does not hold the lock and there is no lock
    file, or one that the loop reclaims, [acquireSessionWriteLock] with a
    positive timeout succeeds without sleeping: the clock is where it was,
    the lock file holds the pid of this process and the time of the call,
    the table has the key with count 1 and a new open handle, and the
    cleanup handlers are registered. Reading the lock file back gives the
    payload that was written. *)
Theorem X12_acquire_uncontended fuel origin sessionFile opt_timeoutMs opt_staleMs
    w wd :
  let sessionDir := path_dirname sessionFile in
  let key := path_join (default sessionDir (fs_realpath sessionDir))
                       (path_basename sessionFile) in
  let lockPath := withLockSuffix key in
  let staleMs := default (Num (30 * 60 * 1000)) opt_staleMs in
  fs_mkdir sessionDir w = Some wd ->
  HELD_LOCKS w !! key = None ->
  isDirectory wd (path_dirname lockPath) = true ->
  (files wd !! lockPath = None
   \/ exists body, files wd !! lockPath = Some (RegFile body)
                   /\ reclaimed process_kill0 Date_parse wd lockPath staleMs = true) ->
  num_lt (Num 0) (default (Num 10000) opt_timeoutMs) = true ->
  let out := acquire' (S (S fuel)) origin sessionFile opt_timeoutMs opt_staleMs w in
  snd out = Ok (mkRelease key origin)
  /\ files (fst out) = <[lockPath := ownLock (clock w)]> (files wd)
  /\ HELD_LOCKS (fst out)
     = <[key := mkHeldLock 1 (nextHandle w) lockPath]> (HELD_LOCKS w)
  /\ openHandles (fst out) = openHandles w ∪ {[nextHandle w]}
  /\ nextHandle (fst out) = S (nextHandle w)
  /\ clock (fst out) = clock w
  /\ cleanupRegistered (fst out) = true
  /\ snd (readLockPayload lockPath (fst out))
     = Some (mkPayload (Num process_pid) (Date_toISOString (clock w))).
Proof.
  intros sessionDir key lockPath staleMs Hmk Hheld Hdir Hfree Htime out.
  destruct (mkdir_facts _ _ _ Hmk) as (Hh & Ho & Hn & Hc & _ & _).
  unfold out.
  rewrite (acquire_enters_loop (S (S fuel)) origin sessionFile opt_timeoutMs
             opt_staleMs w wd Hmk Hheld).
  fold sessionDir key lockPath staleMs.
  set (w0 := logOp (OpRealpath sessionDir) (registerCleanupHandlers wd)).
  destruct (acquireLoop_free fuel origin key lockPath
              (default (Num 10000) opt_timeoutMs) staleMs (clock w) 0 w0)
    as [log ->].
  - apply num_lt_elapsed_0; [exact Hc | exact Htime].
  - exact Hdir.
  - apply withLockSuffix_nonempty.
  - exact Hfree.
  - cbn [fst snd files HELD_LOCKS openHandles nextHandle clock cleanupRegistered].
    unfold w0, readLockPayload.
    cbn [snd logOp registerCleanupHandlers files HELD_LOCKS openHandles
         nextHandle clock].
    rewrite Hh, Ho, Hn, Hc, lookup_insert_eq. repeat split.
Qed.


(** X13: releasing right after such an acquisition undoes it: the lock
    file is gone, the table is what it was before the acquisition, the
    handle is closed, and calling the same release closure again does
    nothing. *)
Theorem X13_acquire_release_roundtrip fuel origin sessionFile opt_timeoutMs
    opt_staleMs w wd :
  let sessionDir := path_dirname sessionFile in
  let key := path_join (default sessionDir (fs_realpath sessionDir))
                       (path_basename sessionFile) in
  let lockPath := withLockSuffix key in
  let staleMs := default (Num (30 * 60 * 1000)) opt_staleMs in
  fs_mkdir sessionDir w = Some wd ->
  HELD_LOCKS w !! key = None ->
  isDirectory wd (path_dirname lockPath) = true ->
  (files wd !! lockPath = None
   \/ exists body, files wd !! lockPath = Some (RegFile body)
                   /\ reclaimed process_kill0 Date_parse wd lockPath staleMs = true) ->
  num_lt (Num 0) (default (Num 10000) opt_timeoutMs) = true ->
  let out := acquire' (S (S fuel)) origin sessionFile opt_timeoutMs opt_staleMs w in
  let back := release (mkRelease key origin) (fst out) in
  snd back = None
  /\ files (fst back) = delete lockPath (files wd)
  /\ HELD_LOCKS (fst back) = HELD_LOCKS w
  /\ openHandles (fst back) = openHandles w ∖ {[nextHandle w]}
  /\ fsLog (fst back)
     = fsLog (fst out) ++ [OpClose (nextHandle w); OpRm lockPath]
  /\ release (mkRelease key origin) (fst back) = (fst back, None).
Proof.
  intros sessionDir key lockPath staleMs Hmk Hheld Hdir Hfree Htime out back.
  destruct (mkdir_facts _ _ _ Hmk) as (Hh & Ho & Hn & Hc & _ & _).
  assert (Hout : exists log,
            fst out
            = mkWorld (<[lockPath := ownLock (clock w)]> (files wd))
                      (openHandles w ∪ {[nextHandle w]}) (S (nextHandle w))
                      (<[key := mkHeldLock 1 (nextHandle w) lockPath]>
                         (HELD_LOCKS w))
                      true (clock w) (fsLog wd ++ log)).
  { unfold out.
    rewrite (acquire_enters_loop (S (S fuel)) origin sessionFile opt_timeoutMs
               opt_staleMs w wd Hmk Hheld).
    fold sessionDir key lockPath staleMs.
    set (w0 := logOp (OpRealpath sessionDir) (registerCleanupHandlers wd)).
    destruct (acquireLoop_free fuel origin key lockPath
                (default (Num 10000) opt_timeoutMs) staleMs (clock w) 0 w0)
      as [log ->].
    - apply num_lt_elapsed_0; [exact Hc | exact Htime].
    - exact Hdir.
    - apply withLockSuffix_nonempty.
    - exact Hfree.
    - exists (OpRealpath sessionDir :: log). cbn [fst]. unfold w0.
      cbn [logOp registerCleanupHandlers files HELD_LOCKS openHandles
           nextHandle clock cleanupRegistered fsLog].
      rewrite Hh, Ho, Hn, Hc, <- app_assoc. reflexivity. }
  destruct Hout as [log Hout].
  set (cur := mkHeldLock 1 (nextHandle w) lockPath).
  assert (Hcur : HELD_LOCKS (fst out) !! rel_sessionFile (mkRelease key origin)
                 = Some cur).
  { rewrite Hout. cbn [HELD_LOCKS rel_sessionFile]. apply lookup_insert_eq. }
  destruct (release_unfold (mkRelease key origin) (fst out) cur Hcur)
    as [_ Hlast].
  unfold back. rewrite Hlast.
  - cbn [fst snd files HELD_LOCKS openHandles fsLog cur count handle
         SessionWriteLock.lockPath rel_sessionFile].
    rewrite Hout.
    cbn [files HELD_LOCKS openHandles fsLog nextHandle cleanupRegistered clock].
    rewrite delete_insert_eq, (delete_insert_id _ _ _ Hheld).
    split; [reflexivity |]. split; [reflexivity |]. split; [reflexivity |].
    split; [| split; [reflexivity |]].
    + apply set_eq. intros x.
      rewrite !elem_of_difference, elem_of_union, elem_of_singleton. tauto.
    +
 unfold release. cbn [rel_sessionFile HELD_LOCKS]. now rewrite Hheld.
  - cbn [cur count]. lia.
  - rewrite Hout. cbn [files cur SessionWriteLock.lockPath].
    rewrite lookup_insert_eq. discriminate.
Qed.

Lemma num_gt_mono (a b : Z) (s : JsNumber) :
  a <= b -> num_gt (Num b) s = false -> num_gt (Num a) s = false.
Proof.
  intros Hab. unfold num_gt. destruct s as [z| | |]; cbn; try reflexivity;
    try discriminate.
  intros H. apply Z.ltb_ge in H. apply Z.ltb_ge. lia.
Qed.

Lemma delay_bounds (attempt : Z) :
  0 <= attempt -> 50 <= Z.min 1000 (50 * (attempt + 1)) <= 1000.
Proof. lia. Qed.

(** The loop against a lock file of a live process that does not go
    stale before the timeout. *)
Lemma acquireLoop_contended origin key lockPath (t : Z) staleMs startedAt
    (p created : Z) (c : string) :
  truthy_str c = true -> Date_parse c = Num created ->
  isAlive process_kill0 (Num p) = true ->
  num_gt (Num (startedAt + t - created)) staleMs = false ->
  forall fuel attempt w,
    files w !! lockPath
    = Some (RegFile (JsonObject (VNumber (Num p)) (VString c))) ->
    0 <= attempt ->
    t - (clock w - startedAt) <= 50 * Z.of_nat fuel ->
    exists w',
      acquireLoop' fuel origin key lockPath (Num t) staleMs startedAt attempt w
      = (w', Rejected (LockedError
                         (lockedMessage (Num t) (Some (mkPayload (Num p) c))
                                        lockPath)))
      /\ files w' = files w /\ HELD_LOCKS w' = HELD_LOCKS w
      /\ openHandles w' = openHandles w /\ nextHandle w' = nextHandle w
      /\ startedAt + t <= clock w'
      /\ (clock w' = clock w \/ clock w' < startedAt + t + 1000).
Proof.
  intros Hc Hparse Halive Hfresh.
  induction fuel as [|fuel IH]; intros attempt w Hfile Hatt Hfuel.
  - assert (Hg : num_lt (Num (clock w - startedAt)) (Num t) = false).
    { cbn. apply Z.ltb_ge. lia. }
    rewrite (acquireLoop_timed_out _ _ _ _ _ _ _ _ _ _ _ _ _ Hg), Hfile.
    eexists. split; [reflexivity |]. cbn [logOp clock files HELD_LOCKS
                                          openHandles nextHandle].
    repeat split; [| now left]. cbn in Hg. apply Z.ltb_ge in Hg. lia.
  - destruct (num_lt (Num (clock w - startedAt)) (Num t)) eqn:Hg.
    + cbn [acquireLoop]. rewrite Hg.
      rewrite (attemptOnce_existing process_pid process_kill0 Date_parse
                 Date_toISOString key lockPath staleMs (attempt + 1) w _ Hfile).
      cbn zeta. cbn in Hg. apply Z.ltb_lt in Hg.
      assert (Hnot : reclaimed process_kill0 Date_parse w lockPath staleMs = false).
      { unfold reclaimed. rewrite Hfile. cbn [parsePayload createdAt pid].
        rewrite Hc, Hparse, Halive. cbn [negb isFinite orb num_sub].
        apply (num_gt_mono _ (startedAt + t - created)); [lia | exact Hfresh]. }
      rewrite Hnot.
      pose proof (delay_bounds attempt Hatt) as Hd.
      set (delay := Z.min 1000 (50 * (attempt + 1))) in *.
      set (w2 := sleep delay _).
      destruct (IH (attempt + 1) w2) as (w' & -> & Hf & Hh & Ho & Hn & Hlo & Hhi).
      * exact Hfile.
      * lia.
      * unfold w2. cbn [sleep logOp clock]. lia.
      * exists w'. split; [reflexivity |].
        unfold w2 in *. cbn [sleep logOp clock files HELD_LOCKS openHandles
                             nextHandle] in *.
        repeat split; try assumption. right. lia.
    + rewrite (acquireLoop_timed_out _ _ _ _ _ _ _ _ _ _ _ _ _ Hg), Hfile.
      eexists. split; [reflexivity |]. cbn [logOp clock files HELD_LOCKS
                                            openHandles nextHandle].
      repeat split; [| now left]. cbn in Hg. apply Z.ltb_ge in Hg. lia.
Qed.

(** X14: while another live process holds a lock file that does not go
    stale before the timeout, [acquireSessionWriteLock] never takes the
    lock: it rejects with the locked error that names that process, after
    at least the timeout and less than one second more, and it leaves the
    lock file, the table and the handles as they were. *)
Theorem X14_acquire_contended fuel origin sessionFile opt_staleMs w wd
    (t p created : Z) (c : string) :
  let sessionDir := path_dirname sessionFile in
  let key := path_join (default sessionDir (fs_realpath sessionDir))
                       (path_basename sessionFile) in
  let lockPath := withLockSuffix key in
  let staleMs := default (Num (30 * 60 * 1000)) opt_staleMs in
  fs_mkdir sessionDir w = Some wd ->
  HELD_LOCKS w !! key = None ->
  files wd !! lockPath
  = Some (RegFile (JsonObject (VNumber (Num p)) (VString c))) ->
  truthy_str c = true -> Date_parse c = Num created ->
  isAlive process_kill0 (Num p) = true ->
  num_gt (Num (clock w + t - created)) staleMs = false ->
  t <= 50 * Z.of_nat fuel ->
  let out := acquire' fuel origin sessionFile (Some (Num t)) opt_staleMs w in
  snd out
  = Rejected (LockedError (lockedMessage (Num t) (Some (mkPayload (Num p) c))
                                         lockPath))
  /\ files (fst out) = files wd
  /\ HELD_LOCKS (fst out) = HELD_LOCKS w
  /\ openHandles (fst out) = openHandles w
  /\ clock w + t <= clock (fst out)
  /\ clock (fst out) < clock w + Z.max 0 t + 1000.
Proof.
  intros sessionDir key lockPath staleMs Hmk Hheld Hfile Hc Hparse Halive
         Hfresh Hfuel out.
  destruct (mkdir_facts _ _ _ Hmk) as (Hh & Ho & Hn & Hcl & _ & _).
  unfold out.
  rewrite (acquire_enters_loop fuel origin sessionFile (Some (Num t))
             opt_staleMs w wd Hmk Hheld).
  fold sessionDir key lockPath staleMs.
  change (default (Num 10000) (Some (Num t))) with (Num t).
  set (w0 := logOp (OpRealpath sessionDir) (registerCleanupHandlers wd)).
  destruct (acquireLoop_contended origin key lockPath t staleMs (clock w)
              p created c Hc Hparse Halive Hfresh fuel 0 w0)
    as (w' & -> & Hf' & Hh' & Ho' & _ & Hlo & Hhi).
  - exact Hfile.
  - lia.
  - unfold w0. cbn [logOp registerCleanupHandlers clock]. lia.
  - cbn [fst snd]. unfold w0 in *.
    cbn [logOp registerCleanupHandlers files HELD_LOCKS openHandles clock] in *.
    repeat split; try congruence; lia.
Qed.


(** An attempt that does not end the loop leaves the clock alone and the
    lock file gone, or sleeps at least 50ms and at most one second. *)
Lemma attemptOnce_progress key lockPath staleMs attempt w :
  0 <= attempt ->
  match attemptOnce' key lockPath staleMs (attempt + 1) w with
  | (w1, RetryNow) => clock w1 = clock w /\ files w1 !! lockPath = None
  | (w1, RetryAfter delay) => clock w1 = clock w /\ 50 <= delay <= 1000
  | _ => True
  end.
Proof.
  intros Hatt. destruct (files w !! lockPath) as [node|] eqn:Hf.
  - rewrite (attemptOnce_existing process_pid process_kill0 Date_parse
               Date_toISOString key lockPath staleMs (attempt + 1) w _ Hf).
    cbn zeta. destruct (reclaimed _ _ _ _ _).
    + unfold fs_rm. cbn [logOp files]. rewrite Hf. destruct node; [| exact I].
      cbn [set_files clock files]. split; [reflexivity | apply lookup_delete_eq].
    + split; [reflexivity | now apply delay_bounds].
  - unfold attemptOnce. rewrite Hf. now destruct (isDirectory _ _).
Qed.

(** The loop settles when its fuel covers one attempt per 50ms of the
    time left, and one more. *)
Lemma acquireLoop_settles origin key lockPath (t : Z) staleMs startedAt :
  forall fuel attempt w,
    0 <= attempt ->
    (t - (clock w - startedAt) <= 50 * (Z.of_nat fuel - 1)
     \/ (files w !! lockPath = None /\ (1 <= fuel)%nat)) ->
    let out := acquireLoop' fuel origin key lockPath (Num t) staleMs startedAt
                            attempt w in
    snd out <> OutOfFuel
    /\ clock w <= clock (fst out)
    /\ (clock (fst out) = clock w \/ clock (fst out) < startedAt + t + 1000).
Proof.
  induction fuel as [|fuel IH]; intros attempt w Hatt Hfuel out; unfold out.
  - destruct Hfuel as [Hfuel | [_ Hfuel]]; [| lia].
    assert (Hg : num_lt (Num (clock w - startedAt)) (Num t) = false).
    { cbn. apply Z.ltb_ge. lia. }
    rewrite (acquireLoop_timed_out _ _ _ _ _ _ _ _ _ _ _ _ _ Hg).
    cbn [fst snd logOp clock]. split; [discriminate |]. split; [lia | now left].
  - destruct (num_lt (Num (clock w - startedAt)) (Num t)) eqn:Hg.
    2:{ rewrite (acquireLoop_timed_out _ _ _ _ _ _ _ _ _ _ _ _ _ Hg).
        cbn [fst snd logOp clock]. split; [discriminate |].
        split; [lia | now left]. }
    cbn [acquireLoop]. rewrite Hg.
    pose proof (attemptOnce_progress key lockPath staleMs attempt w Hatt) as Hp.
    assert (Habsent : files w !! lockPath = None ->
              match snd (attemptOnce' key lockPath staleMs (attempt + 1) w) with
              | Acquired | Thrown _ => True
              | _ => False
              end).
    { intros Hf. unfold attemptOnce. rewrite Hf.
      now destruct (isDirectory _ _). }
    assert (Hsame : match attemptOnce' key lockPath staleMs (attempt + 1) w with
                    | (w1, Acquired) | (w1, Thrown _) => clock w1 = clock w
                    | _ => True
                    end).
    { destruct (files w !! lockPath) as [node|] eqn:Hf.
      - rewrite (attemptOnce_existing process_pid process_kill0 Date_parse
                   Date_toISOString key lockPath staleMs (attempt + 1) w _ Hf).
        cbn zeta. destruct (reclaimed _ _ _ _ _); [| exact I].
        unfold fs_rm. cbn [logOp files]. rewrite Hf. now destruct node.
      - unfold attemptOnce. rewrite Hf. now destruct (isDirectory _ _). }
    cbn in Hg. apply Z.ltb_lt in Hg.
    destruct (attemptOnce' key lockPath staleMs (attempt + 1) w)
      as [w1 [ | e | | delay]] eqn:Ea; cbn [fst snd] in *.
    + split; [discriminate |]. split; [lia | now left].
    + split; [discriminate |]. split; [lia | now left].
    + destruct Hp as [Hc Hgone].
      destruct (IH (attempt + 1) w1) as (Hne & Hlo & Hhi).
      * lia.
      * right. split; [exact Hgone |].
        destruct Hfuel as [Hfuel | [Hf _]]; [lia |].
        now specialize (Habsent Hf).
      * cbn zeta in Hne, Hlo, Hhi. split; [exact Hne |].
        rewrite Hc in Hlo, Hhi. split; assumption.
    + destruct Hp as [Hc Hdelay].
      destruct (IH (attempt + 1) (sleep delay w1)) as (Hne & Hlo & Hhi).
      * lia.
      * destruct Hfuel as [Hfuel | [Hf _]].
        -- left. cbn [sleep clock]. lia.
        -- now specialize (Habsent Hf).
      * cbn zeta in Hne, Hlo, Hhi. split; [exact Hne |].
        cbn [sleep clock] in Hlo, Hhi. split; [lia | right; lia].
Qed.

(** X15: with a finite timeout the acquisition always settles, within
    one attempt per 50ms of the timeout and one more, and in less than the
    timeout plus one second on the clock: a retry either follows the
    deletion of the lock file, and then creates it or throws, or comes
    after a sleep of at least 50ms. *)
Theorem X15_acquire_settles fuel origin sessionFile opt_timeoutMs opt_staleMs w
    (t : Z) :
  default (Num 10000) opt_timeoutMs = Num t ->
  t <= 50 * (Z.of_nat fuel - 1) ->
  let out := acquireSessionWriteLock process_pid process_kill0 fs_realpath
               Date_parse Date_toISOString fuel origin sessionFile
               opt_timeoutMs opt_staleMs w in
  snd out <> OutOfFuel
  /\ clock w <= clock (fst out) < clock w + Z.max 0 t + 1000.
Proof.
  intros Ht Hfuel out. unfold out, acquireSessionWriteLock.
  destruct (canonicalPath fs_realpath sessionFile (registerCleanupHandlers w))
    as [[w1 key]|] eqn:Hcan.
  2:{ cbn [fst snd logOp clock registerCleanupHandlers].
      split; [discriminate | lia]. }
  assert (Hc : clock w1 = clock w).
  { unfold canonicalPath in Hcan.
    destruct (fs_mkdir _ _) as [wd|] eqn:Hmk; [| discriminate].
    injection Hcan as <- _. destruct (mkdir_facts _ _ _ Hmk) as (_ & _ & _ & Hc & _).
    exact Hc. }
  destruct (HELD_LOCKS w1 !! key) as [held|].
  - cbn [fst snd set_held clock]. split; [discriminate | lia].
  - rewrite Ht.
    destruct (acquireLoop_settles origin key (withLockSuffix key) t
                (default (Num (30 * 60 * 1000)) opt_staleMs) (clock w1)
                fuel 0 w1) as (Hne & Hlo & Hhi).
    + lia.
    + left. lia.
    + cbn zeta in Hne, Hlo, Hhi. split; [exact Hne | lia].
Qed.

(** X16: with a timeout that is not positive (0, negative or NaN) the
    body of the loop never runs: unless the process already holds the
    lock, the call rejects with the locked error even when no lock file
    exists; it creates nothing, and its only accesses to the file system
    are the mkdir, the realpath and the read of the lock file for the
    error text. *)
Theorem X16_acquire_without_time fuel origin sessionFile opt_timeoutMs opt_staleMs
    w wd :
  let sessionDir := path_dirname sessionFile in
  let key := path_join (default sessionDir (fs_realpath sessionDir))
                       (path_basename sessionFile) in
  let lockPath := withLockSuffix key in
  let timeoutMs := default (Num 10000) opt_timeoutMs in
  fs_mkdir sessionDir w = Some wd ->
  HELD_LOCKS w !! key = None ->
  num_lt (Num 0) timeoutMs = false ->
  let out := acquire' fuel origin sessionFile opt_timeoutMs opt_staleMs w in
  snd out
  = Rejected (LockedError
                (lockedMessage timeoutMs (parsePayload (files wd !! lockPath))
                               lockPath))
  /\ files (fst out) = files wd
  /\ HELD_LOCKS (fst out) = HELD_LOCKS w
  /\ openHandles (fst out) = openHandles w
  /\ fsLog (fst out)
     = fsLog w ++ [OpMkdir sessionDir; OpRealpath sessionDir; OpReadFile lockPath].
Proof.
  intros sessionDir key lockPath timeoutMs Hmk Hheld Htime out.
  destruct (mkdir_facts _ _ _ Hmk) as (Hh & Ho & Hn & Hc & _ & Hlog).
  unfold out.
  rewrite (acquire_enters_loop fuel origin sessionFile opt_timeoutMs
             opt_staleMs w wd Hmk Hheld).
  fold sessionDir key lockPath timeoutMs.
  rewrite acquireLoop_timed_out.
  - cbn [fst snd logOp registerCleanupHandlers files HELD_LOCKS openHandles
         fsLog].
    rewrite Hh, Ho, Hlog, <- !app_assoc. repeat split.
  - cbn [logOp registerCleanupHandlers clock]. rewrite Hc, Z.sub_diag.
    exact Htime.
Qed.

End LockMore.

Lemma X12_acquire_uncontended_witness :
  let w := worldOf emptyDisk in
  let out := acquireSessionWriteLock 100 kill0 realpath dateParse toISOString
               2 0 sessionA None None w in
  snd out = Ok (mkRelease sessionA 0%nat)
  /\ files (fst out) !! lockA = Some (payload 100 "2026-01-01T00:00:00.000Z")
  /\ clock (fst out) = clock w.
Proof.
  intros w out.
  destruct (X12_acquire_uncontended 100 kill0 realpath dateParse toISOString
              0 0 sessionA None None w (default w (fs_mkdir sessionsDir w)))
    as (Hres & Hfiles & _ & _ & _ & Hclock & _).
  - vm_compute. reflexivity.
  - vm_compute. reflexivity.
  - vm_compute. reflexivity.
  - left. vm_compute. reflexivity.
  - vm_compute. reflexivity.
  - split; [exact Hres |]. split; [| exact Hclock].
    unfold out. rewrite Hfiles. vm_compute. reflexivity.
Defined.

Lemma X13_acquire_release_roundtrip_witness :
  let w := worldOf emptyDisk in
  let out := acquireSessionWriteLock 100 kill0 realpath dateParse toISOString
               2 0 sessionA None None w in
  let back := release (mkRelease sessionA 0%nat) (fst out) in
  snd back = None /\ files (fst back) !! lockA = None
  /\ HELD_LOCKS (fst back) = HELD_LOCKS w.
Proof.
  intros w out back.
  destruct (X13_acquire_release_roundtrip 100 kill0 realpath dateParse
              toISOString 0 0 sessionA None None w
              (default w (fs_mkdir sessionsDir w)))
    as (Hres & Hfiles & Hheld & _).
  - vm_compute. reflexivity.
  - vm_compute. reflexivity.
  - vm_compute. reflexivity.
  - left. vm_compute. reflexivity.
  - vm_compute. reflexivity.
  - split; [exact Hres |]. split; [| exact Hheld].
    etransitivity;
      [exact (f_equal (fun disk => disk !! lockA) Hfiles)
      | vm_compute; reflexivity].
Defined.

Lemma X14_acquire_contended_witness :
  let out := acquireSessionWriteLock 100 kill0 realpath dateParse toISOString
               3 0 sessionA (Some (Num 120)) None contended in
  files (fst out) !! lockA = files contended !! lockA
  /\ clock contended + 120 <= clock (fst out).
Proof.
  intros out.
  destruct (X14_acquire_contended 100 kill0 realpath dateParse toISOString
              3 0 sessionA None contended
              (default contended (fs_mkdir sessionsDir contended))
              120 4242 1767225600000 "2026-01-01T00:00:00.000Z")
    as (_ & Hfiles & _ & _ & Hwait & _).
  - vm_compute. reflexivity.
  - vm_compute. reflexivity.
  - vm_compute. reflexivity.
  - reflexivity.
  - vm_compute. reflexivity.
  - vm_compute. reflexivity.
  - vm_compute. reflexivity.
  - vm_compute. discriminate.
  - split; [| exact Hwait].
    unfold out. rewrite Hfiles. vm_compute. reflexivity.
Defined.

Lemma X15_acquire_settles_witness :
  snd (acquireSessionWriteLock 100 kill0 realpath dateParse toISOString
         1000 0 sessionA None None contended) <> OutOfFuel.
Proof.
  destruct (X15_acquire_settles 100 kill0 realpath dateParse toISOString
              1000 0 sessionA None None contended 10000) as [Hne _].
  - reflexivity.
  - vm_compute. discriminate.
  - exact Hne.
Defined.

Lemma X16_acquire_without_time_witness :
  let w := worldOf emptyDisk in
  let out := acquireSessionWriteLock 100 kill0 realpath dateParse toISOString
               5 0 sessionA (Some (Num 0)) None w in
  snd out
  = Rejected (LockedError
                "session file locked (timeout 0ms): unknown /data/sessions/a.jsonl.lock")
  /\ HELD_LOCKS (fst out) = HELD_LOCKS w.
Proof.
  intros w out.
  destruct (X16_acquire_without_time 100 kill0 realpath dateParse toISOString
              5 0 sessionA (Some (Num 0)) None w
              (default w (fs_mkdir sessionsDir w)))
    as (Hres & _ & Hheld & _).
  - vm_compute. reflexivity.
  - vm_compute. reflexivity.
  - vm_compute. reflexivity.
  - split; [| exact Hheld].
    unfold out. rewrite Hres. vm_compute. reflexivity.
Defined.

(** What [releaseAllLocksSync] has done once it went through the entries
    [m] of the table, starting in [w]. *)
Lemma releaseAll_fold (w : World) :
  forall m : gmap Path HeldLock,
    let r := map_fold (fun sessionFile held acc =>
                let acc1 := closeHandle (handle held) acc in
                let acc2 := logOp (OpRmSync (lockPath held)) acc1 in
                let acc3 := default acc2 (fs_rm (lockPath held) acc2) in
                set_held (delete sessionFile (HELD_LOCKS acc3)) acc3) w m in
    HELD_LOCKS r = HELD_LOCKS w ∖ m
    /\ (forall p, files r !! p = None \/ files r !! p = files w !! p)
    /\ (forall k held, m !! k = Some held ->
          files w !! lockPath held <> Some Directory ->
          files r !! lockPath held = None)
    /\ (forall p, (forall k held, m !! k = Some held -> lockPath held <> p) ->
          files r !! p = files w !! p)
    /\ (forall h, h ∈ openHandles r <->
                  h ∈ openHandles w
                  /\ forall k held, m !! k = Some held -> handle held <> h)
    /\ clock r = clock w /\ nextHandle r = nextHandle w.
Proof.
  intros m. cbn zeta.
  apply (map_fold_weak_ind
           (fun r (m : gmap Path HeldLock) =>
              HELD_LOCKS r = HELD_LOCKS w ∖ m
              /\ (forall p, files r !! p = None \/ files r !! p = files w !! p)
              /\ (forall k held, m !! k = Some held ->
                    files w !! lockPath held <> Some Directory ->
                    files r !! lockPath held = None)
              /\ (forall p, (forall k held, m !! k = Some held ->
                               lockPath held <> p) ->
                    files r !! p = files w !! p)
              /\ (forall h, h ∈ openHandles r <->
                            h ∈ openHandles w
                            /\ forall k held, m !! k = Some held ->
                                              handle held <> h)
              /\ clock r = clock w /\ nextHandle r = nextHandle w)).
  - split; [now rewrite map_difference_empty |].
    split; [now right |]. split; [intros k held H; now rewrite lookup_empty in H |].
    split; [reflexivity |]. split; [| split; reflexivity].
    intros h. split; [intros H; split; [exact H |] | now intros [H _]].
    intros k held Hk. now rewrite lookup_empty in Hk.
  - intros i x m0 r Hi (Hheld & Hsub & Hgone & Hkeep & Hopen & Hclock & Hnext).
    set (acc2 := logOp (OpRmSync (lockPath x)) (closeHandle (handle x) r)).
    assert (Hfiles : files (default acc2 (fs_rm (lockPath x) acc2))
                     = match files r !! lockPath x with
                       | Some Directory => files r
                       | _ => delete (lockPath x) (files r)
                       end).
    { unfold fs_rm. cbn [acc2 logOp closeHandle files].
      destruct (files r !! lockPath x) as [[b|]|]; reflexivity. }
    assert (Hrest : HELD_LOCKS (default acc2 (fs_rm (lockPath x) acc2))
                    = HELD_LOCKS r
                    /\ openHandles (default acc2 (fs_rm (lockPath x) acc2))
                       = openHandles r ∖ {[handle x]}
                    /\ clock (default acc2 (fs_rm (lockPath x) acc2)) = clock r
                    /\ nextHandle (default acc2 (fs_rm (lockPath x) acc2))
                       = nextHandle r).
    { unfold fs_rm. cbn [acc2 logOp closeHandle files].
      destruct (files r !! lockPath x) as [[b|]|]; repeat split. }
    destruct Hrest as (Hh3 & Ho3 & Hc3 & Hn3).
    set (a3 := default acc2 (fs_rm (lockPath x) acc2)) in *.
    cbn [set_held HELD_LOCKS files openHandles clock nextHandle].
    rewrite Hh3, Hfiles, Ho3, Hc3, Hn3.
    split; [rewrite Hheld; apply delete_difference |].
    split; [| split; [| split; [| split; [| split; assumption]]]].
    + intros p. destruct (files r !! lockPath x) as [[b|]|] eqn:Ef;
        try apply Hsub;
        (destruct (decide (p = lockPath x)) as [->|Hne];
         [left; apply lookup_delete_eq | rewrite lookup_delete_ne by congruence;
                                         apply Hsub]).
    + intros k held Hk Hnd. rewrite lookup_insert in Hk.
      case_decide as E.
      * injection Hk as <-.
        destruct (Hsub (lockPath x)) as [Hn | He].
        -- rewrite Hn. apply lookup_delete_eq.
        -- destruct (files r !! lockPath x) as [[b|]|] eqn:Ef;
             try apply lookup_delete_eq. congruence.
      * specialize (Hgone k held Hk Hnd).
        destruct (files r !! lockPath x) as [[b|]|] eqn:Ef; try exact Hgone;
          (destruct (decide (lockPath held = lockPath x)) as [->|Hne];
           [apply lookup_delete_eq | now rewrite lookup_delete_ne by congruence]).
    + intros p Hp.
      assert (Hpx : lockPath x <> p).
      { apply (Hp i). apply lookup_insert_eq. }
      assert (Hold : files r !! p = files w !! p).
      { apply Hkeep. intros k held Hk. apply (Hp k).
        rewrite lookup_insert_ne; [exact Hk |]. intros <-. congruence. }
      destruct (files r !! lockPath x) as [[b|]|] eqn:Ef; try exact Hold;
        now rewrite lookup_delete_ne.
    + intros h. rewrite elem_of_difference, elem_of_singleton, Hopen. split.
      * intros [[Hw Hm] Hx]. split; [exact Hw |].
        intros k held Hk. rewrite lookup_insert in Hk. case_decide.
        -- injection Hk as <-. congruence.
        -- now apply (Hm k).
      * intros [Hw Hm]. split; [split; [exact Hw |] |].
        -- intros k held Hk. apply (Hm k).
           rewrite lookup_insert_ne; [exact Hk |]. intros <-. congruence.
        -- intros ->. apply (Hm i x); [apply lookup_insert_eq | reflexivity].
Qed.

(** X17: [releaseAllLocksSync] empties the table: the handle of every
    held lock is closed and its lock file deleted (unless the path is a
    directory), no other file and no other handle is touched, and every
    release closure called afterwards does nothing. *)
Theorem X17_release_all_releases (w : World) :
  let out := releaseAllLocksSync w in
  HELD_LOCKS out = ∅
  /\ (forall key held, HELD_LOCKS w !! key = Some held ->
        (handle held ∉ openHandles out)
        /\ (files w !! lockPath held <> Some Directory ->
            files out !! lockPath held = None))
  /\ (forall p, (forall key held, HELD_LOCKS w !! key = Some held ->
                   lockPath held <> p) ->
        files out !! p = files w !! p)
  /\ (forall h, (forall key held, HELD_LOCKS w !! key = Some held ->
                   handle held <> h) ->
        (h ∈ openHandles out <-> h ∈ openHandles w))
  /\ (forall rel, release rel out = (out, None)).
Proof.
  intros out.
  destruct (releaseAll_fold w (HELD_LOCKS w))
    as (Hheld & _ & Hgone & Hkeep & Hopen & _ & _).
  cbn zeta in *. fold (releaseAllLocksSync w) in *. fold out in Hheld, Hgone, Hkeep, Hopen.
  rewrite map_difference_diag in Hheld.
  split; [exact Hheld |]. split; [| split; [exact Hkeep | split]].
  - intros key held Hk. split.
    + rewrite Hopen. intros [_ H]. now apply (H key held).
    + now apply (Hgone key).
  - intros h Hh. rewrite Hopen. tauto.
  - intros rel. unfold release. now rewrite Hheld, lookup_empty.
Qed.

Section SweepMore.

Variable process_kill0 : Z -> KillResult.
Variable directory : Path.

Local Abbreviation sweep := (cleanupOrphanedLocks process_kill0 directory).

(** The files, the table and the count after a sweep of a readable
    directory. *)
Lemma sweep_outcome w :
  isDirectory w directory = true ->
  let out := sweep w in
  (forall p, files (fst out) !! p
             = if isOrphanLock process_kill0 w directory p then None
               else files w !! p)
  /\ HELD_LOCKS (fst out) = HELD_LOCKS w
  /\ Z.of_nat (size (files w)) = Z.of_nat (size (files (fst out))) + snd out
  /\ 0 <= snd out.
Proof.
  intros Hdir out.
  destruct (fs_readdir directory w) as [entries|] eqn:Hread.
  2:{ unfold fs_readdir in Hread. now rewrite Hdir in Hread. }
  destruct (readdir_entries directory w entries Hread) as [Hnd Hentries].
  unfold out, cleanupOrphanedLocks. rewrite Hread.
  set (names := filter (fun name => endsWith name ".lock" = true) entries).
  assert (Hnames : forall n, In n names <->
                             In n entries /\ endsWith n ".lock" = true).
  { intros n. unfold names. now rewrite <- !list_elem_of_In, list_elem_of_filter. }
  destruct (sweep_spec process_kill0 directory names
              (logOp (OpReaddir directory) w) 0)
    as (Hheld & Hdel & Hkeep & Hcount & Hsize).
  { now apply NoDup_filter. }
  { intros n Hn. apply Hnames in Hn as [Hin He]. split; [exact He |].
    now apply Hentries. }
  cbn zeta in Hheld, Hdel, Hkeep, Hcount, Hsize.
  unfold orphanName in Hdel, Hkeep.
  cbn [logOp files] in Hsize.
  split; [| split; [exact Hheld | split; rewrite Hcount; lia]].
  intros p.
  change (isOrphanLock process_kill0 w directory p)
    with (isOrphanLock process_kill0 (logOp (OpReaddir directory) w) directory p).
  destruct (isOrphanLock _ _ directory p) eqn:Ho.
  - assert (Hparts : p = directory ++ [List.last p EmptyString]
                     /\ endsWith (List.last p EmptyString) ".lock" = true
                     /\ is_Some (files w !! p)).
    { unfold isOrphanLock in Ho. destruct p as [|seg p]; [discriminate |].
      rewrite !andb_true_iff, bool_decide_eq_true in Ho.
      destruct Ho as [[[Hparent He] _] Hfile].
      split; [| split; [exact He |]].
      - rewrite <- Hparent. now apply app_removelast_last.
      - cbn [logOp files] in Hfile.
        destruct (files w !! (seg :: p)); [eauto | discriminate]. }
    destruct Hparts as (Hp & He & Hsome). rewrite Hp. apply Hdel.
    + apply Hnames. split; [| exact He]. apply Hentries. now rewrite <- Hp.
    + now rewrite <- Hp.
  - rewrite Hkeep; [reflexivity |]. intros n Hn Hon ->. congruence.
Qed.

(** A file that [isOrphanLock] names is a regular file. *)
Lemma isOrphanLock_regular w p :
  isOrphanLock process_kill0 w directory p = true ->
  exists body, files w !! p = Some (RegFile body).
Proof.
  unfold isOrphanLock. destruct p as [|seg p]; [discriminate |].
  rewrite !andb_true_iff. intros [_ Hfile].
  destruct (files w !! (seg :: p)) as [[body|]|]; eauto; discriminate.
Qed.

Lemma isOrphanLock_ext w w' p :
  HELD_LOCKS w' = HELD_LOCKS w -> files w' !! p = files w !! p ->
  isOrphanLock process_kill0 w' directory p
  = isOrphanLock process_kill0 w directory p.
Proof. intros Hh Hf. unfold isOrphanLock. now rewrite Hh, Hf. Qed.

Lemma sweep_unreadable w :
  isDirectory w directory = false -> sweep w = (logOp (OpReaddir directory) w, 0).
Proof.
  intros Hdir. unfold cleanupOrphanedLocks, fs_readdir. now rewrite Hdir.
Qed.

(** X18: [cleanupOrphanedLocks] is idempotent: a second sweep of the
    same directory removes nothing and returns 0, and after the sweep of a
    readable directory none of its files is an orphaned lock. *)
Theorem X18_sweep_idempotent w :
  let once := sweep w in
  let twice := sweep (fst once) in
  snd twice = 0
  /\ files (fst twice) = files (fst once)
  /\ HELD_LOCKS (fst twice) = HELD_LOCKS w
  /\ (isDirectory w directory = true ->
      forall p, isOrphanLock process_kill0 (fst once) directory p = false).
Proof.
  intros once twice.
  destruct (isDirectory w directory) eqn:Hdir.
  2:{ unfold twice, once. rewrite (sweep_unreadable w Hdir).
      rewrite sweep_unreadable by exact Hdir.
      repeat split. discriminate. }
  destruct (sweep_outcome w Hdir) as (Hfiles & Hheld & _ & _).
  cbn zeta in Hfiles, Hheld. fold once in Hfiles, Hheld.
  assert (Hclean : forall p,
            isOrphanLock process_kill0 (fst once) directory p = false).
  { intros p.
    destruct (isOrphanLock process_kill0 (fst once) directory p) eqn:Ho;
      [| reflexivity].
    destruct (isOrphanLock_regular _ _ Ho) as [body Hbody].
    pose proof (Hfiles p) as Hp. rewrite Hbody in Hp.
    destruct (isOrphanLock process_kill0 w directory p) eqn:Hw; [discriminate |].
    rewrite (isOrphanLock_ext w (fst once) p Hheld) in Ho; [congruence |].
    now rewrite Hbody. }
  assert (Hdir1 : isDirectory (fst once) directory = true).
  { unfold isDirectory in *. destruct directory as [|seg d] eqn:Ed;
      [reflexivity |].
    rewrite <- Ed in *. rewrite Hfiles.
    destruct (isOrphanLock process_kill0 w directory directory) eqn:Ho;
      [| exact Hdir].
    apply isOrphanLock_regular in Ho as [body Hb]. now rewrite Hb in Hdir. }
  destruct (sweep_outcome (fst once) Hdir1) as (Hfiles2 & Hheld2 & Hsize2 & _).
  cbn zeta in Hfiles2, Hheld2, Hsize2. fold twice in Hfiles2, Hheld2, Hsize2.
  assert (Hsame : files (fst twice) = files (fst once)).
  { apply map_eq. intros p. now rewrite Hfiles2, Hclean. }
  split; [rewrite Hsame in Hsize2; lia |].
  split; [exact Hsame |]. split; [congruence |]. intros _. exact Hclean.
Qed.


End SweepMore.



Section Protocol.

Variable process_pid : Z.
Variable process_kill0 : Z -> KillResult.
Variable fs_realpath : Path -> option Path.
Variable Date_parse : string -> JsNumber.
Variable Date_toISOString : Z -> string.

Local Abbreviation attemptOnce' :=
  (attemptOnce process_pid process_kill0 Date_parse Date_toISOString).
Local Abbreviation acquireLoop' :=
  (acquireLoop process_pid process_kill0 Date_parse Date_toISOString).
Local Abbreviation acquire' :=
  (acquireSessionWriteLock process_pid process_kill0 fs_realpath Date_parse
                           Date_toISOString).

Lemma HeldInv_sameTable w w' : HeldInv w -> sameTable w w' -> HeldInv w'.
Proof.
  intros [H1 H2 H3 H4 H5] (Hh & Ho & Hn).
  constructor; rewrite ?Hh, ?Ho, ?Hn; assumption.
Qed.


Lemma sameTable_refl w : sameTable w w.
Proof. repeat split. Qed.

Lemma sameTable_trans w1 w2 w3 :
  sameTable w1 w2 -> sameTable w2 w3 -> sameTable w1 w3.
Proof. intros (? & ? & ?) (? & ? & ?). repeat split; congruence. Qed.

Lemma HeldInv_acquired w w' key lockPath :
  HeldInv w -> HELD_LOCKS w !! key = None -> lockPath = withLockSuffix key ->
  tableWith key lockPath w w' -> HeldInv w'.
Proof.
  intros [H1 H2 H3 H4 H5] Hfree -> (Hh & Ho & Hn).
  assert (Hnew : forall k held, HELD_LOCKS w !! k = Some held ->
                                handle held <> nextHandle w).
  { intros k held Hk E.
    assert (Hin : nextHandle w ∈ openHandles w) by (apply H3; eauto).
    apply H5 in Hin. lia. }
  constructor; rewrite ?Hh, ?Ho, ?Hn.
  - intros k held. rewrite lookup_insert. case_decide.
    + intros [= <-]. cbn. lia.
    + apply H1.
  - intros k held. rewrite lookup_insert. case_decide.
    + intros [= <-]. now subst k.
    + apply H2.
  - intros h. rewrite elem_of_union, elem_of_singleton, H3. split.
    + intros [(k & held & Hk & Hhd) | ->].
      * exists k, held. split; [| exact Hhd].
        rewrite lookup_insert_ne; [exact Hk | congruence].
      * exists key, (mkHeldLock 1 (nextHandle w) (withLockSuffix key)).
        split; [apply lookup_insert_eq | reflexivity].
    + intros (k & held & Hk & Hhd). rewrite lookup_insert in Hk.
      case_decide.
      * injection Hk as <-. now right.
      * left. eauto.
  - intros k1 k2 h1 h2. rewrite !lookup_insert.
    case_decide as E1; case_decide as E2.
    + congruence.
    + intros [= <-] Hk2 E. cbn in E. symmetry in E. now apply Hnew in Hk2.
    + intros Hk1 [= <-] E. cbn in E. now apply Hnew in Hk1.
    + apply H4.
  - intros h. rewrite elem_of_union, elem_of_singleton.
    intros [Hin | ->]; [apply H5 in Hin |]; lia.
Qed.

Lemma HeldInv_recount w w' key held (c : Z) :
  HeldInv w -> HELD_LOCKS w !! key = Some held -> 1 <= c ->
  HELD_LOCKS w' = <[key := mkHeldLock c (handle held) (lockPath held)]>
                    (HELD_LOCKS w) ->
  openHandles w' = openHandles w -> nextHandle w' = nextHandle w ->
  HeldInv w'.
Proof.
  intros [H1 H2 H3 H4 H5] Hkey Hc Hh Ho Hn.
  assert (Hlook : forall k x, HELD_LOCKS w' !! k = Some x ->
            exists y, HELD_LOCKS w !! k = Some y /\ handle x = handle y
                      /\ lockPath x = lockPath y /\ 1 <= count x).
  { intros k x. rewrite Hh, lookup_insert. case_decide.
    - intros [= <-]. subst k. exists held. repeat split; [exact Hkey | exact Hc].
    - intros Hk. exists x. repeat split; [exact Hk | now apply (H1 k)]. }
  constructor; rewrite ?Ho, ?Hn.
  - intros k x Hk. now destruct (Hlook k x Hk) as (y & _ & _ & _ & Hc').
  - intros k x Hk. destruct (Hlook k x Hk) as (y & Hy & _ & -> & _).
    now apply H2.
  - intros h. rewrite H3. split.
    + intros (k & y & Hk & Hy). destruct (decide (k = key)) as [->|Hne].
      * exists key, (mkHeldLock c (handle held) (lockPath held)).
        rewrite Hh, lookup_insert_eq. split; [reflexivity |]. cbn. congruence.
      * exists k, y. rewrite Hh, lookup_insert_ne by congruence. auto.
    + intros (k & x & Hk & Hx). destruct (Hlook k x Hk) as (y & Hy & E & _).
      exists k, y. split; [exact Hy | congruence].
  - intros k1 k2 x1 x2 Hk1 Hk2 E.
    destruct (Hlook k1 x1 Hk1) as (y1 & Hy1 & E1 & _).
    destruct (Hlook k2 x2 Hk2) as (y2 & Hy2 & E2 & _).
    apply (H4 k1 k2 y1 y2 Hy1 Hy2). congruence.
  - exact H5.
Qed.

Lemma HeldInv_dropped w w' key cur :
  HeldInv w -> HELD_LOCKS w !! key = Some cur ->
  HELD_LOCKS w' = delete key (HELD_LOCKS w) ->
  openHandles w' = openHandles w ∖ {[handle cur]} ->
  nextHandle w' = nextHandle w ->
  HeldInv w'.
Proof.
  intros [H1 H2 H3 H4 H5] Hkey Hh Ho Hn.
  constructor; rewrite ?Hh, ?Ho, ?Hn.
  - intros k x Hk. apply lookup_delete_Some in Hk as [_ Hk]. now apply (H1 k).
  - intros k x Hk. apply lookup_delete_Some in Hk as [_ Hk]. now apply H2.
  - intros h. rewrite elem_of_difference, elem_of_singleton, H3. split.
    + intros [(k & x & Hk & Hx) Hne]. exists k, x. split; [| exact Hx].
      apply lookup_delete_Some. split; [| exact Hk]. intros <-.
      rewrite Hkey in Hk. injection Hk as <-. congruence.
    + intros (k & x & Hk & Hx). apply lookup_delete_Some in Hk as [Hne Hk].
      split; [eauto |]. intros E. apply Hne.
      apply (H4 key k cur x Hkey Hk). congruence.
  - intros k1 k2 x1 x2 Hk1 Hk2.
    apply lookup_delete_Some in Hk1 as [_ Hk1].
    apply lookup_delete_Some in Hk2 as [_ Hk2]. now apply H4.
  - intros h. rewrite elem_of_difference. intros [Hin _]. now apply H5.
Qed.

(** What one attempt does to the table. *)
Lemma attemptOnce_table key lockPath staleMs attempt w :
  let out := attemptOnce' key lockPath staleMs attempt w in
  match snd out with
  | Acquired => tableWith key lockPath w (fst out)
  | _ => sameTable w (fst out)
  end.
Proof.
  cbn zeta. unfold attemptOnce.
  destruct (files w !! lockPath) as [node|] eqn:Hf.
  - unfold readLockPayload. cbn [logOp files].
    destruct (_ || _).
    + unfold fs_rm. cbn [logOp files]. rewrite Hf.
      destruct node; cbn [fst snd]; repeat split.
    + cbn [fst snd]. repeat split.
  - destruct (isDirectory w (path_dirname lockPath)); cbn [fst snd];
      repeat split.
Qed.

Lemma acquireLoop_table origin key lockPath timeoutMs staleMs startedAt :
  forall fuel attempt w,
    let out := acquireLoop' fuel origin key lockPath timeoutMs staleMs
                            startedAt attempt w in
    sameTable w (fst out) \/ tableWith key lockPath w (fst out).
Proof.
  induction fuel as [|fuel IH]; intros attempt w; cbn zeta.
  - cbn [acquireLoop]. destruct (num_lt _ _); cbn [fst]; left; repeat split.
  - cbn [acquireLoop]. destruct (num_lt _ _); [| left; repeat split].
    pose proof (attemptOnce_table key lockPath staleMs (attempt + 1) w) as Ha.
    cbn zeta in Ha.
    destruct (attemptOnce' key lockPath staleMs (attempt + 1) w)
      as [w1 [ | e | | delay]]; cbn [fst snd] in *.
    + now right.
    + now left.
    + destruct (IH (attempt + 1) w1) as [Hs | Ht].
      * left. eapply sameTable_trans; eauto.
      * right. destruct Ha as (Hh & Ho & Hn), Ht as (Hh' & Ho' & Hn').
        repeat split; congruence.
    + destruct (IH (attempt + 1) (sleep delay w1)) as [Hs | Ht].
      * left. eapply sameTable_trans; [exact Ha |].
        eapply sameTable_trans; [| exact Hs]. repeat split.
      * right. destruct Ha as (Hh & Ho & Hn), Ht as (Hh' & Ho' & Hn').
        cbn [sleep HELD_LOCKS openHandles nextHandle] in *.
        repeat split; congruence.
Qed.

Lemma HeldInv_acquire fuel origin sessionFile opt_timeoutMs opt_staleMs w :
  HeldInv w ->
  HeldInv (fst (acquire' fuel origin sessionFile opt_timeoutMs opt_staleMs w)).
Proof.
  intros HI. unfold acquireSessionWriteLock.
  destruct (canonicalPath fs_realpath sessionFile (registerCleanupHandlers w))
    as [[w1 key]|] eqn:Hcan.
  2:{ eapply HeldInv_sameTable; [exact HI |]. repeat split. }
  assert (Hs : sameTable w w1).
  { unfold canonicalPath, fs_mkdir in Hcan. destruct (existsb _ _); [discriminate |].
    injection Hcan as <- _. repeat split. }
  pose proof (HeldInv_sameTable w w1 HI Hs) as HI1.
  destruct (HELD_LOCKS w1 !! key) as [held|] eqn:Hheld.
  - cbn [fst]. eapply (HeldInv_recount w1 _ key held (count held + 1));
      [exact HI1 | exact Hheld | | reflexivity | reflexivity | reflexivity].
    pose proof (hi_count w1 HI1 key held Hheld). lia.
  - destruct (acquireLoop_table origin key (withLockSuffix key)
                (default (Num 10000) opt_timeoutMs)
                (default (Num (30 * 60 * 1000)) opt_staleMs) (clock w1)
                fuel 0 w1) as [Hsame | Hwith].
    + eapply HeldInv_sameTable; eauto.
    + eapply HeldInv_acquired; eauto.
Qed.

Lemma HeldInv_release rel w : HeldInv w -> HeldInv (fst (release rel w)).
Proof.
  intros HI. unfold release.
  destruct (HELD_LOCKS w !! rel_sessionFile rel) as [cur|] eqn:Hcur;
    [| exact HI].
  cbn [count handle lockPath].
  destruct (0 <? count cur - 1) eqn:Hc.
  - apply Z.ltb_lt in Hc. cbn [fst].
    eapply (HeldInv_recount w _ _ cur (count cur - 1));
      [exact HI | exact Hcur | lia | reflexivity | reflexivity | reflexivity].
  - unfold fs_rm. cbn [logOp closeHandle set_held files].
    destruct (files w !! lockPath cur) as [[b|]|]; cbn [fst];
      eapply (HeldInv_dropped w _ _ cur); eauto; reflexivity.
Qed.

Lemma cleanupOne_table directory acc (n : string) :
  sameTable (fst acc) (fst (cleanupOne process_kill0 directory acc n)).
Proof.
  destruct acc as [w removed]. unfold cleanupOne. cbn [fst].
  destruct (HELD_LOCKS w !! _); [apply sameTable_refl |].
  unfold readLockPayload.
  destruct (match parsePayload _ with Some _ => _ | None => _ end);
    [| repeat split].
  unfold fs_rm. cbn [logOp files].
  destruct (files w !! _) as [[b|]|]; repeat split.
Qed.

Lemma HeldInv_cleanup directory w :
  HeldInv w -> HeldInv (fst (cleanupOrphanedLocks process_kill0 directory w)).
Proof.
  intros HI. unfold cleanupOrphanedLocks.
  destruct (fs_readdir directory w) as [entries|].
  2:{ eapply HeldInv_sameTable; [exact HI |]. repeat split. }
  set (names := filter _ entries). clearbody names.
  assert (H : forall acc, HeldInv (fst acc) ->
            HeldInv (fst (fold_left (cleanupOne process_kill0 directory)
                                    names acc))).
  { induction names as [|n names IH]; intros acc Hacc; [exact Hacc |].
    cbn [fold_left]. apply IH.
    eapply HeldInv_sameTable; [exact Hacc | apply cleanupOne_table]. }
  apply H. cbn [fst]. eapply HeldInv_sameTable; [exact HI |]. repeat split.
Qed.


Lemma HeldInv_releaseAll w : HeldInv w -> HeldInv (releaseAllLocksSync w).
Proof.
  intros HI.
  destruct (releaseAll_fold w (HELD_LOCKS w))
    as (Hheld & _ & _ & _ & Hopen & _ & Hnext).
  cbn zeta in *. fold (releaseAllLocksSync w) in *.
  rewrite map_difference_diag in Hheld.
  assert (Hnone : forall h, h ∉ openHandles (releaseAllLocksSync w)).
  { intros h. rewrite Hopen. intros [Hin Hno].
    apply (hi_open w HI) in Hin as (k & held & Hk & Hh). now apply (Hno k held). }
  constructor; rewrite ?Hheld.
  - intros k x Hk. now rewrite lookup_empty in Hk.
  - intros k x Hk. now rewrite lookup_empty in Hk.
  - intros h. split; [intros Hin; now apply Hnone in Hin |].
    intros (k & x & Hk & _). now rewrite lookup_empty in Hk.
  - intros k1 k2 x1 x2 Hk. now rewrite lookup_empty in Hk.
  - intros h Hin. now apply Hnone in Hin.
Qed.

Local Abbreviation call' :=
  (call process_pid process_kill0 fs_realpath Date_parse Date_toISOString).
Local Abbreviation calls' :=
  (calls process_pid process_kill0 fs_realpath Date_parse Date_toISOString).

Lemma HeldInv_call w c : HeldInv w -> HeldInv (call' w c).
Proof.
  intros HI. destruct c; cbn [call].
  - now apply HeldInv_acquire.
  - now apply HeldInv_release.
  - now apply HeldInv_cleanup.
  - now apply HeldInv_releaseAll.
  - eapply HeldInv_sameTable; [exact HI |]. repeat split.
Qed.


End Protocol.

